(** * Railway data extractor: tile planner, query client and collectors

    A shallow embedding of the two variants of the extractor script:
    the extended variant ([src/extract.js], module [Extended]) and the
    baseline "major stations" variant ([src/unnamed/part_000], module
    [Baseline]).

    JavaScript numbers are embedded as rationals ([Q]).  The rounding of
    binary64 arithmetic is written out with [fl] where a result depends
    on it: in the coordinates that are stored ([round5]) and in the tile
    planner of module [Binary64].  The tile planner of section
    [TilePlanner] steps in exact arithmetic; what is proved of it does
    not depend on the last place of a sum.  Strings are the UTF-8 bytes
    of the text.  Loops whose trip count depends on the data carry a
    fuel argument and return [None] when it runs out. *)

From Stdlib Require Import QArith Qpower Qround Qminmax Qabs Lqa ZArith.
From Stdlib Require Import List Lia Bool.
From Stdlib Require Import String Ascii DecimalString DecimalN DecimalPos Sorted.
From stdpp Require Import base gmap sets.

Import ListNotations.
Local Open Scope Q_scope.

(** ** JavaScript numbers *)

Definition Qltb (x y : Q) : bool := negb (Qle_bool y x).

(** [Math.min] on two numbers. *)
Definition Math_min (x y : Q) : Q := Qmin x y.

(** *** Binary64 rounding

    A number of the script is a binary64 value, and the result of an
    arithmetic operation is the exact result rounded to the nearest
    binary64 value, to the one with an even last digit on a tie.  A
    result of magnitude [2^1024] or more is [Infinity] in JavaScript;
    [fl] has no such limit, and the statements that use it bound the
    magnitudes of their numbers. *)

(** The binary exponent of a positive number: [2^(mag a - 1) <= a < 2^(mag a)]. *)
Definition mag (a : Q) : Z :=
  let e0 := (Z.log2 (Qnum a) - Z.log2 (Zpos (Qden a)))%Z in
  if Qle_bool (2 ^ e0) a then (e0 + 1)%Z else e0.

(** The nearest integer, the even one on a tie. *)
Definition roundEven (y : Q) : Z :=
  let f := Qfloor y in
  match Qcompare (y - inject_Z f) (1 # 2) with
  | Lt => f
  | Gt => (f + 1)%Z
  | Eq => if Z.even f then f else (f + 1)%Z
  end.

(** The exponent of the last place of the binary64 value nearest to
    [x]: 53 significant bits, and no place below [2^-1074]. *)
Definition lastPlace (x : Q) : Z := Z.max (mag (Qabs x) - 53) (-1074).

(** The binary64 value nearest to [x]. *)
Definition fl (x : Q) : Q :=
  if Qeq_bool x 0 then 0
  else Qred (inject_Z (roundEven (x / 2 ^ lastPlace x)) * 2 ^ lastPlace x).

(** ** Bounding boxes and tiles

    A box is the array [[s, w, n, e]]. *)

Record BBox : Type := mkBBox { south : Q; west : Q; north : Q; east : Q }.

(** The data-model invariant of a bounding box. *)
Definition valid_bbox (b : BBox) : Prop := south b < north b /\ west b < east b.

(** A point lies in a box (edges included). *)
Definition in_box (x y : Q) (b : BBox) : Prop :=
  south b <= x /\ x <= north b /\ west b <= y /\ y <= east b.

Definition latSpan (b : BBox) : Q := north b - south b.
Definition lonSpan (b : BBox) : Q := east b - west b.

(** ** Tile planner

    Both variants share one shape: a threshold test, then two nested
    [for] loops that step by the tile size and push clipped tiles.  The
    extended variant tests against [TILE_THRESHOLD_DEG] and steps by
    [TILE_SIZE_DEG]; the baseline variant uses its [tileSize] argument
    for both. *)

Section TilePlanner.
Variable threshold tileSize : Q.
Variable bbox : BBox.

(** [for (let lon = ...; lon < e; lon += tileSize) tiles.push(...)],
    entered with the loop variable at [lon] and the array built so far. *)
Fixpoint lonLoop (fuel : nat) (lat lon : Q) (tiles : list BBox)
  : option (list BBox) :=
  match fuel with
  | O => None
  | S fuel' =>
      if Qltb lon (east bbox) then
        lonLoop fuel' lat (lon + tileSize)
          (tiles ++ [mkBBox lat lon
                       (Math_min (lat + tileSize) (north bbox))
                       (Math_min (lon + tileSize) (east bbox))])
      else Some tiles
  end.

(** [for (let lat = ...; lat < n; lat += tileSize) <inner loop>]. *)
Fixpoint latLoop (fuel : nat) (lat : Q) (tiles : list BBox)
  : option (list BBox) :=
  match fuel with
  | O => None
  | S fuel' =>
      if Qltb lat (north bbox) then
        match lonLoop fuel lat (west bbox) tiles with
        | None => None
        | Some tiles' => latLoop fuel' (lat + tileSize) tiles'
        end
      else Some tiles
  end.

Definition getTilesWith (fuel : nat) : option (list BBox) :=
  if Qle_bool (latSpan bbox) threshold && Qle_bool (lonSpan bbox) threshold
  then Some [bbox]
  else latLoop fuel (south bbox) [].

End TilePlanner.

(** The same planner with every sum and difference rounded to binary64,
    as the script computes them. *)
Module Binary64.

Section TilePlanner.
Variable threshold tileSize : Q.
Variable bbox : BBox.

Fixpoint lonLoop (fuel : nat) (lat lon : Q) (tiles : list BBox)
  : option (list BBox) :=
  match fuel with
  | O => None
  | S fuel' =>
      if Qltb lon (east bbox) then
        lonLoop fuel' lat (fl (lon + tileSize))
          (tiles ++ [mkBBox lat lon
                       (Math_min (fl (lat + tileSize)) (north bbox))
                       (Math_min (fl (lon + tileSize)) (east bbox))])
      else Some tiles
  end.

Fixpoint latLoop (fuel : nat) (lat : Q) (tiles : list BBox)
  : option (list BBox) :=
  match fuel with
  | O => None
  | S fuel' =>
      if Qltb lat (north bbox) then
        match lonLoop fuel lat (west bbox) tiles with
        | None => None
        | Some tiles' => latLoop fuel' (fl (lat + tileSize)) tiles'
        end
      else Some tiles
  end.

Definition getTilesWith (fuel : nat) : option (list BBox) :=
  if Qle_bool (fl (north bbox - south bbox)) threshold
     && Qle_bool (fl (east bbox - west bbox)) threshold
  then Some [bbox]
  else latLoop fuel (south bbox) [].

End TilePlanner.

(** A box of number literals: each denotes the binary64 value nearest
    to it. *)
Definition literalBox (s w n e : Q) : BBox :=
  mkBBox (fl s) (fl w) (fl n) (fl e).

End Binary64.

(** ** Remote service, exceptions and the event log *)

Inductive Error : Type :=
| AbortError
| OtherError (message : string).

Record Point : Type := mkPoint { p_lat : Q; p_lon : Q }.

Record Center : Type := mkCenter { c_lat : option Q; c_lon : option Q }.

(** The tag keys the script reads. *)
Record Tags : Type := mkTags {
  t_name : option string;
  t_name_en : option string;
  t_ref : option string;
  t_railway : option string;
  t_building : option string
}.

Record Element : Type := mkElement {
  el_type : string;
  el_id : Z;
  el_lat : option Q;
  el_lon : option Q;
  el_center : option Center;
  el_tags : option Tags;
  el_geometry : option (list Point)
}.

(** A parsed response body: JSON [null], or a value whose [elements]
    property is either absent or an array of elements. *)
Inductive Data : Type :=
| DNull
| DObj (elements : option (list Element)).

Record Response : Type := mkResponse {
  status : Z;
  body : Error + Data      (* what [resp.json()] settles to *)
}.

(** What one [fetch] call settles to. *)
Inductive Outcome : Type :=
| Rejected (e : Error)
| Responded (r : Response).

(** The three query texts, by their parameters. *)
Inductive Query : Type :=
| RailwayQuery (tile : BBox)
| TownQuery (box : BBox)
| StationQuery (box : BBox).

Inductive Event : Type :=
| EFetch (endpoint : string) (query : Query)
| ESleep (ms : Z).

(** The world: the outcome of the k-th request ever made, the number of
    requests made so far, and the events so far (oldest first). *)
Record World : Type := mkWorld {
  net : nat -> Outcome;
  clock : nat;
  log : list Event
}.

Definition IO (A : Type) : Type := World -> (Error + A) * World.

Definition ret {A} (a : A) : IO A := fun w => (inr a, w).

Definition throw {A} (e : Error) : IO A := fun w => (inl e, w).

Definition bind {A B} (c : IO A) (k : A -> IO B) : IO B :=
  fun w => match c w with
           | (inr a, w') => k a w'
           | (inl e, w') => (inl e, w')
           end.

(** [try { c } catch (e) { h e }] *)
Definition tryCatch {A} (c : IO A) (h : Error -> IO A) : IO A :=
  fun w => match c w with
           | (inr a, w') => (inr a, w')
           | (inl e, w') => h e w'
           end.

Notation "x <- c ;; k" := (bind c (fun x => k))
  (at level 100, c at next level, right associativity).
Notation "c ;;; k" := (bind c (fun _ => k))
  (at level 100, right associativity).

Definition fetch (endpoint : string) (query : Query) : IO Response :=
  fun w =>
    let w' := mkWorld (net w) (S (clock w))
                (log w ++ [EFetch endpoint query]) in
    match net w (clock w) with
    | Rejected e => (inl e, w')
    | Responded r => (inr r, w')
    end.

Definition json (resp : Response) : IO Data :=
  match body resp with
  | inl e => throw e
  | inr d => ret d
  end.

Definition sleep (ms : Z) : IO unit :=
  fun w => (inr tt, mkWorld (net w) (clock w) (log w ++ [ESleep ms])).

(** [resp.ok] *)
Definition ok (resp : Response) : bool :=
  ((200 <=? status resp) && (status resp <=? 299))%Z.

Definition OVERPASS_ENDPOINTS : list string :=
  ["https://overpass-api.de/api/interpreter"%string;
   "https://overpass.kumi.systems/api/interpreter"%string].

Definition MAX_RETRIES : nat := 3.

(** How one pass through a loop body ends. *)
Inductive Ctl : Type :=
| Continue
| Break
| Return (data : Data).

(** [for (let attempt = 0; attempt < MAX_RETRIES; attempt++) body];
    [Some d] when the body returned [d] from the function. *)
Fixpoint forAttempts (body : nat -> IO Ctl) (remaining attempt : nat)
  : IO (option Data) :=
  match remaining with
  | O => ret None
  | S remaining' =>
      c <- body attempt ;;
      match c with
      | Continue => forAttempts body remaining' (S attempt)
      | Break => ret None
      | Return d => ret (Some d)
      end
  end.

(** [for (const endpoint of endpoints) ...; return null]. *)
Fixpoint forEndpoints (perEndpoint : string -> IO (option Data))
  (endpoints : list string) : IO Data :=
  match endpoints with
  | [] => ret DNull
  | endpoint :: rest =>
      r <- perEndpoint endpoint ;;
      match r with
      | Some d => ret d
      | None => forEndpoints perEndpoint rest
      end
  end.

(** [!data || !data.elements], read the other way round. *)
Definition elementsOf (data : Data) : option (list Element) :=
  match data with
  | DNull => None
  | DObj els => els
  end.

(** ** JavaScript values: truthiness, strings, rounding *)

Local Open Scope string_scope.

(** A string-valued property is truthy when present and not empty. *)
Definition truthyStr (v : option string) : bool :=
  match v with
  | Some s => negb (String.eqb s "")
  | None => false
  end.

(** [a || b] on string-valued properties. *)
Definition jsOr (a b : option string) : option string :=
  if truthyStr a then a else b.

(** [a || 'literal'] *)
Definition jsOrDefault (a : option string) (d : string) : string :=
  match a with
  | Some s => if String.eqb s "" then d else s
  | None => d
  end.

(** [el.tags?.key] *)
Definition tag (el : Element) (key : Tags -> option string) : option string :=
  match el_tags el with
  | Some t => key t
  | None => None
  end.

(** [Math.round]: the nearest integer, halves upwards. *)
Definition Math_round (x : Q) : Z := Qfloor (x + (1 # 2)).

(** [Math.round(x * 100000) / 100000]: the product and the quotient
    are rounded to binary64, [Math.round] is exact. *)
Definition round5 (x : Q) : Q :=
  fl (inject_Z (Math_round (fl (x * 100000))) / 100000).

Definition digit (d : Z) : ascii := ascii_of_nat (48 + Z.to_nat d).

Definition pad4 (n : Z) : string :=
  String (digit (n / 1000))
    (String (digit (n / 100 mod 10))
       (String (digit (n / 10 mod 10))
          (String (digit (n mod 10)) ""))).

Definition decimal (n : Z) : string :=
  NilZero.string_of_uint (N.to_uint (Z.to_N n)).

(** [x.toFixed(4)]: the sign of [x], then the nearest multiple of
    [0.0001] to its magnitude, the larger one on a tie. *)
Definition toFixed4 (x : Q) : string :=
  let n := Qfloor (Qabs x * 10000 + (1 # 2)) in
  (if Qltb x 0 then "-" else "") ++
  decimal (n / 10000) ++ "." ++ pad4 (n mod 10000).

(** [`${lat.toFixed(4)},${lon.toFixed(4)}`] *)
Definition coordKey (lat lon : Q) : string :=
  toFixed4 lat ++ "," ++ toFixed4 lon.

(** [s.includes(pat)], the test behind a match against a literal. *)
Fixpoint includes (pat s : string) : bool :=
  String.prefix pat s ||
  match s with
  | EmptyString => false
  | String _ s' => includes pat s'
  end.

Definition lowerChar (c : ascii) : ascii :=
  let n := nat_of_ascii c in
  if ((65 <=? n) && (n <=? 90))%nat then ascii_of_nat (n + 32) else c.

(** [s.toLowerCase()] on the letters A to Z; other characters are kept. *)
Fixpoint toLowerCase (s : string) : string :=
  match s with
  | EmptyString => EmptyString
  | String c s' => String (lowerChar c) (toLowerCase s')
  end.

(** What [trim] removes is the white space and the line terminators of
    the language.  In the UTF-8 bytes of a text these are characters of
    one, two and three bytes; no other character starts with the bytes
    of one of them.

    White space of one byte: the space, and the tab, the line feed, the
    vertical tab, the form feed and the carriage return. *)
Definition isSpace (c : ascii) : bool :=
  let n := nat_of_ascii c in
  ((n =? 32) || ((9 <=? n) && (n <=? 13)))%nat.

(** White space of two bytes: the no-break space U+00A0. *)
Definition isSpace2 (a b : ascii) : bool :=
  ((nat_of_ascii a =? 194) && (nat_of_ascii b =? 160))%nat.

(** White space of three bytes: U+1680, U+2000 to U+200A, the line and
    paragraph separators U+2028 and U+2029, U+202F, U+205F, U+3000 and
    the byte order mark U+FEFF. *)
Definition isSpace3 (a b c : ascii) : bool :=
  let x := nat_of_ascii a in
  let y := nat_of_ascii b in
  let z := nat_of_ascii c in
  (((x =? 225) && (y =? 154) && (z =? 128)) ||
   ((x =? 226) && (y =? 128) &&
    (((128 <=? z) && (z <=? 138)) || (z =? 168) || (z =? 169) || (z =? 175))) ||
   ((x =? 226) && (y =? 129) && (z =? 159)) ||
   ((x =? 227) && (y =? 128) && (z =? 128)) ||
   ((x =? 239) && (y =? 187) && (z =? 191)))%nat.

(** [s.trimStart()]: the white space characters at the start go. *)
Fixpoint trimStart (s : string) : string :=
  match s with
  | EmptyString => EmptyString
  | String a r1 =>
      if isSpace a then trimStart r1 else
      match r1 with
      | EmptyString => s
      | String b r2 =>
          if isSpace2 a b then trimStart r2 else
          match r2 with
          | EmptyString => s
          | String c r3 => if isSpace3 a b c then trimStart r3 else s
          end
      end
  end.

(** [s.trimEnd()]: the text ends where only white space is left. *)
Fixpoint trimEnd (s : string) : string :=
  match s with
  | EmptyString => EmptyString
  | String c s' =>
      if String.eqb (trimStart s) "" then "" else String c (trimEnd s')
  end.

(** [s.trim()]. *)
Definition trim (s : string) : string := trimEnd (trimStart s).

(** ** A [Map] with string keys, in insertion order *)

Definition JsMap (V : Type) : Type := list (string * V).

Definition mapHas {V} (key : string) (m : JsMap V) : bool :=
  existsb (fun kv => String.eqb (fst kv) key) m.

(** [m.set(key, v)]: an existing key keeps its place. *)
Fixpoint mapSet {V} (key : string) (v : V) (m : JsMap V) : JsMap V :=
  match m with
  | [] => [(key, v)]
  | (k, v') :: rest =>
      if String.eqb k key then (key, v) :: rest
      else (k, v') :: mapSet key v rest
  end.

Fixpoint mapGet {V} (key : string) (m : JsMap V) : option V :=
  match m with
  | [] => None
  | (k, v) :: rest => if String.eqb k key then Some v else mapGet key rest
  end.

Definition mapKeys {V} (m : JsMap V) : list string := map fst m.

(** [Array.from(m.values())] *)
Definition mapValues {V} (m : JsMap V) : list V := map snd m.

(** ** [Array.prototype.sort] with a comparator: a stable insertion sort *)

Fixpoint insertSorted {A} (cmp : A -> A -> comparison) (x : A) (l : list A)
  : list A :=
  match l with
  | [] => [x]
  | y :: rest =>
      match cmp x y with
      | Lt => x :: y :: rest
      | _ => y :: insertSorted cmp x rest
      end
  end.

Definition sortBy {A} (cmp : A -> A -> comparison) (l : list A) : list A :=
  fold_left (fun acc x => insertSorted cmp x acc) l [].

(** ** Railway segments: the element loop both variants share *)

Record RailwaySegment : Type := mkSegment {
  seg_id : Z;
  seg_type : string;
  seg_geometry : list (Q * Q)
}.

(** [allWays] and [seenIds] of one [extractRailways] run. *)
Record Collected : Type := mkCollected {
  seenIds : gset Z;
  allWays : list RailwaySegment
}.

Definition segmentOf (el : Element) (geometry : list Point) : RailwaySegment :=
  {| seg_id := el_id el;
     seg_type := jsOrDefault (tag el t_railway) "rail";
     seg_geometry :=
       map (fun p => (round5 (p_lat p), round5 (p_lon p))) geometry |}.

(** The body of [for (const el of data.elements)]. *)
Definition collectElement (st : Collected) (el : Element) : Collected :=
  if decide (el_id el ∈ seenIds st) then st
  else
    let seen := {[ el_id el ]} ∪ seenIds st in
    match el_geometry el with
    | None => mkCollected seen (allWays st)
    | Some geometry =>
        if (length geometry <? 2)%nat then mkCollected seen (allWays st)
        else mkCollected seen (allWays st ++ [segmentOf el geometry])
    end.

Definition collectElements (st : Collected) (els : list Element) : Collected :=
  fold_left collectElement els st.

Record Country : Type := mkCountry {
  country_name : string;
  country_bbox : BBox;
  country_code : string
}.

(** [el.type === 'way' ? el.center?.lat : el.lat] *)
Definition resolvedLat (el : Element) : option Q :=
  if String.eqb (el_type el) "way" then
    match el_center el with Some c => c_lat c | None => None end
  else el_lat el.

Definition resolvedLon (el : Element) : option Q :=
  if String.eqb (el_type el) "way" then
    match el_center el with Some c => c_lon c | None => None end
  else el_lon el.

(** [!x] on a number-valued property: absent, or zero. *)
Definition falsyNum (x : option Q) : bool :=
  match x with
  | Some q => Qeq_bool q 0
  | None => true
  end.

(** ** Object literals as tables

    The country tables are object literals.  [table[key]] finds the own
    keys of the literal and, for any other key, what every object
    inherits from [Object.prototype]; all of those values are truthy. *)

Definition OBJECT_PROTOTYPE_KEYS : list string :=
  ["constructor"; "hasOwnProperty"; "isPrototypeOf"; "propertyIsEnumerable";
   "toLocaleString"; "toString"; "valueOf"; "__proto__";
   "__defineGetter__"; "__defineSetter__";
   "__lookupGetter__"; "__lookupSetter__"].

Definition isKey (key : string) (keys : list string) : bool :=
  existsb (String.eqb key) keys.

(** [table[key]] is truthy, for a table with the own keys [ownKeys]. *)
Definition hasProperty (key : string) (ownKeys : list string) : bool :=
  isKey key ownKeys || isKey key OBJECT_PROTOTYPE_KEYS.

(** * The extended variant ([src/extract.js]) *)

Module Extended.

Definition TILE_THRESHOLD_DEG : Q := 15.
Definition TILE_SIZE_DEG : Q := 10.
Definition DELAY_BETWEEN_QUERIES_MS : Z := 5000.

Definition getTiles (fuel : nat) (bbox : BBox) : option (list BBox) :=
  getTilesWith TILE_THRESHOLD_DEG TILE_SIZE_DEG bbox fuel.

(** The same in binary64. *)
Definition getTilesBinary64 (fuel : nat) (bbox : BBox) : option (list BBox) :=
  Binary64.getTilesWith TILE_THRESHOLD_DEG TILE_SIZE_DEG bbox fuel.

(** The [try] block of one attempt. *)
Definition attemptBody (endpoint : string) (query : Query) (attempt : nat)
  : IO Ctl :=
  resp <- fetch endpoint query ;;
  if (status resp =? 429)%Z then
    sleep (10000 * (Z.of_nat attempt + 1)) ;;; ret Continue
  else if ((status resp =? 504) || (status resp =? 503))%Z then ret Break
  else if negb (ok resp) then ret Continue
  else data <- json resp ;; ret (Return data).

(** The [catch] block: it only logs, and the loop goes on. *)
Definition attemptCatch (attempt : nat) (e : Error) : IO Ctl := ret Continue.

Definition queryOverpass (query : Query) : IO Data :=
  forEndpoints
    (fun endpoint =>
       forAttempts
         (fun attempt =>
            tryCatch (attemptBody endpoint query attempt)
              (attemptCatch attempt))
         MAX_RETRIES 0)
    OVERPASS_ENDPOINTS.

(** [for (let i = 0; i < tiles.length; i++)], entered at index [i] with
    the tiles from [i] on; [total] is [tiles.length]. *)
Fixpoint tileLoop (total i : nat) (tiles : list BBox) (st : Collected)
  : IO Collected :=
  match tiles with
  | [] => ret st
  | tile :: rest =>
      data <- queryOverpass (RailwayQuery tile) ;;
      match elementsOf data with
      | None => tileLoop total (S i) rest st
      | Some els =>
          let st' := collectElements st els in
          (if (i <? total - 1)%nat then sleep DELAY_BETWEEN_QUERIES_MS
           else ret tt) ;;;
          tileLoop total (S i) rest st'
      end
  end.

(** [extractRailways] from the tiles on. *)
Definition collectRailways (tiles : list BBox) : IO (list RailwaySegment) :=
  st <- tileLoop (length tiles) 0 tiles (mkCollected ∅ []) ;;
  ret (allWays st).

(** [None] when the tile planner does not return within [fuel]. *)
Definition extractRailways (fuel : nat) (country : Country)
  : option (IO (list RailwaySegment)) :=
  option_map collectRailways (getTiles fuel (country_bbox country)).

Record Station : Type := mkStation {
  st_id : Z;
  st_lat : Q;
  st_lon : Q;
  st_name : string;
  st_nameEn : option string;     (* [None] is [null] *)
  st_type : string
}.

Record Town : Type := mkTown {
  town_lat : option Q;
  town_lon : option Q;
  town_name : option string
}.

Section Stations.

(** The numeric library and the collation of the host. *)
Variables Math_sin Math_cos Math_sqrt : Q -> Q.
Variable Math_atan2 : Q -> Q -> Q.
Variable Math_PI : Q.
Variable localeCompare : string -> string -> comparison.

Definition haversine (lat1 lon1 lat2 lon2 : Q) : Q :=
  let R := 6371 in
  let dLat := (lat2 - lat1) * Math_PI / 180 in
  let dLon := (lon2 - lon1) * Math_PI / 180 in
  let a := Math_sin (dLat / 2) * Math_sin (dLat / 2)
           + Math_cos (lat1 * Math_PI / 180)
             * Math_cos (lat2 * Math_PI / 180)
             * (Math_sin (dLon / 2) * Math_sin (dLon / 2)) in
  R * 2 * Math_atan2 (Math_sqrt a) (Math_sqrt (1 - a)).

(** [haversine(lat, lon, t.lat, t.lon)]; [None] is [NaN], which a town
    without coordinates gives. *)
Definition distanceTo (lat lon : Q) (t : Town) : option Q :=
  match town_lat t, town_lon t with
  | Some tlat, Some tlon => Some (haversine lat lon tlat tlon)
  | _, _ => None
  end.

Definition townOf (t : Element) : Town :=
  {| town_lat := el_lat t;
     town_lon := el_lon t;
     town_name := jsOr (tag t t_name) (tag t t_name_en) |}.

(** [townData?.elements?.map(...) || []] *)
Definition townsOf (townData : Data) : list Town :=
  match elementsOf townData with
  | Some els => map townOf els
  | None => []
  end.

(** [towns.some(t => haversine(lat, lon, t.lat, t.lon) <= 10)] *)
Definition nearTown (towns : list Town) (lat lon : Q) : bool :=
  existsb (fun t => match distanceTo lat lon t with
                    | Some d => Qle_bool d 10
                    | None => false
                    end) towns.

(** One pass of the closest-town loop; the second component is
    [minDist], with [None] for [Infinity]. *)
Definition closerTown (lat lon : Q) (acc : option Town * option Q)
  (town : Town) : option Town * option Q :=
  match distanceTo lat lon town with
  | Some d =>
      if (match snd acc with Some m => Qltb d m | None => true end)
         && Qltb d 5
      then (Some town, Some d) else acc
  | None => acc
  end.

Definition closestTown (towns : list Town) (lat lon : Q) : option Town :=
  fst (fold_left (closerTown lat lon) towns (None, None)).

(** The name of a station, or [None] where the loop body [continue]s. *)
Definition resolveName (towns : list Town) (lat lon : Q) (el : Element)
  : option string :=
  let name := jsOr (jsOr (tag el t_name) (tag el t_name_en)) (tag el t_ref) in
  if truthyStr name then name
  else
    match closestTown towns lat lon with
    | Some town =>
        if truthyStr (town_name town)
        then option_map (fun n => n ++ " Station") (town_name town)
        else None
    | None => None
    end.

(** [name.toLowerCase().match(/station|vokzal|gar|istasyon/)] *)
Definition matchesStationWord (name : string) : bool :=
  let l := toLowerCase name in
  includes "station" l || includes "vokzal" l
  || includes "gar" l || includes "istasyon" l.

Definition stationOf (el : Element) (lat lon : Q) (name : string) : Station :=
  {| st_id := el_id el;
     st_lat := round5 lat;
     st_lon := round5 lon;
     st_name := name;
     st_nameEn := if truthyStr (tag el t_name_en) then tag el t_name_en
                  else None;
     st_type := jsOrDefault (tag el t_railway) "station" |}.

(** The first half of the body of [for (const el of data.elements)]:
    the coordinates and the name of the element, or [None] where the
    body [continue]s. *)
Definition candidate (towns : list Town) (el : Element)
  : option (Q * Q * string) :=
  if falsyNum (resolvedLat el) || falsyNum (resolvedLon el) then None
  else
    match resolvedLat el, resolvedLon el with
    | Some lat, Some lon =>
        if match tag el t_building with
           | Some b => String.eqb b "train_station"
           | None => false
           end
           && (0 <? length towns)%nat
           && negb (nearTown towns lat lon)
        then None
        else option_map (fun name => (lat, lon, name))
               (resolveName towns lat lon el)
    | _, _ => None
    end.

(** The whole body: the second half keys the candidate and stores it. *)
Definition stationStep (towns : list Town) (stationMap : JsMap Station)
  (el : Element) : JsMap Station :=
  match candidate towns el with
  | None => stationMap
  | Some (lat, lon, name) =>
      let key := coordKey lat lon in
      if negb (mapHas key stationMap) || matchesStationWord name
      then mapSet key (stationOf el lat lon name) stationMap
      else stationMap
  end.

Definition stationsOf (towns : list Town) (els : list Element)
  : JsMap Station :=
  fold_left (stationStep towns) els [].

Definition sortStations (stations : list Station) : list Station :=
  sortBy (fun a b => localeCompare (st_name a) (st_name b)) stations.

(** What [extractStations] returns for the towns and elements received. *)
Definition stationOutput (towns : list Town) (els : list Element)
  : list Station :=
  sortStations (mapValues (stationsOf towns els)).

Definition extractStations (country : Country) : IO (list Station) :=
  townData <- queryOverpass (TownQuery (country_bbox country)) ;;
  let towns := townsOf townData in
  sleep DELAY_BETWEEN_QUERIES_MS ;;;
  data <- queryOverpass (StationQuery (country_bbox country)) ;;
  match elementsOf data with
  | None => ret []
  | Some els => ret (stationOutput towns els)
  end.

End Stations.

End Extended.

(** * The baseline variant ([src/unnamed/part_000]) *)

Module Baseline.

Inductive SizeClass : Type := small | medium | large | xlarge.

Definition COUNTRIES_SMALL : list string :=
  ["bulgaria"; "azerbaijan"; "turkmenistan"; "afghanistan"].
Definition COUNTRIES_MEDIUM : list string :=
  ["romania"; "uzbekistan"; "turkey"].
Definition COUNTRIES_LARGE : list string :=
  ["iran"; "pakistan"; "ukraine"; "kazakhstan"].

Definition TILE_SIZES (size : SizeClass) : Q :=
  match size with
  | small => 20
  | medium => 8
  | large => 6
  | xlarge => 5
  end.

Definition DELAY_MS : Z := 8000.

Definition getCountrySize (key : string) : SizeClass :=
  if hasProperty key COUNTRIES_SMALL then small
  else if hasProperty key COUNTRIES_MEDIUM then medium
  else if hasProperty key COUNTRIES_LARGE then large
  else xlarge.

Definition getTiles (fuel : nat) (bbox : BBox) (tileSize : Q)
  : option (list BBox) :=
  getTilesWith tileSize tileSize bbox fuel.

(** The same in binary64. *)
Definition getTilesBinary64 (fuel : nat) (bbox : BBox) (tileSize : Q)
  : option (list BBox) :=
  Binary64.getTilesWith tileSize tileSize bbox fuel.

(** The [try] block of one attempt. *)
Definition attemptBody (endpoint : string) (query : Query) (attempt : nat)
  : IO Ctl :=
  resp <- fetch endpoint query ;;
  if (status resp =? 429)%Z then
    sleep (15000 * (Z.of_nat attempt + 1)) ;;; ret Continue
  else if (500 <=? status resp)%Z then ret Break
  else if negb (ok resp) then sleep 5000 ;;; ret Continue
  else data <- json resp ;; ret (Return data).

(** The [catch] block. *)
Definition attemptCatch (attempt : nat) (e : Error) : IO Ctl :=
  if (attempt =? MAX_RETRIES - 1)%nat then ret Break
  else sleep 5000 ;;; ret Continue.

Definition queryOverpass (query : Query) : IO Data :=
  forEndpoints
    (fun endpoint =>
       forAttempts
         (fun attempt =>
            tryCatch (attemptBody endpoint query attempt)
              (attemptCatch attempt))
         MAX_RETRIES 0)
    OVERPASS_ENDPOINTS.

(** [if (i < tiles.length - 1) await sleep(DELAY_MS)] *)
Definition interTileDelay (total i : nat) : IO unit :=
  if (i <? total - 1)%nat then sleep DELAY_MS else ret tt.

(** [for (let i = 0; i < tiles.length; i++)], entered at index [i] with
    the tiles from [i] on; [total] is [tiles.length]. *)
Fixpoint tileLoop (total i : nat) (tiles : list BBox) (st : Collected)
  : IO Collected :=
  match tiles with
  | [] => ret st
  | tile :: rest =>
      data <- queryOverpass (RailwayQuery tile) ;;
      match elementsOf data with
      | None =>
          interTileDelay total i ;;;
          tileLoop total (S i) rest st
      | Some els =>
          let st' := collectElements st els in
          interTileDelay total i ;;;
          tileLoop total (S i) rest st'
      end
  end.

(** [extractRailways] from the tiles on. *)
Definition collectRailways (tiles : list BBox) : IO (list RailwaySegment) :=
  st <- tileLoop (length tiles) 0 tiles (mkCollected ∅ []) ;;
  ret (allWays st).

(** [None] when the tile planner does not return within [fuel]. *)
Definition extractRailways (fuel : nat) (key : string) (country : Country)
  : option (IO (list RailwaySegment)) :=
  option_map collectRailways
    (getTiles fuel (country_bbox country) (TILE_SIZES (getCountrySize key))).

Record Station : Type := mkStation {
  st_id : Z;
  st_lat : Q;
  st_lon : Q;
  st_name : string;
  st_nameLocal : option string;     (* [None] is [undefined] *)
  st_type : string
}.

(** The trimmed name of a station, or [None] where the loop body
    [continue]s. *)
Definition resolveName (el : Element) : option string :=
  let name := jsOr (jsOr (tag el t_name_en) (tag el t_name)) (tag el t_ref) in
  if truthyStr name then option_map trim name else None.

Definition stationOf (el : Element) (lat lon : Q) (name : string) : Station :=
  {| st_id := el_id el;
     st_lat := round5 lat;
     st_lon := round5 lon;
     st_name := name;
     st_nameLocal :=
       match tag el t_name with
       | Some n =>
           if truthyStr (Some n) && negb (String.eqb n name) then Some n
           else None
       | None => None
       end;
     st_type := jsOrDefault (tag el t_railway) "station" |}.

(** The first half of the body of [for (const el of data.elements)]:
    the coordinates and the name of the element, or [None] where the
    body [continue]s. *)
Definition candidate (el : Element) : option (Q * Q * string) :=
  if falsyNum (resolvedLat el) || falsyNum (resolvedLon el) then None
  else
    match resolvedLat el, resolvedLon el with
    | Some lat, Some lon =>
        option_map (fun name => (lat, lon, name)) (resolveName el)
    | _, _ => None
    end.

(** The whole body: the second half keys the candidate and stores it. *)
Definition stationStep (stationMap : JsMap Station) (el : Element)
  : JsMap Station :=
  match candidate el with
  | None => stationMap
  | Some (lat, lon, name) =>
      let mapKey := coordKey lat lon in
      if negb (mapHas mapKey stationMap)
      then mapSet mapKey (stationOf el lat lon name) stationMap
      else stationMap
  end.

Definition stationsOf (els : list Element) : JsMap Station :=
  fold_left stationStep els [].

Section Stations.

(** The collation of the host. *)
Variable localeCompare : string -> string -> comparison.

Definition sortStations (stations : list Station) : list Station :=
  sortBy (fun a b => localeCompare (st_name a) (st_name b)) stations.

(** What [extractStations] returns for the elements received. *)
Definition stationOutput (els : list Element) : list Station :=
  sortStations (mapValues (stationsOf els)).

Definition extractStations (country : Country) : IO (list Station) :=
  data <- queryOverpass (StationQuery (country_bbox country)) ;;
  match elementsOf data with
  | None => ret []
  | Some els => ret (stationOutput els)
  end.

End Stations.

End Baseline.

(** * Properties *)

Local Open Scope list_scope.
Local Open Scope Q_scope.

(** ** Numbers *)

Lemma Qltb_lt (x y : Q) : Qltb x y = true <-> x < y.
Proof.
  unfold Qltb. rewrite negb_true_iff, <- not_true_iff_false, Qle_bool_iff.
  split; intro H; [now apply Qnot_le_lt | now apply Qlt_not_le].
Qed.

Lemma Qltb_ge (x y : Q) : Qltb x y = false <-> y <= x.
Proof.
  unfold Qltb. rewrite negb_false_iff. apply Qle_bool_iff.
Qed.

Lemma Math_min_cases (x y : Q) :
  (x <= y /\ Math_min x y == x) \/ (y <= x /\ Math_min x y == y).
Proof.
  unfold Math_min. destruct (Q.min_spec x y) as [[H E] | [H E]].
  - left. split; [now apply Qlt_le_weak | exact E].
  - right. split; [exact H | exact E].
Qed.

(** Finitely many steps of a positive size pass any bound. *)
Lemma steps_reach (q step : Q) :
  0 < step -> exists k : nat, q <= inject_Z (Z.of_nat k) * step.
Proof.
  intros Hs. exists (Z.to_nat (Qceiling (q / step))).
  assert (Hc : q / step <= inject_Z (Z.of_nat (Z.to_nat (Qceiling (q / step))))).
  { eapply Qle_trans; [apply Qle_ceiling |].
    rewrite <- Zle_Qle. lia. }
  assert (Hq : q == q / step * step) by (field; lra).
  rewrite Hq at 1. apply Qmult_le_compat_r; [exact Hc | lra].
Qed.

Lemma inject_succ (k : nat) :
  inject_Z (Z.of_nat (S k)) == inject_Z (Z.of_nat k) + 1.
Proof.
  rewrite Nat2Z.inj_succ. unfold Z.succ. rewrite inject_Z_plus. reflexivity.
Qed.

(** ** Binary64 rounding *)

Lemma roundEven_near (y : Q) : Qabs (inject_Z (roundEven y) - y) <= 1 # 2.
Proof.
  unfold roundEven.
  pose proof (Qfloor_le y) as Hlo. pose proof (Qlt_floor y) as Hhi.
  rewrite inject_Z_plus in Hhi. change (inject_Z 1) with 1 in Hhi.
  apply Qabs_Qle_condition.
  destruct (Qcompare_spec (y - inject_Z (Qfloor y)) (1 # 2)) as [E | L | G].
  - destruct (Z.even (Qfloor y));
      [| rewrite inject_Z_plus; change (inject_Z 1) with 1]; split; lra.
  - split; lra.
  - rewrite inject_Z_plus. change (inject_Z 1) with 1. split; lra.
Qed.

Lemma pow2_pos (k : Z) : 0 < 2 ^ k.
Proof. apply Qpower_0_lt. reflexivity. Qed.

Lemma pow2_pred (k : Z) : 2 ^ (k - 1) == 2 ^ k / 2.
Proof. rewrite Qpower_minus by discriminate. reflexivity. Qed.

(** A positive integer lies between the powers of two around its
    binary logarithm. *)
Lemma log2_bounds (p : positive) :
  2 ^ Z.log2 (Zpos p) <= inject_Z (Zpos p) /\
  inject_Z (Zpos p) < 2 ^ (Z.log2 (Zpos p) + 1).
Proof.
  destruct (Z.log2_spec (Zpos p) ltac:(lia)) as [Hlo Hhi].
  pose proof (Z.log2_nonneg (Zpos p)) as Hnn.
  split.
  - change 2 with (inject_Z 2). rewrite <- Zpower_Qpower by exact Hnn.
    now rewrite <- Zle_Qle.
  - change 2 with (inject_Z 2). rewrite <- Zpower_Qpower by lia.
    rewrite <- Zlt_Qlt. unfold Z.succ in Hhi. exact Hhi.
Qed.

Lemma mag_spec (a : Q) : 0 < a -> 2 ^ (mag a - 1) <= a /\ a < 2 ^ mag a.
Proof.
  intros Ha. unfold mag.
  destruct a as [n d]. cbn [Qnum Qden].
  assert (Hn : (0 < n)%Z).
  { unfold Qlt in Ha. cbn in Ha. lia. }
  destruct n as [| p |]; try lia.
  set (e0 := (Z.log2 (Zpos p) - Z.log2 (Zpos d))%Z).
  destruct (log2_bounds p) as [Hp1 Hp2]. destruct (log2_bounds d) as [Hd1 Hd2].
  assert (Ea : Zpos p # d == inject_Z (Zpos p) / inject_Z (Zpos d)).
  { rewrite Qmake_Qdiv. reflexivity. }
  assert (Hdpos : 0 < inject_Z (Zpos d)) by (rewrite <- (Zlt_Qlt 0); lia).
  assert (Hlow : 2 ^ (e0 - 1) < Zpos p # d).
  { rewrite Ea. apply Qlt_shift_div_l; [exact Hdpos |].
    eapply Qlt_le_trans; [| exact Hp1].
    eapply Qlt_le_trans;
      [apply Qmult_lt_l; [apply pow2_pos | exact Hd2] |].
    rewrite <- Qpower_plus by discriminate.
    replace (e0 - 1 + (Z.log2 (Zpos d) + 1))%Z with (Z.log2 (Zpos p))
      by (unfold e0; lia).
    apply Qle_refl. }
  assert (Hup : Zpos p # d < 2 ^ (e0 + 1)).
  { rewrite Ea. apply Qlt_shift_div_r; [exact Hdpos |].
    eapply Qlt_le_trans; [exact Hp2 |].
    eapply Qle_trans;
      [| apply Qmult_le_l; [apply pow2_pos | exact Hd1]].
    rewrite <- Qpower_plus by discriminate.
    replace (e0 + 1 + Z.log2 (Zpos d))%Z with (Z.log2 (Zpos p) + 1)%Z
      by (unfold e0; lia).
    apply Qle_refl. }
  destruct (Qle_bool (2 ^ e0) (Zpos p # d)) eqn:Ht.
  - apply Qle_bool_iff in Ht.
    replace (e0 + 1 - 1)%Z with e0 by lia. split; [exact Ht | exact Hup].
  - split; [now apply Qlt_le_weak |].
    apply Qnot_le_lt. intros H. apply Qle_bool_iff in H. congruence.
Qed.

Lemma fl_nonzero (x : Q) :
  ~ x == 0 ->
  fl x == inject_Z (roundEven (x / 2 ^ lastPlace x)) * 2 ^ lastPlace x.
Proof.
  intros Hx. unfold fl.
  destruct (Qeq_bool x 0) eqn:E; [apply Qeq_bool_iff in E; contradiction |].
  apply Qred_correct.
Qed.

Lemma fl_zero (x : Q) : x == 0 -> fl x = 0.
Proof. intros Hx. unfold fl. apply Qeq_bool_iff in Hx. now rewrite Hx. Qed.

(** Half a unit in the last place. *)
Lemma fl_half_ulp (x : Q) :
  ~ x == 0 -> Qabs (fl x - x) <= 2 ^ (lastPlace x - 1).
Proof.
  intros Hx. rewrite (fl_nonzero x Hx).
  set (k := lastPlace x). pose proof (pow2_pos k) as Hk.
  assert (E : inject_Z (roundEven (x / 2 ^ k)) * 2 ^ k - x ==
              (inject_Z (roundEven (x / 2 ^ k)) - x / 2 ^ k) * 2 ^ k)
    by (field; lra).
  rewrite E, Qabs_Qmult, (Qabs_pos (2 ^ k)) by lra.
  rewrite pow2_pred.
  pose proof (roundEven_near (x / 2 ^ k)) as Hr.
  assert (H : Qabs (inject_Z (roundEven (x / 2 ^ k)) - x / 2 ^ k) * 2 ^ k
              <= (1 # 2) * 2 ^ k)
    by (apply Qmult_le_compat_r; [exact Hr | lra]).
  eapply Qle_trans; [exact H |]. apply Qle_lteq. right. field.
Qed.

(** The relative error of a normal result, and the absolute error of a
    result below the normal range. *)
Definition eps : Q := 2 ^ (-53).
Definition eta : Q := 2 ^ (-1075).

Lemma eps_pos : 0 < eps.
Proof. apply pow2_pos. Qed.

Lemma eta_pos : 0 < eta.
Proof. apply pow2_pos. Qed.

Lemma eps_value : eps == 1 # 9007199254740992.
Proof. reflexivity. Qed.

Lemma eta_small : eta <= 1 # 9007199254740992.
Proof. apply Qle_bool_iff. vm_compute. reflexivity. Qed.

Lemma Qabs_nonzero (x : Q) : ~ x == 0 -> 0 < Qabs x.
Proof.
  intros Hx. destruct (Qlt_le_dec 0 (Qabs x)) as [H | H]; [exact H |].
  exfalso. apply Hx. pose proof (Qabs_nonneg x) as Hn.
  assert (E : Qabs x == 0) by (apply Qle_antisym; assumption).
  destruct (Qlt_le_dec x 0) as [Hneg | Hpos].
  - rewrite Qabs_neg in E by lra. lra.
  - rewrite Qabs_pos in E by lra. exact E.
Qed.

Lemma Qabs_bound (x b : Q) : Qabs x <= b -> - b <= x /\ x <= b.
Proof. apply Qabs_Qle_condition. Qed.

(** A bound for the error of rounding [z] to binary64. *)
Definition roundoff (z : Q) : Q := Qabs z * eps + eta.

(** The rounding error of [fl]: half a unit in the last place, which is
    at most [2^-53] of the magnitude for a normal number and [2^-1075]
    below. *)
Lemma fl_error (x : Q) : Qabs (fl x - x) <= roundoff x.
Proof.
  unfold roundoff.
  pose proof eps_pos as He. pose proof eta_pos as Ht.
  pose proof (Qabs_nonneg x) as Hn.
  destruct (Qeq_dec x 0) as [Hx | Hx].
  - rewrite (fl_zero x Hx).
    assert (E : Qabs (0 - x) == 0) by (rewrite Hx; reflexivity).
    rewrite E.
    assert (0 <= Qabs x * eps) by (apply Qmult_le_0_compat; lra). lra.
  - eapply Qle_trans; [apply (fl_half_ulp x Hx) |].
    destruct (mag_spec (Qabs x) (Qabs_nonzero x Hx)) as [Hlo _].
    unfold lastPlace.
    destruct (Z.max_spec (mag (Qabs x) - 53) (-1074)) as [[_ E] | [_ E]];
      rewrite E.
    + change (2 ^ (-1074 - 1)) with eta.
      assert (0 <= Qabs x * eps) by (apply Qmult_le_0_compat; lra). lra.
    + replace (mag (Qabs x) - 53 - 1)%Z with ((mag (Qabs x) - 1) + -53)%Z by lia.
      rewrite Qpower_plus by discriminate. fold eps.
      assert (H : 2 ^ (mag (Qabs x) - 1) * eps <= Qabs x * eps)
        by (apply Qmult_le_compat_r; [exact Hlo | lra]).
      lra.
Qed.

(** A number of moderate magnitude, as coordinates and tile sizes
    are. *)
Definition moderate (x : Q) : Prop := Qabs x <= 2 ^ 30.

Lemma pow2_30 : 2 ^ 30 == 1073741824.
Proof. reflexivity. Qed.

Lemma pow2_m20 : 2 ^ (-20) == 1 # 1048576.
Proof. reflexivity. Qed.

Lemma between_moderate (a b x : Q) :
  moderate a -> moderate b -> a <= x -> x <= b -> moderate x.
Proof.
  unfold moderate. intros Ha Hb H1 H2.
  apply Qabs_bound in Ha, Hb. apply Qabs_Qle_condition. split; lra.
Qed.

(** ** Tile planner *)

(** The tiles and the box have the same points. *)
Definition covers (tiles : list BBox) (bbox : BBox) : Prop :=
  forall x y, in_box x y bbox <-> exists t, In t tiles /\ in_box x y t.

Section TilePlannerFacts.
Variable threshold tileSize : Q.
Variable bbox : BBox.
Hypothesis size_pos : 0 < tileSize.

Local Abbreviation lonLoop' := (lonLoop tileSize bbox).
Local Abbreviation latLoop' := (latLoop tileSize bbox).



Lemma lonLoop_more_fuel (fuel : nat) : forall lat lon tiles r,
  lonLoop' fuel lat lon tiles = Some r ->
  lonLoop' (S fuel) lat lon tiles = Some r.
Proof.
  induction fuel as [| fuel IH]; intros lat lon tiles r H; [discriminate |].
  cbn [lonLoop] in H. change (lonLoop' (S (S fuel)) lat lon tiles) with
    (if Qltb lon (east bbox) then
       lonLoop' (S fuel) lat (lon + tileSize)
         (tiles ++ [mkBBox lat lon (Math_min (lat + tileSize) (north bbox))
                      (Math_min (lon + tileSize) (east bbox))])
     else Some tiles).
  destruct (Qltb lon (east bbox)); [now apply IH | exact H].
Qed.


Lemma latLoop_more_fuel (fuel : nat) : forall lat tiles r,
  latLoop' fuel lat tiles = Some r ->
  latLoop' (S fuel) lat tiles = Some r.
Proof.
  induction fuel as [| fuel IH]; intros lat tiles r H; [discriminate |].
  cbn [latLoop] in H. change (latLoop' (S (S fuel)) lat tiles) with
    (if Qltb lat (north bbox) then
       match lonLoop' (S (S fuel)) lat (west bbox) tiles with
       | None => None
       | Some tiles' => latLoop' (S fuel) (lat + tileSize) tiles'
       end
     else Some tiles).
  destruct (Qltb lat (north bbox)); [| exact H].
  destruct (lonLoop' (S fuel) lat (west bbox) tiles) as [row |] eqn:Hrow;
    [| discriminate].
  rewrite (lonLoop_more_fuel _ _ _ _ _ Hrow). now apply IH.
Qed.

Lemma latLoop_fuel_le (fuel fuel' : nat) lat tiles r :
  (fuel <= fuel')%nat ->
  latLoop' fuel lat tiles = Some r ->
  latLoop' fuel' lat tiles = Some r.
Proof.
  induction 1 as [| m _ IH]; [trivial |].
  intros H. apply latLoop_more_fuel, IH, H.
Qed.






(** At or below the threshold in both axes the box is returned as it
    is, before any loop is entered. *)
Lemma getTilesWith_single (fuel : nat) :
  latSpan bbox <= threshold -> lonSpan bbox <= threshold ->
  getTilesWith threshold tileSize bbox fuel = Some [bbox].
Proof.
  intros H1 H2. unfold getTilesWith.
  apply Qle_bool_iff in H1, H2. now rewrite H1, H2.
Qed.

End TilePlannerFacts.

Lemma getTilesWith_fuel_le threshold tileSize bbox (fuel fuel' : nat) tiles :
  (fuel <= fuel')%nat ->
  getTilesWith threshold tileSize bbox fuel = Some tiles ->
  getTilesWith threshold tileSize bbox fuel' = Some tiles.
Proof.
  unfold getTilesWith. intros Hle.
  destruct (Qle_bool (latSpan bbox) threshold && Qle_bool (lonSpan bbox) threshold);
    [trivial | now apply latLoop_fuel_le].
Qed.

(** ** Tile planner in binary64

    The planner as the program runs it: every sum is rounded.  The
    bounds hold for boxes and tile sizes of moderate magnitude, which
    leaves out overflow and steps too small to move a loop variable. *)

(** A tile lies within the box. *)
Definition inside (bbox t : BBox) : Prop :=
  south bbox <= south t /\ north t <= north bbox /\
  west bbox <= west t /\ east t <= east bbox.

(** One step of a loop: the loop variable moves on by half the tile
    size at least, and the sum is off by the rounding error at most. *)
Lemma step_bounds (tileSize x : Q) :
  2 ^ (-20) <= tileSize -> tileSize <= 2 ^ 30 -> moderate x ->
  x + (1 # 2) * tileSize <= fl (x + tileSize) /\
  Qabs (fl (x + tileSize) - (x + tileSize)) <= roundoff (x + tileSize) /\
  roundoff (x + tileSize) <= (1 # 2) * tileSize.
Proof.
  unfold moderate. rewrite pow2_30, pow2_m20. intros Hlo Hhi Hx.
  pose proof (fl_error (x + tileSize)) as Herr.
  assert (Hsmall : roundoff (x + tileSize) <= (1 # 2) * tileSize).
  { unfold roundoff. pose proof (Qabs_triangle x tileSize) as Htri.
    rewrite (Qabs_pos tileSize) in Htri by lra.
    pose proof eta_small as Heta. pose proof eta_pos as Hep.
    rewrite eps_value. lra. }
  split; [| split; [exact Herr | exact Hsmall]].
  apply Qabs_bound in Herr. lra.
Qed.

(** A tile spans the tile size in an axis up to the rounding error of
    the addition that gave its north (east) edge, or less where it ends
    on the north (east) edge of the box. *)
Definition tile_fits (tileSize : Q) (bbox t : BBox) : Prop :=
  north t - south t <= tileSize + roundoff (south t + tileSize) /\
  (tileSize - roundoff (south t + tileSize) <= north t - south t \/
   north t == north bbox) /\
  east t - west t <= tileSize + roundoff (west t + tileSize) /\
  (tileSize - roundoff (west t + tileSize) <= east t - west t \/
   east t == east bbox).

Section Binary64Facts.
Variable threshold tileSize : Q.
Variable bbox : BBox.
Hypothesis size_lo : 2 ^ (-20) <= tileSize.
Hypothesis size_hi : tileSize <= 2 ^ 30.
Hypothesis south_moderate : moderate (south bbox).
Hypothesis west_moderate : moderate (west bbox).
Hypothesis north_moderate : moderate (north bbox).
Hypothesis east_moderate : moderate (east bbox).

Local Abbreviation lonLoop' := (Binary64.lonLoop tileSize bbox).
Local Abbreviation latLoop' := (Binary64.latLoop tileSize bbox).

Lemma size_pos64 : 0 < tileSize.
Proof. pose proof (pow2_pos (-20)). lra. Qed.

(** What the loops push: a cell of the grid, clipped. *)
Definition grid_tile64 (t : BBox) : Prop :=
  south bbox <= south t /\ south t < north bbox /\
  north t = Math_min (fl (south t + tileSize)) (north bbox) /\
  west bbox <= west t /\ west t < east bbox /\
  east t = Math_min (fl (west t + tileSize)) (east bbox).

Lemma lat_step (lat : Q) :
  south bbox <= lat -> lat < north bbox ->
  lat + (1 # 2) * tileSize <= fl (lat + tileSize) /\
  Qabs (fl (lat + tileSize) - (lat + tileSize)) <= roundoff (lat + tileSize).
Proof.
  intros H1 H2.
  destruct (step_bounds tileSize lat size_lo size_hi) as (Ha & Hb & _); auto.
  apply (between_moderate (south bbox) (north bbox)); auto. lra.
Qed.

Lemma lon_step (lon : Q) :
  west bbox <= lon -> lon < east bbox ->
  lon + (1 # 2) * tileSize <= fl (lon + tileSize) /\
  Qabs (fl (lon + tileSize) - (lon + tileSize)) <= roundoff (lon + tileSize).
Proof.
  intros H1 H2.
  destruct (step_bounds tileSize lon size_lo size_hi) as (Ha & Hb & _); auto.
  apply (between_moderate (west bbox) (east bbox)); auto. lra.
Qed.

Lemma grid_tile64_valid (t : BBox) :
  grid_tile64 t -> valid_bbox t /\ inside bbox t.
Proof.
  pose proof size_pos64 as Hpos.
  unfold grid_tile64, valid_bbox, inside.
  intros (Hs & Hn & En & Hw & He & Ee). rewrite En, Ee.
  destruct (lat_step (south t) Hs Hn) as [Hlat _].
  destruct (lon_step (west t) Hw He) as [Hlon _].
  destruct (Math_min_cases (fl (south t + tileSize)) (north bbox)) as [[? E1] | [? E1]];
    destruct (Math_min_cases (fl (west t + tileSize)) (east bbox)) as [[? E2] | [? E2]];
    rewrite E1, E2; repeat split; lra.
Qed.

Lemma grid_tile64_fits (t : BBox) : grid_tile64 t -> tile_fits tileSize bbox t.
Proof.
  pose proof size_pos64 as Hpos.
  unfold grid_tile64, tile_fits.
  intros (Hs & Hn & En & Hw & He & Ee). rewrite En, Ee.
  destruct (lat_step (south t) Hs Hn) as [_ Hlat].
  destruct (lon_step (west t) Hw He) as [_ Hlon].
  apply Qabs_bound in Hlat, Hlon.
  destruct (Math_min_cases (fl (south t + tileSize)) (north bbox)) as [[? E1] | [? E1]];
    destruct (Math_min_cases (fl (west t + tileSize)) (east bbox)) as [[? E2] | [? E2]];
    rewrite E1, E2; repeat split; try lra;
    first [ left; lra | right; reflexivity ].
Qed.

Lemma lonLoop64_more_fuel (fuel : nat) : forall lat lon tiles r,
  lonLoop' fuel lat lon tiles = Some r ->
  lonLoop' (S fuel) lat lon tiles = Some r.
Proof.
  induction fuel as [| fuel IH]; intros lat lon tiles r H; [discriminate |].
  cbn [Binary64.lonLoop] in H.
  change (lonLoop' (S (S fuel)) lat lon tiles) with
    (if Qltb lon (east bbox) then
       lonLoop' (S fuel) lat (fl (lon + tileSize))
         (tiles ++ [mkBBox lat lon
                      (Math_min (fl (lat + tileSize)) (north bbox))
                      (Math_min (fl (lon + tileSize)) (east bbox))])
     else Some tiles).
  destruct (Qltb lon (east bbox)); [now apply IH | exact H].
Qed.

Lemma lonLoop64_fuel_le (fuel fuel' : nat) lat lon tiles r :
  (fuel <= fuel')%nat ->
  lonLoop' fuel lat lon tiles = Some r ->
  lonLoop' fuel' lat lon tiles = Some r.
Proof.
  induction 1 as [| m _ IH]; [trivial |].
  intros H. apply lonLoop64_more_fuel, IH, H.
Qed.

Lemma latLoop64_more_fuel (fuel : nat) : forall lat tiles r,
  latLoop' fuel lat tiles = Some r ->
  latLoop' (S fuel) lat tiles = Some r.
Proof.
  induction fuel as [| fuel IH]; intros lat tiles r H; [discriminate |].
  cbn [Binary64.latLoop] in H.
  change (latLoop' (S (S fuel)) lat tiles) with
    (if Qltb lat (north bbox) then
       match lonLoop' (S (S fuel)) lat (west bbox) tiles with
       | None => None
       | Some tiles' => latLoop' (S fuel) (fl (lat + tileSize)) tiles'
       end
     else Some tiles).
  destruct (Qltb lat (north bbox)); [| exact H].
  destruct (lonLoop' (S fuel) lat (west bbox) tiles) as [row |] eqn:Hrow;
    [| discriminate].
  rewrite (lonLoop64_more_fuel _ _ _ _ _ Hrow). now apply IH.
Qed.

Lemma latLoop64_fuel_le (fuel fuel' : nat) lat tiles r :
  (fuel <= fuel')%nat ->
  latLoop' fuel lat tiles = Some r ->
  latLoop' fuel' lat tiles = Some r.
Proof.
  induction 1 as [| m _ IH]; [trivial |].
  intros H. apply latLoop64_more_fuel, IH, H.
Qed.

(** The inner loop returns once the steps left, of half a tile size
    each, reach the east edge. *)
Lemma lonLoop64_returns (k : nat) : forall lat lon tiles,
  west bbox <= lon ->
  east bbox - lon <= inject_Z (Z.of_nat k) * ((1 # 2) * tileSize) ->
  exists r, lonLoop' (S k) lat lon tiles = Some r.
Proof.
  pose proof size_pos64 as Hpos.
  induction k as [| k IH]; intros lat lon tiles Hw Hk; cbn [Binary64.lonLoop].
  - destruct (Qltb lon (east bbox)) eqn:Hlt; [| eauto].
    apply Qltb_lt in Hlt. change (inject_Z (Z.of_nat 0)) with 0 in Hk. lra.
  - destruct (Qltb lon (east bbox)) eqn:Hlt; [| eauto].
    apply Qltb_lt in Hlt. destruct (lon_step lon Hw Hlt) as [Hstep _].
    apply IH; [lra |]. rewrite inject_succ in Hk. lra.
Qed.

(** What the inner loop appends: grid tiles of the row at [lat] that
    reach from [lon] to the east edge. *)
Lemma lonLoop64_row (fuel : nat) : forall lat lon tiles r,
  south bbox <= lat -> lat < north bbox -> west bbox <= lon ->
  lonLoop' fuel lat lon tiles = Some r ->
  exists row, r = tiles ++ row /\ Forall grid_tile64 row /\
    forall y, lon <= y -> y <= east bbox -> lon < east bbox ->
      exists t, In t row /\ south t = lat /\ west t <= y /\ y <= east t.
Proof.
  pose proof size_pos64 as Hpos.
  induction fuel as [| fuel IH]; intros lat lon tiles r Hs Hn Hw H;
    [discriminate |].
  cbn [Binary64.lonLoop] in H. destruct (Qltb lon (east bbox)) eqn:Hlt.
  - apply Qltb_lt in Hlt. destruct (lon_step lon Hw Hlt) as [Hstep _].
    apply IH in H; [| lra ..].
    destruct H as (row & -> & Hgrid & Hcov).
    set (t0 := mkBBox lat lon (Math_min (fl (lat + tileSize)) (north bbox))
                 (Math_min (fl (lon + tileSize)) (east bbox))).
    exists (t0 :: row). split; [now rewrite <- app_assoc |]. split.
    + constructor; [| exact Hgrid]. unfold grid_tile64; cbn.
      repeat split; lra || reflexivity.
    + intros y Hy1 Hy2 _.
      destruct (Qlt_le_dec (Math_min (fl (lon + tileSize)) (east bbox)) y)
        as [Hgt | Hle].
      * destruct (Math_min_cases (fl (lon + tileSize)) (east bbox))
          as [[? E] | [? E]]; rewrite E in Hgt; [| lra].
        destruct (Hcov y) as (t & Hin & Ht); [lra .. |].
        exists t. split; [now right | exact Ht].
      * exists t0. split; [now left |]. cbn. repeat split; [lra | exact Hle].
  - injection H as <-. exists []. split; [now rewrite app_nil_r |].
    split; [constructor |]. intros y _ _ Hlon. apply Qltb_ge in Hlt. lra.
Qed.

(** What the outer loop appends: grid tiles that reach from [lat] to the
    north edge, across the whole width. *)
Lemma latLoop64_rows (fuel : nat) : forall lat tiles r,
  south bbox <= lat ->
  latLoop' fuel lat tiles = Some r ->
  exists rows, r = tiles ++ rows /\ Forall grid_tile64 rows /\
    forall x y, lat <= x -> x <= north bbox -> lat < north bbox ->
      west bbox <= y -> y <= east bbox -> west bbox < east bbox ->
      exists t, In t rows /\ in_box x y t.
Proof.
  pose proof size_pos64 as Hpos.
  induction fuel as [| fuel IH]; intros lat tiles r Hs H; [discriminate |].
  cbn [Binary64.latLoop] in H. destruct (Qltb lat (north bbox)) eqn:Hlt.
  - apply Qltb_lt in Hlt. destruct (lat_step lat Hs Hlt) as [Hstep _].
    destruct (lonLoop' (S fuel) lat (west bbox) tiles) as [tiles' |] eqn:Hrow;
      [| discriminate].
    apply lonLoop64_row in Hrow; [| lra ..].
    destruct Hrow as (row & -> & Hgrid & Hcov).
    apply IH in H; [| lra].
    destruct H as (rows & -> & Hgrid' & Hcov').
    exists (row ++ rows). split; [now rewrite <- app_assoc |].
    split; [now apply Forall_app |].
    intros x y Hx1 Hx2 _ Hy1 Hy2 Hwe.
    destruct (Qlt_le_dec (Math_min (fl (lat + tileSize)) (north bbox)) x)
      as [Hgt | Hle].
    + destruct (Math_min_cases (fl (lat + tileSize)) (north bbox))
        as [[? E] | [? E]]; rewrite E in Hgt; [| lra].
      destruct (Hcov' x y) as (t & Hin & Ht); [lra .. |].
      exists t. split; [apply in_or_app; now right | exact Ht].
    + destruct (Hcov y) as (t & Hin & Hsouth & Hw1 & Hw2); [lra .. |].
      exists t. split; [apply in_or_app; now left |].
      rewrite List.Forall_forall in Hgrid.
      destruct (Hgrid t Hin) as (_ & _ & Hn & _).
      unfold in_box. rewrite Hn, Hsouth. repeat split; lra.
  - injection H as <-. exists []. split; [now rewrite app_nil_r |].
    split; [constructor |]. intros x y _ _ Hn. apply Qltb_ge in Hlt. lra.
Qed.

(** The outer loop returns once the fuel pays for its own steps and for
    the steps of one row. *)
Lemma latLoop64_returns (kLon k : nat) : forall lat tiles fuel,
  south bbox <= lat ->
  east bbox - west bbox <= inject_Z (Z.of_nat kLon) * ((1 # 2) * tileSize) ->
  north bbox - lat <= inject_Z (Z.of_nat k) * ((1 # 2) * tileSize) ->
  (k + kLon + 1 <= fuel)%nat ->
  exists r, latLoop' fuel lat tiles = Some r.
Proof.
  pose proof size_pos64 as Hpos.
  induction k as [| k IH]; intros lat tiles fuel Hs Hlon Hk Hfuel;
    (destruct fuel as [| fuel]; [lia |]); cbn [Binary64.latLoop];
    (destruct (Qltb lat (north bbox)) eqn:Hlt; [| eauto]);
    apply Qltb_lt in Hlt.
  - change (inject_Z (Z.of_nat 0)) with 0 in Hk. lra.
  - destruct (lat_step lat Hs Hlt) as [Hstep _].
    destruct (lonLoop64_returns kLon lat (west bbox) tiles (Qle_refl _) Hlon)
      as [row Hrow].
    rewrite (lonLoop64_fuel_le (S kLon) (S fuel) _ _ _ _ ltac:(lia) Hrow).
    apply IH; [lra | exact Hlon | rewrite inject_succ in Hk; lra | lia].
Qed.

(** Whether the planner enters its loops. *)
Definition tiling : Prop :=
  threshold < fl (north bbox - south bbox) \/
  threshold < fl (east bbox - west bbox).

(** With enough fuel the planner returns; its tiles are one at least,
    each a well-formed box within the input box, they have the points of
    the box together, and when the loops were entered each fits the tile
    size. *)
Lemma getTilesWith64_tiled :
  valid_bbox bbox ->
  exists (fuel : nat) (tiles : list BBox),
    (forall fuel', (fuel <= fuel')%nat ->
       Binary64.getTilesWith threshold tileSize bbox fuel' = Some tiles) /\
    covers tiles bbox /\ tiles <> [] /\
    Forall (fun t => valid_bbox t /\ inside bbox t) tiles /\
    (tiling -> Forall (tile_fits tileSize bbox) tiles).
Proof.
  pose proof size_pos64 as Hpos.
  intros [Hsn Hwe]. unfold Binary64.getTilesWith, tiling.
  destruct (Qle_bool (fl (north bbox - south bbox)) threshold
            && Qle_bool (fl (east bbox - west bbox)) threshold) eqn:Htest.
  - exists 0%nat, [bbox]. split; [reflexivity |]. split; [| split; [| split]].
    + intros x y. split.
      * intros H. exists bbox. split; [now left | exact H].
      * intros (t & [<- | []] & H). exact H.
    + discriminate.
    + constructor; [| constructor]. unfold valid_bbox, inside.
      repeat split; lra.
    + apply andb_true_iff in Htest as [H1 H2].
      apply Qle_bool_iff in H1, H2. intros [H | H]; lra.
  - assert (Hhalf : 0 < (1 # 2) * tileSize) by lra.
    destruct (steps_reach (east bbox - west bbox) ((1 # 2) * tileSize) Hhalf)
      as [kLon HkLon].
    destruct (steps_reach (north bbox - south bbox) ((1 # 2) * tileSize) Hhalf)
      as [k Hk].
    destruct (latLoop64_returns kLon k (south bbox) [] (k + kLon + 1)
                (Qle_refl _) HkLon Hk ltac:(lia)) as [tiles Htiles].
    exists (k + kLon + 1)%nat, tiles.
    split; [intros fuel' Hle; eapply latLoop64_fuel_le; eauto |].
    apply latLoop64_rows in Htiles; [| lra].
    destruct Htiles as (rows & -> & Hgrid & Hcov). cbn [app].
    assert (Hin : forall t, In t rows -> valid_bbox t /\ inside bbox t).
    { intros t Ht. rewrite List.Forall_forall in Hgrid.
      apply grid_tile64_valid. auto. }
    split; [| split; [| split]].
    + intros x y. split.
      * intros (H1 & H2 & H3 & H4). apply Hcov; lra.
      * intros (t & Ht & H1 & H2 & H3 & H4).
        destruct (Hin t Ht) as [_ (I1 & I2 & I3 & I4)].
        unfold in_box. repeat split; lra.
    + destruct (Hcov (south bbox) (west bbox)) as (t & Ht & _); try lra.
      intros ->. destruct Ht.
    + apply List.Forall_forall. exact Hin.
    + intros _. eapply List.Forall_impl; [| exact Hgrid]. apply grid_tile64_fits.
Qed.

End Binary64Facts.

Lemma getTilesWith64_fuel_le threshold tileSize bbox (fuel fuel' : nat) tiles :
  (fuel <= fuel')%nat ->
  Binary64.getTilesWith threshold tileSize bbox fuel = Some tiles ->
  Binary64.getTilesWith threshold tileSize bbox fuel' = Some tiles.
Proof.
  unfold Binary64.getTilesWith. intros Hle.
  destruct (Qle_bool (fl (north bbox - south bbox)) threshold
            && Qle_bool (fl (east bbox - west bbox)) threshold);
    [trivial | now apply latLoop64_fuel_le].
Qed.

(** A planner returns, with enough fuel, tiles that cover the box and
    fit the tile size. *)
Definition tiled_by (plan : nat -> option (list BBox)) (bbox : BBox)
  (tileSize : Q) : Prop :=
  exists (fuel : nat) (tiles : list BBox),
    (forall fuel', (fuel <= fuel')%nat -> plan fuel' = Some tiles) /\
    covers tiles bbox /\
    Forall (tile_fits tileSize bbox) tiles.

(** The box of Uzbekistan and the box of Turkey, as the program reads
    them from its table. *)
Definition uzbekistanBox : BBox :=
  Binary64.literalBox (3718 # 100) (5599 # 100) (4559 # 100) (7313 # 100).

Definition turkeyBox : BBox :=
  Binary64.literalBox (3581 # 100) (2566 # 100) (4211 # 100) (4482 # 100).

Lemma turkeyBox_valid : valid_bbox turkeyBox.
Proof. split; vm_compute; reflexivity. Qed.

Lemma turkeyBox_moderate :
  moderate (south turkeyBox) /\ moderate (west turkeyBox) /\
  moderate (north turkeyBox) /\ moderate (east turkeyBox).
Proof.
  unfold moderate. repeat split; apply Qle_bool_iff; vm_compute; reflexivity.
Qed.

(** C1.  For a well-formed box with a span above the tiling threshold,
    corners of magnitude 2^30 at most and a tile size between 2^-20 and
    2^30, the tile planner of either variant, run in binary64, returns
    tiles whose points are exactly the points of the box; each tile
    spans the tile size in an axis up to the rounding error of the sum
    that gave its north or east edge, or less where it ends on the north
    or east edge of the box.  The box [0,0,10,10] with tile size 6 gives
    the four tiles [0,0,6,6], [0,6,6,10], [6,0,10,6], [6,6,10,10]. *)
Theorem getTiles_covers_box (bbox : BBox) (tileSize : Q) :
  valid_bbox bbox ->
  moderate (south bbox) -> moderate (west bbox) ->
  moderate (north bbox) -> moderate (east bbox) ->
  2 ^ (-20) <= tileSize -> tileSize <= 2 ^ 30 ->
  (tileSize < fl (latSpan bbox) \/ tileSize < fl (lonSpan bbox) ->
   tiled_by (fun fuel => Baseline.getTilesBinary64 fuel bbox tileSize)
     bbox tileSize) /\
  (Extended.TILE_THRESHOLD_DEG < fl (latSpan bbox) \/
   Extended.TILE_THRESHOLD_DEG < fl (lonSpan bbox) ->
   tiled_by (fun fuel => Extended.getTilesBinary64 fuel bbox) bbox
     Extended.TILE_SIZE_DEG) /\
  (forall fuel, (4 <= fuel)%nat ->
   Baseline.getTilesBinary64 fuel (mkBBox 0 0 10 10) 6 =
   Some [mkBBox 0 0 6 6; mkBBox 0 6 6 10; mkBBox 6 0 10 6; mkBBox 6 6 10 10]).
Proof.
  intros Hbox Hs Hw Hn He Hlo Hhi. split; [| split].
  - intros Hspan. unfold tiled_by, Baseline.getTilesBinary64.
    destruct (getTilesWith64_tiled tileSize tileSize bbox Hlo Hhi Hs Hw Hn He Hbox)
      as (fuel & tiles & H & Hcov & _ & _ & Hfit).
    exists fuel, tiles. auto.
  - intros Hspan. unfold tiled_by, Extended.getTilesBinary64.
    assert (Hlo' : 2 ^ (-20) <= Extended.TILE_SIZE_DEG)
      by (apply Qle_bool_iff; reflexivity).
    assert (Hhi' : Extended.TILE_SIZE_DEG <= 2 ^ 30)
      by (apply Qle_bool_iff; reflexivity).
    destruct (getTilesWith64_tiled Extended.TILE_THRESHOLD_DEG
                Extended.TILE_SIZE_DEG bbox Hlo' Hhi' Hs Hw Hn He Hbox)
      as (fuel & tiles & H & Hcov & _ & _ & Hfit).
    exists fuel, tiles. auto.
  - intros fuel Hfuel. unfold Baseline.getTilesBinary64.
    apply (getTilesWith64_fuel_le _ _ _ 4 fuel); [exact Hfuel |].
    vm_compute. reflexivity.
Qed.

Lemma getTiles_covers_box_witness :
  tiled_by (fun fuel => Baseline.getTilesBinary64 fuel turkeyBox 8)
    turkeyBox 8 /\
  tiled_by (fun fuel => Extended.getTilesBinary64 fuel turkeyBox) turkeyBox
    Extended.TILE_SIZE_DEG.
Proof.
  destruct turkeyBox_moderate as (Hs & Hw & Hn & He).
  destruct (getTiles_covers_box turkeyBox 8 turkeyBox_valid Hs Hw Hn He)
    as (Hb & Hx & _).
  - apply Qle_bool_iff. reflexivity.
  - apply Qle_bool_iff. reflexivity.
  - split; [apply Hb | apply Hx]; right; vm_compute; reflexivity.
Defined.

(** In binary64 the first tile of Uzbekistan in [src/extract.js] is
    wider than the tile size, and it does not end on the east edge of
    the box: 55.99 + 10 is rounded up to 65.99000000000001. *)
Lemma getTiles_tile_wider_than_size :
  valid_bbox uzbekistanBox /\
  Extended.TILE_THRESHOLD_DEG < fl (lonSpan uzbekistanBox) /\
  exists tiles : list BBox,
    Extended.getTilesBinary64 3 uzbekistanBox = Some tiles /\
    Exists (fun t => Extended.TILE_SIZE_DEG < east t - west t /\
                     east t < east uzbekistanBox) tiles.
Proof.
  split; [split; vm_compute; reflexivity |].
  split; [vm_compute; reflexivity |].
  eexists. split; [vm_compute; reflexivity |].
  apply Exists_cons_hd. split; vm_compute; reflexivity.
Qed.

(** X1.  In binary64, for a well-formed box with corners of magnitude
    2^30 at most and a tile size between 2^-20 and 2^30, the planner
    returns whatever the threshold: with enough fuel it gives tiles, one
    at least, and each is a well-formed box within the input box. *)
Theorem getTiles_tiles_well_formed (threshold tileSize : Q) (bbox : BBox) :
  valid_bbox bbox ->
  moderate (south bbox) -> moderate (west bbox) ->
  moderate (north bbox) -> moderate (east bbox) ->
  2 ^ (-20) <= tileSize -> tileSize <= 2 ^ 30 ->
  exists (fuel : nat) (tiles : list BBox),
    (forall fuel', (fuel <= fuel')%nat ->
       Binary64.getTilesWith threshold tileSize bbox fuel' = Some tiles) /\
    tiles <> [] /\
    Forall (fun t => valid_bbox t /\ inside bbox t) tiles.
Proof.
  intros Hbox Hs Hw Hn He Hlo Hhi.
  destruct (getTilesWith64_tiled threshold tileSize bbox Hlo Hhi Hs Hw Hn He Hbox)
    as (fuel & tiles & H & _ & Hne & Hin & _).
  exists fuel, tiles. auto.
Qed.

Lemma getTiles_tiles_well_formed_witness :
  exists (fuel : nat) (tiles : list BBox),
    (forall fuel', (fuel <= fuel')%nat ->
       Binary64.getTilesWith 8 8 turkeyBox fuel' = Some tiles) /\
    tiles <> [] /\
    Forall (fun t => valid_bbox t /\ inside turkeyBox t) tiles.
Proof.
  destruct turkeyBox_moderate as (Hs & Hw & Hn & He).
  apply (getTiles_tiles_well_formed 8 8 turkeyBox turkeyBox_valid Hs Hw Hn He).
  - apply Qle_bool_iff. reflexivity.
  - apply Qle_bool_iff. reflexivity.
Defined.

(** C6.  A box whose latitude and longitude spans are both at most the
    tile size comes back as the single tile equal to the box, whatever
    the fuel; the box [0,0,10,10] with tile size 20 gives [[0,0,10,10]]. *)
Theorem getTiles_small_box (bbox : BBox) (tileSize : Q) (fuel : nat) :
  latSpan bbox <= tileSize -> lonSpan bbox <= tileSize ->
  Baseline.getTiles fuel bbox tileSize = Some [bbox] /\
  (tileSize == Extended.TILE_SIZE_DEG ->
   Extended.getTiles fuel bbox = Some [bbox]) /\
  Baseline.getTiles fuel (mkBBox 0 0 10 10) 20 = Some [mkBBox 0 0 10 10].
Proof.
  intros Hlat Hlon. split; [| split].
  - now apply getTilesWith_single.
  - intros Hsize. apply getTilesWith_single;
      unfold Extended.TILE_THRESHOLD_DEG, Extended.TILE_SIZE_DEG in *; lra.
  - apply getTilesWith_single; unfold latSpan, lonSpan; simpl; lra.
Qed.

Lemma getTiles_small_box_witness :
  Baseline.getTiles 0 (mkBBox 0 0 10 10) 10 = Some [mkBBox 0 0 10 10] /\
  Extended.getTiles 0 (mkBBox 0 0 10 10) = Some [mkBBox 0 0 10 10].
Proof.
  destruct (getTiles_small_box (mkBBox 0 0 10 10) 10 0) as (Hb & He & _).
  - unfold latSpan; simpl; lra.
  - unfold lonSpan; simpl; lra.
  - split; [exact Hb | apply He; reflexivity].
Defined.

(** ** Railway collector: the element loop *)

(** A geometry the collector keeps. *)
Definition validGeometry (el : Element) : Prop :=
  exists geometry, el_geometry el = Some geometry /\ (2 <= length geometry)%nat.

(** A geometry the collector drops: missing, or shorter than two points. *)
Definition degenerate (el : Element) : Prop :=
  match el_geometry el with
  | None => True
  | Some geometry => (length geometry < 2)%nat
  end.

Definition segmentsWithId (id : Z) (segs : list RailwaySegment)
  : list RailwaySegment :=
  List.filter (fun s => (seg_id s =? id)%Z) segs.

Definition twoPoints (s : RailwaySegment) : Prop :=
  (2 <= length (seg_geometry s))%nat.

(** What holds of [allWays] and [seenIds] throughout a run. *)
Definition collected_ok (st : Collected) : Prop :=
  List.NoDup (map seg_id (allWays st)) /\
  (forall s, In s (allWays st) -> seg_id s ∈ seenIds st) /\
  Forall twoPoints (allWays st).

Lemma collectElement_seen (st : Collected) (el : Element) :
  el_id el ∈ seenIds st -> collectElement st el = st.
Proof.
  intros H. unfold collectElement. now destruct (decide (el_id el ∈ seenIds st)).
Qed.

Lemma collectElement_degenerate (st : Collected) (el : Element) :
  degenerate el -> allWays (collectElement st el) = allWays st.
Proof.
  unfold degenerate, collectElement. intros H.
  destruct (decide (el_id el ∈ seenIds st)); [reflexivity |].
  destruct (el_geometry el) as [g |]; [| reflexivity].
  destruct (Nat.ltb_spec (length g) 2); [reflexivity | lia].
Qed.

Lemma collectElement_new (st : Collected) (el : Element) geometry :
  el_id el ∉ seenIds st ->
  el_geometry el = Some geometry -> (2 <= length geometry)%nat ->
  collectElement st el =
  mkCollected ({[ el_id el ]} ∪ seenIds st)
    (allWays st ++ [segmentOf el geometry]).
Proof.
  intros Hnew Hg Hlen. unfold collectElement.
  destruct (decide (el_id el ∈ seenIds st)); [contradiction |].
  rewrite Hg. destruct (Nat.ltb_spec (length geometry) 2); [lia | reflexivity].
Qed.

(** One element leaves [allWays] as it is or appends its own segment,
    and adds at most its own id to [seenIds]. *)
Lemma collectElement_cases (st : Collected) (el : Element) :
  (allWays (collectElement st el) = allWays st \/
   exists geometry,
     el_geometry el = Some geometry /\ (2 <= length geometry)%nat /\
     (el_id el ∉ seenIds st) /\
     allWays (collectElement st el) = allWays st ++ [segmentOf el geometry]) /\
  seenIds st ⊆ seenIds (collectElement st el) /\
  seenIds (collectElement st el) ⊆ {[ el_id el ]} ∪ seenIds st /\
  (el_id el ∈ seenIds (collectElement st el)).
Proof.
  unfold collectElement.
  destruct (decide (el_id el ∈ seenIds st)) as [Hin | Hnew].
  - repeat split; [now left | set_solver ..].
  - destruct (el_geometry el) as [g |] eqn:Hg.
    + destruct (Nat.ltb_spec (length g) 2); cbn.
      * repeat split; [now left | set_solver ..].
      * repeat split; [right; exists g; auto | set_solver ..].
    + cbn. repeat split; [now left | set_solver ..].
Qed.

Lemma collectElement_ok (st : Collected) (el : Element) :
  collected_ok st -> collected_ok (collectElement st el).
Proof.
  intros (Hnd & Hseen & Hlen).
  destruct (collectElement_cases st el) as ([E | (g & Hg & Hg2 & Hnew & E)] & Hsub & _ & _).
  - unfold collected_ok. rewrite E. split; [exact Hnd | split; [| exact Hlen]].
    intros s Hs. apply Hsub. auto.
  - unfold collected_ok. rewrite E. split; [| split].
    + rewrite map_app. apply List.NoDup_app; [exact Hnd | | ].
      * cbn. constructor; [intros [] | constructor].
      * intros id Hin [<- | []]. cbn in Hin.
        apply in_map_iff in Hin as (s & Hid & Hs).
        apply Hnew. rewrite <- Hid. auto.
    + intros s Hs. apply in_app_or in Hs as [Hs | [<- | []]].
      * apply Hsub. auto.
      * cbn. destruct (collectElement_cases st el) as (_ & _ & _ & H). exact H.
    + apply Forall_app. split; [exact Hlen |].
      constructor; [| constructor]. unfold twoPoints. cbn.
      now rewrite length_map.
Qed.

Lemma collectElements_ok (els : list Element) : forall st,
  collected_ok st -> collected_ok (collectElements st els).
Proof.
  unfold collectElements.
  induction els as [| el els IH]; intros st H; cbn; [exact H |].
  apply IH, collectElement_ok, H.
Qed.

Lemma collected_ok_empty : collected_ok (mkCollected ∅ []).
Proof.
  repeat split; cbn; [constructor | intros s [] | constructor].
Qed.

Lemma collectElements_app (st : Collected) (els els' : list Element) :
  collectElements st (els ++ els') =
  collectElements (collectElements st els) els'.
Proof. unfold collectElements. apply fold_left_app. Qed.

(** [allWays] only grows, at its end. *)
Lemma collectElements_grows (els : list Element) : forall st,
  exists more, allWays (collectElements st els) = allWays st ++ more.
Proof.
  unfold collectElements.
  induction els as [| el els IH]; intros st; cbn.
  - exists []. now rewrite app_nil_r.
  - destruct (IH (collectElement st el)) as [more ->].
    destruct (collectElement_cases st el) as ([-> | (g & _ & _ & _ & ->)] & _).
    + eauto.
    + exists (segmentOf el g :: more). now rewrite <- app_assoc.
Qed.

(** A feature all of whose copies have a valid geometry gets its
    segment, wherever its first copy stands. *)
Lemma collectElements_keeps (el : Element) (els : list Element) : forall st,
  In el els ->
  (forall x, In x els -> el_id x = el_id el -> validGeometry x) ->
  el_id el ∉ seenIds st ->
  In (el_id el) (map seg_id (allWays (collectElements st els))).
Proof.
  induction els as [| x els IH]; intros st Hin Hvalid Hnew; [destruct Hin |].
  change (collectElements st (x :: els))
    with (collectElements (collectElement st x) els).
  destruct (Z.eq_dec (el_id x) (el_id el)) as [Heq | Hneq].
  - destruct (Hvalid x (or_introl eq_refl) Heq) as (g & Hg & Hlen).
    rewrite <- Heq in Hnew.
    destruct (collectElements_grows els (collectElement st x)) as [more ->].
    rewrite (collectElement_new st x g Hnew Hg Hlen). cbn [allWays].
    rewrite !map_app. apply in_or_app. left. apply in_or_app. right.
    cbn. now left.
  - apply IH.
    + destruct Hin as [-> | Hin]; [contradiction | exact Hin].
    + intros y Hy. apply Hvalid. now right.
    + destruct (collectElement_cases st x) as (_ & _ & Hsub & _).
      intros Hc. apply Hsub, elem_of_union in Hc as [Hc | Hc];
        [apply elem_of_singleton in Hc; congruence | contradiction].
Qed.

Lemma segmentsWithId_one (id : Z) (segs : list RailwaySegment) :
  List.NoDup (map seg_id segs) -> In id (map seg_id segs) ->
  length (segmentsWithId id segs) = 1%nat.
Proof.
  unfold segmentsWithId.
  induction segs as [| s segs IH]; cbn; intros Hnd Hin; [destruct Hin |].
  apply List.NoDup_cons_iff in Hnd as [Hs Hnd].
  destruct (Z.eqb_spec (seg_id s) id) as [Heq | Hneq].
  - cbn. f_equal. apply length_zero_iff_nil.
    destruct (List.filter _ segs) as [| s' rest] eqn:Hf; [reflexivity |].
    assert (Hs' : In s' (List.filter (fun s0 => (seg_id s0 =? id)%Z) segs))
      by (rewrite Hf; now left).
    apply filter_In in Hs' as [Hs'1 Hs'2]. apply Z.eqb_eq in Hs'2.
    exfalso. apply Hs. rewrite Heq, <- Hs'2. now apply in_map.
  - destruct Hin as [Heq | Hin]; [contradiction | now apply IH].
Qed.

(** ** Query client *)

(** The data a request outcome delivers to the caller: a successful
    status with a body that parses. *)
Definition delivered (o : Outcome) : option Data :=
  match o with
  | Responded r =>
      if ok r then match body r with inr d => Some d | inl _ => None end
      else None
  | Rejected _ => None
  end.

Definition returned (c : Ctl) : option Data :=
  match c with
  | Return d => Some d
  | _ => None
  end.

(** The world moves on: same service, no request undone, log extended. *)
Definition evolves (w w' : World) : Prop :=
  net w' = net w /\ (clock w <= clock w')%nat /\
  exists events, log w' = log w ++ events.

Lemma evolves_refl (w : World) : evolves w w.
Proof.
  repeat split; [lia |]. exists []. now rewrite app_nil_r.
Qed.

Lemma evolves_trans (w1 w2 w3 : World) :
  evolves w1 w2 -> evolves w2 w3 -> evolves w1 w3.
Proof.
  intros (Hn1 & Hc1 & ev1 & Hl1) (Hn2 & Hc2 & ev2 & Hl2).
  repeat split; [congruence | lia |].
  exists (ev1 ++ ev2). now rewrite Hl2, Hl1, <- app_assoc.
Qed.

Lemma evolves_log (w w' : World) (e : Event) :
  evolves w w' -> In e (log w) -> In e (log w').
Proof.
  intros (_ & _ & evs & ->) H. apply in_or_app. now left.
Qed.

(** A computation that does not raise and makes no request. *)
Definition quiet {A} (c : IO A) : Prop :=
  forall w, exists a w',
    c w = (inr a, w') /\ evolves w w' /\ clock w' = clock w.

Lemma quiet_ret {A} (a : A) : quiet (ret a).
Proof.
  intros w. exists a, w. repeat split; [lia |]. exists []. now rewrite app_nil_r.
Qed.

Lemma quiet_sleep (ms : Z) : quiet (sleep ms).
Proof.
  intros w. eexists tt, _. repeat split; cbn; [lia | eauto].
Qed.

(** One attempt, [try] and [catch] together: it does not raise, makes
    exactly one request, the one to [endpoint], and returns from the
    function exactly when that request delivers data. *)
Definition one_request (endpoint : string) (query : Query) (c : IO Ctl) : Prop :=
  forall w, exists ctl w',
    c w = (inr ctl, w') /\
    net w' = net w /\ clock w' = S (clock w) /\
    (exists sleeps, log w' = log w ++ EFetch endpoint query :: sleeps) /\
    returned ctl = delivered (net w (clock w)).

Lemma one_request_evolves endpoint query c w ctl w' :
  one_request endpoint query c -> c w = (inr ctl, w') -> evolves w w'.
Proof.
  intros H E. destruct (H w) as (ctl' & w'' & E' & Hn & Hc & (sl & Hl) & _).
  rewrite E in E'. injection E' as <- <-.
  repeat split; [exact Hn | lia | eauto].
Qed.

Lemma ok_range (r : Response) :
  ok r = true -> (200 <= status r <= 299)%Z.
Proof. unfold ok. lia. Qed.

(** Closes a branch of an attempt once the outcome is known. *)
Ltac attempt_done :=
  eexists _, _;
  split; [reflexivity |]; split; [reflexivity |]; split; [reflexivity |];
  split; [cbn; rewrite <- ?app_assoc; cbn; eexists; reflexivity
         | cbn; reflexivity].

Ltac not_ok r :=
  let Hok := fresh "Hok" in
  destruct (ok r) eqn:Hok; [apply ok_range in Hok; lia |].

Lemma extended_attempt endpoint query attempt :
  one_request endpoint query
    (tryCatch (Extended.attemptBody endpoint query attempt)
       (Extended.attemptCatch attempt)).
Proof.
  intros w. unfold tryCatch, Extended.attemptBody, Extended.attemptCatch,
    bind, fetch, delivered.
  destruct (net w (clock w)) as [e | r]; cbn; [attempt_done |].
  destruct (Z.eqb_spec (status r) 429) as [H429 | H429]; cbn;
    [not_ok r; attempt_done |].
  destruct (Z.eqb_spec (status r) 504) as [H504 | H504]; cbn;
    [not_ok r; attempt_done |].
  destruct (Z.eqb_spec (status r) 503) as [H503 | H503]; cbn;
    [not_ok r; attempt_done |].
  destruct (ok r) eqn:Hok; cbn; [| attempt_done].
  unfold json. destruct (body r) as [e | d]; cbn; attempt_done.
Qed.

Lemma baseline_attempt endpoint query attempt :
  one_request endpoint query
    (tryCatch (Baseline.attemptBody endpoint query attempt)
       (Baseline.attemptCatch attempt)).
Proof.
  intros w. unfold tryCatch, Baseline.attemptBody, Baseline.attemptCatch,
    bind, fetch, delivered.
  destruct (net w (clock w)) as [e | r]; cbn.
  { destruct (attempt =? 2)%nat; cbn; attempt_done. }
  destruct (Z.eqb_spec (status r) 429) as [H429 | H429]; cbn;
    [not_ok r; attempt_done |].
  destruct (Z.leb_spec 500 (status r)) as [H500 | H500]; cbn;
    [not_ok r; attempt_done |].
  destruct (ok r) eqn:Hok; cbn; [| attempt_done].
  unfold json. destruct (body r) as [e | d]; cbn; [| attempt_done].
  destruct (attempt =? 2)%nat; cbn; attempt_done.
Qed.

Section QueryClient.

(** One attempt ([try] and [catch]) of either variant. *)
Variable attemptOf : string -> Query -> nat -> IO Ctl.
Hypothesis attemptOf_spec : forall endpoint query attempt,
  one_request endpoint query (attemptOf endpoint query attempt).

Definition client (query : Query) : IO Data :=
  forEndpoints
    (fun endpoint => forAttempts (attemptOf endpoint query) MAX_RETRIES 0)
    OVERPASS_ENDPOINTS.

(** No request among the next [n] delivers data. *)
Definition unanswered (w : World) (n : nat) : Prop :=
  forall k, (k < n)%nat -> delivered (net w (clock w + k)) = None.

Lemma unanswered_next (w w' : World) (n : nat) :
  net w' = net w -> clock w' = S (clock w) ->
  unanswered w (S n) -> unanswered w' n.
Proof.
  intros Hn Hc H k Hk. rewrite Hn, Hc.
  replace (S (clock w) + k)%nat with (clock w + S k)%nat by lia.
  apply H. lia.
Qed.

Lemma unanswered_later (w w' : World) (n m : nat) :
  net w' = net w -> (clock w <= clock w')%nat ->
  (clock w' + m <= clock w + n)%nat ->
  unanswered w n -> unanswered w' m.
Proof.
  intros Hn Hc1 Hc2 H k Hk. rewrite Hn.
  replace (clock w' + k)%nat with (clock w + (clock w' - clock w + k))%nat by lia.
  apply H. lia.
Qed.

(** No request made between two worlds delivered data. *)
Definition silent (w w' : World) : Prop :=
  forall k, (clock w <= k < clock w')%nat -> delivered (net w k) = None.

Lemma silent_later (w w1 w2 : World) :
  evolves w w1 -> silent w w2 -> silent w1 w2.
Proof.
  intros (Hn & Hc & _) H k Hk. rewrite Hn. apply H. lia.
Qed.

Lemma forAttempts_spec endpoint query (remaining : nat) : forall attempt w,
  exists r w',
    forAttempts (attemptOf endpoint query) remaining attempt w = (inr r, w') /\
    evolves w w' /\ (clock w' <= clock w + remaining)%nat /\
    ((0 < remaining)%nat ->
     exists events, log w' = log w ++ EFetch endpoint query :: events) /\
    (unanswered w remaining -> r = None) /\
    (silent w w' -> r = None) /\
    (forall d, (0 < remaining)%nat ->
       delivered (net w (clock w)) = Some d ->
       r = Some d /\ clock w' = S (clock w)).
Proof.
  induction remaining as [| remaining IH]; intros attempt w; cbn [forAttempts].
  - exists None, w. repeat split; try lia; try apply evolves_refl; intros; lia.
  - unfold bind.
    destruct (attemptOf_spec endpoint query attempt w)
      as (ctl & w1 & E & Hn & Hc & (sl & Hl) & Hret).
    rewrite E.
    assert (Hev : evolves w w1) by (repeat split; [exact Hn | lia | eauto]).
    destruct ctl as [| | d0].
    + destruct (IH (S attempt) w1)
        as (r & w2 & E2 & Hev2 & Hc2 & _ & Hnone & Hsil & _).
      exists r, w2. split; [exact E2 |].
      split; [eapply evolves_trans; eauto |]. split; [lia |].
      split; [| split; [| split]].
      * intros _. destruct Hev2 as (_ & _ & evs & ->).
        rewrite Hl, <- app_assoc. cbn. eauto.
      * intros Hun. apply Hnone. eapply unanswered_next; eauto.
      * intros Hs. apply Hsil. eapply silent_later; eauto.
      * intros d _ Hd. rewrite Hd in Hret. discriminate.
    + exists None, w1. split; [reflexivity |]. split; [exact Hev |].
      split; [lia |]. split; [eauto |]. split; [reflexivity |].
      split; [reflexivity |].
      intros d _ Hd. rewrite Hd in Hret. discriminate.
    + exists (Some d0), w1. split; [reflexivity |]. split; [exact Hev |].
      split; [lia |]. split; [eauto |]. split; [| split].
      * intros Hun. specialize (Hun 0%nat ltac:(lia)).
        rewrite Nat.add_0_r, <- Hret in Hun. discriminate.
      * intros Hs. specialize (Hs (clock w) ltac:(lia)).
        rewrite <- Hret in Hs. discriminate.
      * intros d _ Hd. rewrite Hd in Hret. injection Hret as ->. auto.
Qed.

Lemma forEndpoints_spec query (endpoints : list string) : forall w,
  exists d w',
    forEndpoints
      (fun endpoint => forAttempts (attemptOf endpoint query) MAX_RETRIES 0)
      endpoints w = (inr d, w') /\
    evolves w w' /\
    (clock w' <= clock w + MAX_RETRIES * length endpoints)%nat /\
    (forall endpoint rest, endpoints = endpoint :: rest ->
     exists events, log w' = log w ++ EFetch endpoint query :: events) /\
    (unanswered w (MAX_RETRIES * length endpoints) -> d = DNull) /\
    (silent w w' -> d = DNull) /\
    (forall d0 endpoint rest, endpoints = endpoint :: rest ->
       delivered (net w (clock w)) = Some d0 ->
       d = d0 /\ clock w' = S (clock w)).
Proof.
  induction endpoints as [| endpoint rest IH]; intros w; cbn [forEndpoints].
  - exists DNull, w. repeat split; try apply evolves_refl; try lia;
      intros; discriminate.
  - unfold bind.
    destruct (forAttempts_spec endpoint query MAX_RETRIES 0%nat w)
      as (r & w1 & E & Hev & Hc & Hlog & Hnone & Hsil & Hsome).
    rewrite E. destruct (Hlog ltac:(unfold MAX_RETRIES; lia)) as [evs Hl].
    destruct r as [d |].
    + exists d, w1. split; [reflexivity |]. split; [exact Hev |].
      split; [cbn [length]; lia |]. split; [| split; [| split]].
      * intros ? ? [= <- <-]. eauto.
      * intros Hun. assert (Some d = None); [| discriminate].
        apply Hnone. intros k Hk. apply Hun. cbn [length]. lia.
      * intros Hs. specialize (Hsil Hs). discriminate.
      * intros d0 ? ? _ Hd.
        destruct (Hsome d0 ltac:(unfold MAX_RETRIES; lia) Hd) as [[= ->] Hc'].
        auto.
    + destruct (IH w1) as (d & w2 & E2 & Hev2 & Hc2 & _ & Hnone2 & Hsil2 & _).
      exists d, w2. split; [exact E2 |].
      split; [eapply evolves_trans; eauto |].
      split; [cbn [length]; lia |]. split; [| split; [| split]].
      * intros ? ? [= <- <-]. destruct Hev2 as (_ & _ & evs2 & ->).
        rewrite Hl, <- app_assoc. cbn. eauto.
      * intros Hun. apply Hnone2.
        destruct Hev as (Hn & Hc1 & _).
        eapply unanswered_later; [exact Hn | exact Hc1 | | exact Hun].
        cbn [length]. lia.
      * intros Hs. apply Hsil2. eapply silent_later; eauto.
      * intros d0 ? ? _ Hd.
        destruct (Hsome d0 ltac:(unfold MAX_RETRIES; lia) Hd) as [[=] _].
Qed.

(** The query client does not raise; its first request goes to the
    primary endpoint; it returns [null] when none of its (at most six)
    requests delivers data, and the data of its first request when that
    one delivers. *)
Lemma client_spec (query : Query) (w : World) :
  exists d w',
    client query w = (inr d, w') /\
    evolves w w' /\ (clock w' <= clock w + 6)%nat /\
    (exists events,
       log w' = log w ++
         EFetch "https://overpass-api.de/api/interpreter" query :: events) /\
    (unanswered w 6 -> d = DNull) /\
    (silent w w' -> d = DNull) /\
    (forall d0, delivered (net w (clock w)) = Some d0 ->
       d = d0 /\ clock w' = S (clock w)).
Proof.
  destruct (forEndpoints_spec query OVERPASS_ENDPOINTS w)
    as (d & w' & E & Hev & Hc & Hlog & Hnone & Hsil & Hsome).
  exists d, w'. split; [exact E |]. split; [exact Hev |].
  split; [exact Hc |]. split; [| split; [| split]].
  - eapply Hlog. reflexivity.
  - exact Hnone.
  - exact Hsil.
  - intros d0. eapply Hsome. reflexivity.
Qed.

End QueryClient.

(** ** Railway collector: the tile loop *)

Definition primaryEndpoint : string := "https://overpass-api.de/api/interpreter".

(** What the tile loops need of a query client. *)
Definition query_client (query : Query -> IO Data) : Prop :=
  forall q w, exists d w',
    query q w = (inr d, w') /\
    evolves w w' /\ (clock w' <= clock w + 6)%nat /\
    (exists events, log w' = log w ++ EFetch primaryEndpoint q :: events) /\
    (unanswered w 6 -> d = DNull) /\
    (silent w w' -> d = DNull) /\
    (forall d0, delivered (net w (clock w)) = Some d0 ->
       d = d0 /\ clock w' = S (clock w)).

Lemma extended_query_client : query_client Extended.queryOverpass.
Proof.
  intros q w.
  exact (client_spec
           (fun endpoint query attempt =>
              tryCatch (Extended.attemptBody endpoint query attempt)
                (Extended.attemptCatch attempt))
           extended_attempt q w).
Qed.

Lemma baseline_query_client : query_client Baseline.queryOverpass.
Proof.
  intros q w.
  exact (client_spec
           (fun endpoint query attempt =>
              tryCatch (Baseline.attemptBody endpoint query attempt)
                (Baseline.attemptCatch attempt))
           baseline_attempt q w).
Qed.

Section TileLoop.

Variable query : Query -> IO Data.
Hypothesis query_spec : query_client query.

(** The pauses after a tile without data and after a tile with data. *)
Variables onSkip onDone : nat -> nat -> IO unit.
Hypothesis onSkip_quiet : forall total i, quiet (onSkip total i).
Hypothesis onDone_quiet : forall total i, quiet (onDone total i).

Fixpoint tileLoopOf (total i : nat) (tiles : list BBox) (st : Collected)
  : IO Collected :=
  match tiles with
  | [] => ret st
  | tile :: rest =>
      data <- query (RailwayQuery tile) ;;
      match elementsOf data with
      | None => onSkip total i ;;; tileLoopOf total (S i) rest st
      | Some els =>
          onDone total i ;;; tileLoopOf total (S i) rest (collectElements st els)
      end
  end.

(** A tile whose query gives no elements leaves the collection as it
    is, and the loop goes on with the next tile. *)
Lemma tileLoopOf_skip total i tile rest st w d w1 :
  query (RailwayQuery tile) w = (inr d, w1) ->
  elementsOf d = None ->
  exists w2,
    tileLoopOf total i (tile :: rest) st w = tileLoopOf total (S i) rest st w2 /\
    evolves w1 w2 /\ clock w2 = clock w1.
Proof.
  intros E Hd. cbn [tileLoopOf]. unfold bind at 1. rewrite E, Hd.
  unfold bind at 1.
  destruct (onSkip_quiet total i w1) as ([] & w2 & E2 & Hev & Hc).
  rewrite E2. eauto.
Qed.

(** The loop does not raise, it queries every tile, and what it returns
    is the element loop run over some elements. *)
Lemma tileLoopOf_collects (tiles : list BBox) : forall total i st w,
  exists els w',
    tileLoopOf total i tiles st w = (inr (collectElements st els), w') /\
    evolves w w' /\
    forall t, In t tiles -> In (EFetch primaryEndpoint (RailwayQuery t)) (log w').
Proof.
  induction tiles as [| tile rest IH]; intros total i st w; cbn [tileLoopOf].
  - exists [], w. repeat split; try apply evolves_refl; try lia.
    intros t [].
  - unfold bind at 1.
    destruct (query_spec (RailwayQuery tile) w)
      as (d & w1 & E & Hev1 & _ & (evs & Hl) & _).
    rewrite E.
    assert (Hfetch : In (EFetch primaryEndpoint (RailwayQuery tile)) (log w1)).
    { rewrite Hl. apply in_or_app. right. now left. }
    destruct (elementsOf d) as [els |]; unfold bind at 1.
    + destruct (onDone_quiet total i w1) as ([] & w2 & E2 & Hev2 & _).
      rewrite E2.
      destruct (IH total (S i) (collectElements st els) w2)
        as (els' & w3 & E3 & Hev3 & Hq).
      exists (els ++ els'), w3. rewrite collectElements_app.
      split; [exact E3 |].
      split; [eauto using evolves_trans |].
      intros t [<- | Ht]; [| now apply Hq].
      eauto using evolves_log.
    + destruct (onSkip_quiet total i w1) as ([] & w2 & E2 & Hev2 & _).
      rewrite E2.
      destruct (IH total (S i) st w2) as (els' & w3 & E3 & Hev3 & Hq).
      exists els', w3. split; [exact E3 |].
      split; [eauto using evolves_trans |].
      intros t [<- | Ht]; [| now apply Hq].
      eauto using evolves_log.
Qed.

(** When the request of every tile is answered at once with the batch
    of that tile, the loop returns the element loop run over the batches
    in tile order. *)
Lemma tileLoopOf_batches (tiles : list BBox) :
  forall (batches : list (list Element)) total i st w,
  length batches = length tiles ->
  (forall k, (k < length tiles)%nat ->
     delivered (net w (clock w + k)) = Some (DObj (Some (nth k batches [])))) ->
  exists w',
    tileLoopOf total i tiles st w =
    (inr (collectElements st (concat batches)), w').
Proof.
  induction tiles as [| tile rest IH]; intros batches total i st w Hlen Hnet;
    cbn [tileLoopOf].
  - destruct batches; [| discriminate]. cbn. eexists. reflexivity.
  - destruct batches as [| els batches]; [discriminate |].
    unfold bind at 1.
    destruct (query_spec (RailwayQuery tile) w)
      as (d & w1 & E & (Hn1 & _) & _ & _ & _ & _ & Hsome).
    rewrite E.
    specialize (Hnet 0%nat ltac:(cbn; lia)) as H0. rewrite Nat.add_0_r in H0.
    destruct (Hsome _ H0) as [-> Hc1]. cbn [elementsOf nth].
    unfold bind at 1.
    destruct (onDone_quiet total i w1) as ([] & w2 & E2 & (Hn2 & _) & Hc2).
    rewrite E2.
    destruct (IH batches total (S i) (collectElements st els) w2) as [w3 E3].
    + cbn in Hlen. lia.
    + intros k Hk. rewrite Hn2, Hn1, Hc2, Hc1.
      replace (S (clock w) + k)%nat with (clock w + S k)%nat by lia.
      apply (Hnet (S k)). cbn. lia.
    + exists w3. cbn [concat]. rewrite collectElements_app. exact E3.
Qed.

End TileLoop.

Definition extendedPause (total i : nat) : IO unit :=
  if (i <? total - 1)%nat then sleep Extended.DELAY_BETWEEN_QUERIES_MS
  else ret tt.

Lemma extendedPause_quiet total i : quiet (extendedPause total i).
Proof.
  unfold extendedPause. destruct (i <? total - 1)%nat;
    [apply quiet_sleep | apply quiet_ret].
Qed.

Lemma interTileDelay_quiet total i : quiet (Baseline.interTileDelay total i).
Proof.
  unfold Baseline.interTileDelay. destruct (i <? total - 1)%nat;
    [apply quiet_sleep | apply quiet_ret].
Qed.

Lemma extended_tileLoop (tiles : list BBox) : forall total i st w,
  Extended.tileLoop total i tiles st w =
  tileLoopOf Extended.queryOverpass (fun _ _ => ret tt) extendedPause
    total i tiles st w.
Proof.
  induction tiles as [| tile rest IH]; intros total i st w; [reflexivity |].
  cbn [Extended.tileLoop tileLoopOf]. unfold bind at 1 3.
  destruct (Extended.queryOverpass (RailwayQuery tile) w) as [[e | d] w1];
    [reflexivity |].
  destruct (elementsOf d) as [els |].
  - unfold bind, extendedPause.
    destruct (i <? total - 1)%nat; cbn; apply IH.
  - unfold bind. cbn. apply IH.
Qed.

Lemma baseline_tileLoop (tiles : list BBox) : forall total i st w,
  Baseline.tileLoop total i tiles st w =
  tileLoopOf Baseline.queryOverpass Baseline.interTileDelay
    Baseline.interTileDelay total i tiles st w.
Proof.
  induction tiles as [| tile rest IH]; intros total i st w; [reflexivity |].
  cbn [Baseline.tileLoop tileLoopOf]. unfold bind at 1 4.
  destruct (Baseline.queryOverpass (RailwayQuery tile) w) as [[e | d] w1];
    [reflexivity |].
  destruct (elementsOf d) as [els |]; unfold bind;
    destruct (Baseline.interTileDelay total i w1) as [[e | []] w2];
    solve [reflexivity | apply IH].
Qed.

(** What [collectRailways] returns, or nothing if it raised. *)
Definition segmentsOf (r : (Error + list RailwaySegment) * World)
  : option (list RailwaySegment) :=
  match fst r with
  | inr segs => Some segs
  | inl _ => None
  end.

(** Either variant of [collectRailways] returns without raising, after
    a request for every tile, the segments of the element loop run from
    the empty collection over some elements. *)
Lemma collectRailways_collects (tiles : list BBox) (w : World) :
  (exists els w',
     Extended.collectRailways tiles w =
     (inr (allWays (collectElements (mkCollected ∅ []) els)), w') /\
     forall t, In t tiles ->
       In (EFetch primaryEndpoint (RailwayQuery t)) (log w')) /\
  (exists els w',
     Baseline.collectRailways tiles w =
     (inr (allWays (collectElements (mkCollected ∅ []) els)), w') /\
     forall t, In t tiles ->
       In (EFetch primaryEndpoint (RailwayQuery t)) (log w')).
Proof.
  split.
  - unfold Extended.collectRailways, bind. rewrite extended_tileLoop.
    destruct (tileLoopOf_collects Extended.queryOverpass extended_query_client
                (fun _ _ => ret tt) extendedPause
                (fun _ _ => quiet_ret tt) extendedPause_quiet
                tiles (length tiles) 0%nat (mkCollected ∅ []) w)
      as (els & w' & E & _ & Hq).
    rewrite E. exists els, w'. split; [reflexivity | exact Hq].
  - unfold Baseline.collectRailways, bind. rewrite baseline_tileLoop.
    destruct (tileLoopOf_collects Baseline.queryOverpass baseline_query_client
                Baseline.interTileDelay Baseline.interTileDelay
                interTileDelay_quiet interTileDelay_quiet
                tiles (length tiles) 0%nat (mkCollected ∅ []) w)
      as (els & w' & E & _ & Hq).
    rewrite E. exists els, w'. split; [reflexivity | exact Hq].
Qed.

Lemma collectRailways_ok (tiles : list BBox) (w : World) :
  (exists segs,
     segmentsOf (Extended.collectRailways tiles w) = Some segs /\
     List.NoDup (map seg_id segs) /\ Forall twoPoints segs) /\
  (exists segs,
     segmentsOf (Baseline.collectRailways tiles w) = Some segs /\
     List.NoDup (map seg_id segs) /\ Forall twoPoints segs).
Proof.
  destruct (collectRailways_collects tiles w)
    as ((els1 & w1 & E1 & _) & (els2 & w2 & E2 & _)).
  split.
  - destruct (collectElements_ok els1 _ collected_ok_empty) as (Hnd & _ & Hlen).
    eexists. unfold segmentsOf. rewrite E1. cbn. eauto.
  - destruct (collectElements_ok els2 _ collected_ok_empty) as (Hnd & _ & Hlen).
    eexists. unfold segmentsOf. rewrite E2. cbn. eauto.
Qed.

(** C9.  Every segment that either variant of the railway collector
    returns has at least two points, in every world and for every tile
    list; an element whose geometry is missing or has fewer than two
    points adds no segment. *)
Theorem segments_have_two_points (tiles : list BBox) (w : World)
  (st : Collected) (el : Element) :
  degenerate el ->
  allWays (collectElement st el) = allWays st /\
  (exists segs,
     segmentsOf (Extended.collectRailways tiles w) = Some segs /\
     Forall twoPoints segs) /\
  (exists segs,
     segmentsOf (Baseline.collectRailways tiles w) = Some segs /\
     Forall twoPoints segs).
Proof.
  intros Hdeg. split; [now apply collectElement_degenerate |].
  destruct (collectRailways_ok tiles w)
    as ((s1 & E1 & _ & H1) & (s2 & E2 & _ & H2)).
  split; eauto.
Qed.

Lemma segments_have_two_points_witness :
  allWays
    (collectElement (mkCollected ∅ [])
       (mkElement "way" 7 None None None None (Some [mkPoint 1 2]))) = [].
Proof.
  refine (proj1 (segments_have_two_points []
                   (mkWorld (fun _ => Rejected AbortError) 0 [])
                   (mkCollected ∅ [])
                   (mkElement "way" 7 None None None None (Some [mkPoint 1 2]))
                   _)).
  cbn. lia.
Defined.

(** The requests of the tiles are answered at once, tile [k] with the
    elements [nth k batches []]. *)
Definition answers (w : World) (batches : list (list Element)) : Prop :=
  forall k, (k < length batches)%nat ->
    delivered (net w (clock w + k)) = Some (DObj (Some (nth k batches []))).

Lemma collectRailways_batches (tiles : list BBox)
  (batches : list (list Element)) (w : World) :
  length batches = length tiles -> answers w batches ->
  segmentsOf (Extended.collectRailways tiles w) =
    Some (allWays (collectElements (mkCollected ∅ []) (concat batches))) /\
  segmentsOf (Baseline.collectRailways tiles w) =
    Some (allWays (collectElements (mkCollected ∅ []) (concat batches))).
Proof.
  intros Hlen Hans. unfold answers in Hans. rewrite Hlen in Hans. split.
  - unfold segmentsOf, Extended.collectRailways, bind.
    rewrite extended_tileLoop.
    destruct (tileLoopOf_batches Extended.queryOverpass extended_query_client
                (fun _ _ => ret tt) extendedPause extendedPause_quiet
                tiles batches (length tiles) 0%nat (mkCollected ∅ []) w
                Hlen Hans) as [w' E].
    now rewrite E.
  - unfold segmentsOf, Baseline.collectRailways, bind.
    rewrite baseline_tileLoop.
    destruct (tileLoopOf_batches Baseline.queryOverpass baseline_query_client
                Baseline.interTileDelay Baseline.interTileDelay
                interTileDelay_quiet
                tiles batches (length tiles) 0%nat (mkCollected ∅ []) w
                Hlen Hans) as [w' E].
    now rewrite E.
Qed.

(** C2.  The segments that either variant of the railway collector
    returns carry pairwise different ids, in every world.  When the
    tiles are answered with the element batches [batches], a feature that
    occurs in them, once or several times, in one tile or in several,
    and all of whose copies have a valid geometry, gets exactly one
    segment with its id. *)
Theorem segment_ids_unique (tiles : list BBox) (batches : list (list Element))
  (w : World) (el : Element) :
  length batches = length tiles -> answers w batches ->
  In el (concat batches) ->
  (forall x, In x (concat batches) -> el_id x = el_id el -> validGeometry x) ->
  (exists segs,
     segmentsOf (Extended.collectRailways tiles w) = Some segs /\
     List.NoDup (map seg_id segs) /\
     length (segmentsWithId (el_id el) segs) = 1%nat) /\
  (exists segs,
     segmentsOf (Baseline.collectRailways tiles w) = Some segs /\
     List.NoDup (map seg_id segs) /\
     length (segmentsWithId (el_id el) segs) = 1%nat) /\
  (forall tiles0 w0,
     (exists segs,
        segmentsOf (Extended.collectRailways tiles0 w0) = Some segs /\
        List.NoDup (map seg_id segs)) /\
     (exists segs,
        segmentsOf (Baseline.collectRailways tiles0 w0) = Some segs /\
        List.NoDup (map seg_id segs))).
Proof.
  intros Hlen Hans Hin Hvalid.
  destruct (collectRailways_batches tiles batches w Hlen Hans) as [E1 E2].
  destruct (collectElements_ok (concat batches) _ collected_ok_empty)
    as (Hnd & _ & _).
  assert (Hone : length (segmentsWithId (el_id el)
                   (allWays (collectElements (mkCollected ∅ []) (concat batches))))
                 = 1%nat).
  { apply segmentsWithId_one; [exact Hnd |].
    apply collectElements_keeps; [exact Hin | exact Hvalid | set_solver]. }
  split; [eauto | split; [eauto |]].
  intros tiles0 w0.
  destruct (collectRailways_ok tiles0 w0)
    as ((s1 & F1 & N1 & _) & (s2 & F2 & N2 & _)).
  split; eauto.
Qed.

(** A way with two points, and a world that answers every request with
    that way. *)
Definition sampleWay : Element :=
  mkElement "way" 7 None None None None (Some [mkPoint 1 2; mkPoint 3 4]).

Definition sampleWayWorld : World :=
  mkWorld (fun _ => Responded (mkResponse 200 (inr (DObj (Some [sampleWay])))))
    0 [].

Lemma segment_ids_unique_witness :
  exists segs,
    segmentsOf
      (Extended.collectRailways [mkBBox 0 0 5 5; mkBBox 5 0 10 5]
         sampleWayWorld) = Some segs /\
    length (segmentsWithId 7 segs) = 1%nat.
Proof.
  destruct (segment_ids_unique [mkBBox 0 0 5 5; mkBBox 5 0 10 5]
              [[sampleWay]; [sampleWay]] sampleWayWorld sampleWay)
    as ((segs & E & _ & H) & _).
  - reflexivity.
  - intros k Hk. destruct k as [| [| k]]; [reflexivity | reflexivity |].
    cbn in Hk. lia.
  - cbn. now left.
  - intros x Hx _. cbn in Hx. destruct Hx as [<- | [<- | []]];
      exists [mkPoint 1 2; mkPoint 3 4]; split; (reflexivity || (cbn; lia)).
  - exists segs. split; assumption.
Defined.

(** C3.  When none of the six requests that the query client can make
    delivers data, either variant returns [null] and does not raise, and
    the tile loop of the railway collector goes on with the next tile,
    its collection unchanged.  The same holds of any result without
    elements.  In every world the query client returns without raising,
    with [null] when none of the requests it made delivered data, and
    the collector returns without raising after a request for every
    tile. *)
Theorem exhausted_query_is_null (query : Query) (tile : BBox)
  (rest : list BBox) (total i : nat) (st : Collected) (w : World) :
  unanswered w 6 ->
  (exists w', Extended.queryOverpass query w = (inr DNull, w')) /\
  (exists w', Baseline.queryOverpass query w = (inr DNull, w')) /\
  (exists w',
     Extended.tileLoop total i (tile :: rest) st w =
     Extended.tileLoop total (S i) rest st w' /\ evolves w w') /\
  (exists w',
     Baseline.tileLoop total i (tile :: rest) st w =
     Baseline.tileLoop total (S i) rest st w' /\ evolves w w') /\
  (forall w0 d w1,
     Extended.queryOverpass (RailwayQuery tile) w0 = (inr d, w1) ->
     elementsOf d = None ->
     Extended.tileLoop total i (tile :: rest) st w0 =
     Extended.tileLoop total (S i) rest st w1) /\
  (forall w0 d w1,
     Baseline.queryOverpass (RailwayQuery tile) w0 = (inr d, w1) ->
     elementsOf d = None ->
     exists w2,
       Baseline.tileLoop total i (tile :: rest) st w0 =
       Baseline.tileLoop total (S i) rest st w2 /\
       evolves w1 w2 /\ clock w2 = clock w1) /\
  (forall q0 w0,
     (exists d w',
        Extended.queryOverpass q0 w0 = (inr d, w') /\
        (silent w0 w' -> d = DNull)) /\
     (exists d w',
        Baseline.queryOverpass q0 w0 = (inr d, w') /\
        (silent w0 w' -> d = DNull))) /\
  (forall tiles0 w0,
     (exists segs w',
        Extended.collectRailways tiles0 w0 = (inr segs, w') /\
        forall t, In t tiles0 ->
          In (EFetch primaryEndpoint (RailwayQuery t)) (log w')) /\
     (exists segs w',
        Baseline.collectRailways tiles0 w0 = (inr segs, w') /\
        forall t, In t tiles0 ->
          In (EFetch primaryEndpoint (RailwayQuery t)) (log w'))).
Proof.
  intros Hun.
  assert (Hskip1 : forall w0 d w1,
            Extended.queryOverpass (RailwayQuery tile) w0 = (inr d, w1) ->
            elementsOf d = None ->
            Extended.tileLoop total i (tile :: rest) st w0 =
            Extended.tileLoop total (S i) rest st w1).
  { intros w0 d w1 E Hd. cbn [Extended.tileLoop]. unfold bind at 1.
    now rewrite E, Hd. }
  assert (Hskip2 : forall w0 d w1,
            Baseline.queryOverpass (RailwayQuery tile) w0 = (inr d, w1) ->
            elementsOf d = None ->
            exists w2,
              Baseline.tileLoop total i (tile :: rest) st w0 =
              Baseline.tileLoop total (S i) rest st w2 /\
              evolves w1 w2 /\ clock w2 = clock w1).
  { intros w0 d w1 E Hd. cbn [Baseline.tileLoop]. unfold bind at 1.
    rewrite E, Hd. unfold bind at 1.
    destruct (interTileDelay_quiet total i w1) as ([] & w2 & E2 & Hev & Hc).
    rewrite E2. eauto. }
  destruct (extended_query_client query w) as (d1 & w1 & E1 & _ & _ & _ & N1 & _).
  destruct (baseline_query_client query w) as (d2 & w2 & E2 & _ & _ & _ & N2 & _).
  rewrite (N1 Hun) in E1. rewrite (N2 Hun) in E2.
  destruct (extended_query_client (RailwayQuery tile) w)
    as (d3 & w3 & E3 & Hev3 & _ & _ & N3 & _).
  destruct (baseline_query_client (RailwayQuery tile) w)
    as (d4 & w4 & E4 & Hev4 & _ & _ & N4 & _).
  rewrite (N3 Hun) in E3. rewrite (N4 Hun) in E4.
  split; [eauto |]. split; [eauto |].
  split; [exists w3; split; [now apply (Hskip1 w DNull) | exact Hev3] |].
  split.
  { destruct (Hskip2 w DNull w4 E4 eq_refl) as (w5 & E5 & Hev5 & _).
    exists w5. split; [exact E5 | eauto using evolves_trans]. }
  split; [exact Hskip1 |]. split; [exact Hskip2 |]. split.
  - intros q0 w0.
    destruct (extended_query_client q0 w0)
      as (d & w' & E & _ & _ & _ & _ & S1 & _).
    destruct (baseline_query_client q0 w0)
      as (d' & w'' & E' & _ & _ & _ & _ & S2 & _).
    split; eauto.
  - intros tiles0 w0.
    destruct (collectRailways_collects tiles0 w0)
      as ((els1 & w1' & F1 & Q1) & (els2 & w2' & F2 & Q2)).
    split; eauto.
Qed.

(** A world in which every request is answered with status 500. *)
Definition serverErrorWorld : World :=
  mkWorld (fun _ => Responded (mkResponse 500 (inl (OtherError "")))) 0 [].

Lemma exhausted_query_is_null_witness :
  (exists w',
     Extended.queryOverpass (TownQuery (mkBBox 0 0 5 5)) serverErrorWorld =
     (inr DNull, w')) /\
  (exists w',
     Baseline.queryOverpass (TownQuery (mkBBox 0 0 5 5)) serverErrorWorld =
     (inr DNull, w')).
Proof.
  destruct (exhausted_query_is_null (TownQuery (mkBBox 0 0 5 5))
              (mkBBox 0 0 5 5) [] 1 0 (mkCollected ∅ []) serverErrorWorld)
    as (H1 & H2 & _).
  - intros k _. reflexivity.
  - split; assumption.
Defined.

(** The scenario of a country whose endpoints all answer 500: the
    baseline collector asks both endpoints once for each tile, pauses
    between the tiles, and returns no segment. *)
Example server_error_run_continues :
  segmentsOf
    (Baseline.collectRailways [mkBBox 0 0 5 5; mkBBox 5 0 10 5]
       serverErrorWorld) = Some [] /\
  log (snd (Baseline.collectRailways [mkBBox 0 0 5 5; mkBBox 5 0 10 5]
              serverErrorWorld)) =
  [EFetch "https://overpass-api.de/api/interpreter"
     (RailwayQuery (mkBBox 0 0 5 5));
   EFetch "https://overpass.kumi.systems/api/interpreter"
     (RailwayQuery (mkBBox 0 0 5 5));
   ESleep 8000;
   EFetch "https://overpass-api.de/api/interpreter"
     (RailwayQuery (mkBBox 5 0 10 5));
   EFetch "https://overpass.kumi.systems/api/interpreter"
     (RailwayQuery (mkBBox 5 0 10 5))].
Proof. split; reflexivity. Qed.

(** The scenario of a rate limit: status 429 on the first attempt, then
    200 with a body on the second attempt at the same endpoint; the
    client returns the body after one backoff. *)
Example rate_limit_then_success :
  let w := mkWorld
             (fun k => match k with
                       | O => Responded (mkResponse 429 (inl (OtherError "")))
                       | _ => Responded (mkResponse 200 (inr (DObj (Some []))))
                       end) 0 [] in
  fst (Extended.queryOverpass (TownQuery (mkBBox 0 0 5 5)) w) =
    inr (DObj (Some [])) /\
  log (snd (Extended.queryOverpass (TownQuery (mkBBox 0 0 5 5)) w)) =
  [EFetch "https://overpass-api.de/api/interpreter" (TownQuery (mkBBox 0 0 5 5));
   ESleep 10000;
   EFetch "https://overpass-api.de/api/interpreter" (TownQuery (mkBBox 0 0 5 5))].
Proof. split; reflexivity. Qed.

(** ** Query client: server errors *)

Definition extendedAttempt (endpoint : string) (query : Query) (attempt : nat)
  : IO Ctl :=
  tryCatch (Extended.attemptBody endpoint query attempt)
    (Extended.attemptCatch attempt).

Definition baselineAttempt (endpoint : string) (query : Query) (attempt : nat)
  : IO Ctl :=
  tryCatch (Baseline.attemptBody endpoint query attempt)
    (Baseline.attemptCatch attempt).

(** The world right after one request, with nothing else done. *)
Definition afterFetch (endpoint : string) (query : Query) (w : World) : World :=
  mkWorld (net w) (S (clock w)) (log w ++ [EFetch endpoint query]).

Lemma baseline_server_error endpoint query attempt w r :
  net w (clock w) = Responded r -> (500 <= status r)%Z ->
  baselineAttempt endpoint query attempt w =
  (inr Break, afterFetch endpoint query w).
Proof.
  intros Hr H500. unfold baselineAttempt, tryCatch, Baseline.attemptBody,
    bind, fetch. rewrite Hr.
  destruct (Z.eqb_spec (status r) 429); [lia |].
  destruct (Z.leb_spec 500 (status r)); [reflexivity | lia].
Qed.

Lemma extended_unavailable endpoint query attempt w r :
  net w (clock w) = Responded r -> (status r = 503 \/ status r = 504)%Z ->
  extendedAttempt endpoint query attempt w =
  (inr Break, afterFetch endpoint query w).
Proof.
  intros Hr H50x. unfold extendedAttempt, tryCatch, Extended.attemptBody,
    bind, fetch. rewrite Hr.
  destruct (Z.eqb_spec (status r) 429); [lia |].
  destruct (Z.eqb_spec (status r) 504); [reflexivity |].
  destruct (Z.eqb_spec (status r) 503); [reflexivity | lia].
Qed.

Lemma extended_server_error endpoint query attempt w r :
  net w (clock w) = Responded r -> (500 <= status r)%Z ->
  status r <> 503%Z -> status r <> 504%Z ->
  extendedAttempt endpoint query attempt w =
  (inr Continue, afterFetch endpoint query w).
Proof.
  intros Hr H500 H503 H504. unfold extendedAttempt, tryCatch,
    Extended.attemptBody, bind, fetch. rewrite Hr.
  destruct (Z.eqb_spec (status r) 429); [lia |].
  destruct (Z.eqb_spec (status r) 504); [contradiction |].
  destruct (Z.eqb_spec (status r) 503); [contradiction |].
  cbn. destruct (ok r) eqn:Hok; [apply ok_range in Hok; lia | reflexivity].
Qed.

(** C4, as the code has it.  In the baseline variant a response with a
    status of 500 or more, on any attempt, ends the attempts on the
    current endpoint after that one request, and the client goes on with
    the next endpoint.  In the extended variant only the statuses 503
    and 504 do so; any other status of 500 or more is retried on the
    same endpoint like any other failed status. *)
Theorem server_error_abandons_endpoint (endpoint : string) (query : Query)
  (attempt remaining : nat) (rest : list string) (w : World) (r : Response) :
  net w (clock w) = Responded r -> (500 <= status r)%Z ->
  forAttempts (baselineAttempt endpoint query) (S remaining) attempt w =
    (inr None, afterFetch endpoint query w) /\
  forEndpoints
    (fun endpoint => forAttempts (baselineAttempt endpoint query) MAX_RETRIES 0)
    (endpoint :: rest) w =
  forEndpoints
    (fun endpoint => forAttempts (baselineAttempt endpoint query) MAX_RETRIES 0)
    rest (afterFetch endpoint query w) /\
  ((status r = 503 \/ status r = 504)%Z ->
   forAttempts (extendedAttempt endpoint query) (S remaining) attempt w =
     (inr None, afterFetch endpoint query w)) /\
  (status r <> 503%Z -> status r <> 504%Z ->
   forAttempts (extendedAttempt endpoint query) (S remaining) attempt w =
   forAttempts (extendedAttempt endpoint query) remaining (S attempt)
     (afterFetch endpoint query w)).
Proof.
  intros Hr H500. split; [| split; [| split]].
  - cbn [forAttempts]. unfold bind.
    now rewrite (baseline_server_error _ _ _ _ _ Hr H500).
  - cbn [forEndpoints forAttempts MAX_RETRIES]. unfold bind at 1 2.
    now rewrite (baseline_server_error _ _ _ _ _ Hr H500).
  - intros H50x. cbn [forAttempts]. unfold bind.
    now rewrite (extended_unavailable _ _ _ _ _ Hr H50x).
  - intros H503 H504. cbn [forAttempts]. unfold bind at 1.
    now rewrite (extended_server_error _ _ _ _ _ Hr H500 H503 H504).
Qed.

Lemma server_error_abandons_endpoint_witness :
  forAttempts (baselineAttempt primaryEndpoint (TownQuery (mkBBox 0 0 5 5)))
    3 0 serverErrorWorld =
  (inr None,
   afterFetch primaryEndpoint (TownQuery (mkBBox 0 0 5 5)) serverErrorWorld).
Proof.
  refine (proj1 (server_error_abandons_endpoint primaryEndpoint
                   (TownQuery (mkBBox 0 0 5 5)) 0 2 [] serverErrorWorld
                   (mkResponse 500 (inl (OtherError ""))) eq_refl _)).
  cbn. lia.
Defined.

(** Against C4 as stated: with every response a status 500, the
    extended variant asks the primary endpoint three times before it
    turns to the mirror. *)
Lemma server_error_500_is_retried :
  log (snd (Extended.queryOverpass (TownQuery (mkBBox 0 0 5 5))
              serverErrorWorld)) =
  [EFetch "https://overpass-api.de/api/interpreter" (TownQuery (mkBBox 0 0 5 5));
   EFetch "https://overpass-api.de/api/interpreter" (TownQuery (mkBBox 0 0 5 5));
   EFetch "https://overpass-api.de/api/interpreter" (TownQuery (mkBBox 0 0 5 5));
   EFetch "https://overpass.kumi.systems/api/interpreter"
     (TownQuery (mkBBox 0 0 5 5));
   EFetch "https://overpass.kumi.systems/api/interpreter"
     (TownQuery (mkBBox 0 0 5 5));
   EFetch "https://overpass.kumi.systems/api/interpreter"
     (TownQuery (mkBBox 0 0 5 5))].
Proof. reflexivity. Qed.

(** ** The station map *)

Section JsMapFacts.
Context {V : Type}.
Implicit Types (m : JsMap V) (k key : string) (v : V).

Lemma mapHas_In key m : mapHas key m = true <-> In key (mapKeys m).
Proof.
  unfold mapHas, mapKeys. rewrite existsb_exists, in_map_iff.
  split.
  - intros ([k v] & Hin & Hk). apply String.eqb_eq in Hk.
    exists (k, v). auto.
  - intros ([k v] & Hk & Hin). exists (k, v). split; [exact Hin |].
    now apply String.eqb_eq.
Qed.

Lemma mapHas_false_get key m : mapHas key m = false -> mapGet key m = None.
Proof.
  induction m as [| [k v] m IH]; cbn; [reflexivity |].
  destruct (String.eqb k key); cbn; [discriminate | exact IH].
Qed.

Lemma mapGet_set_same key v m : mapGet key (mapSet key v m) = Some v.
Proof.
  induction m as [| [k v'] m IH]; cbn.
  - now rewrite String.eqb_refl.
  - destruct (String.eqb k key) eqn:Hk; cbn.
    + now rewrite String.eqb_refl.
    + now rewrite Hk.
Qed.

Lemma mapGet_set_other key k v m :
  key <> k -> mapGet k (mapSet key v m) = mapGet k m.
Proof.
  intros Hne. induction m as [| [k' v'] m IH]; cbn.
  - destruct (String.eqb_spec key k); [contradiction | reflexivity].
  - destruct (String.eqb_spec k' key) as [-> | Hk]; cbn.
    + destruct (String.eqb_spec key k); [contradiction | reflexivity].
    + destruct (String.eqb k' k); [reflexivity | exact IH].
Qed.

(** Setting a key adds it at the end when it is new and changes no key
    otherwise. *)
Lemma mapKeys_set key v m :
  mapKeys (mapSet key v m) =
  if mapHas key m then mapKeys m else mapKeys m ++ [key].
Proof.
  induction m as [| [k v'] m IH]; cbn; [reflexivity |].
  destruct (String.eqb_spec k key) as [-> | Hk]; cbn; [reflexivity |].
  unfold mapKeys in *. rewrite IH. unfold mapHas.
  now destruct (existsb _ m).
Qed.

Lemma mapValues_set (P : V -> Prop) key v m :
  P v -> Forall P (mapValues m) -> Forall P (mapValues (mapSet key v m)).
Proof.
  intros Hv. induction m as [| [k v'] m IH]; cbn; intros Hm.
  - constructor; [exact Hv | constructor].
  - inversion Hm as [| ? ? Hv' Hm']; subst.
    destruct (String.eqb k key); cbn; constructor; auto.
Qed.

Lemma mapKeys_set_NoDup key v m :
  List.NoDup (mapKeys m) -> List.NoDup (mapKeys (mapSet key v m)).
Proof.
  intros Hnd. rewrite mapKeys_set. destruct (mapHas key m) eqn:Hhas; [exact Hnd |].
  apply List.NoDup_app; [exact Hnd | constructor; [intros [] | constructor] |].
  intros k Hk [<- | []]. apply mapHas_In in Hk. congruence.
Qed.

End JsMapFacts.

(** ** Station collector: the element loop

    Both variants key a candidate by its coordinates and store it when
    the key is new; the extended variant also stores it, in place of
    what is there, when its name matches the station words. *)

Section StationLoop.
Context {V : Type}.

(** The first half of the loop body, the record built, and the test
    that lets a candidate replace the holder of its key. *)
Variable cand : Element -> option (Q * Q * string).
Variable mk : Element -> Q -> Q -> string -> V.
Variable overwrite : string -> bool.

Definition stepOf (stationMap : JsMap V) (el : Element) : JsMap V :=
  match cand el with
  | None => stationMap
  | Some (lat, lon, name) =>
      let key := coordKey lat lon in
      if negb (mapHas key stationMap) || overwrite name
      then mapSet key (mk el lat lon name) stationMap
      else stationMap
  end.

(** The key an element is stored under, if it is a candidate. *)
Definition keyOf (el : Element) : option string :=
  match cand el with
  | Some (lat, lon, _) => Some (coordKey lat lon)
  | None => None
  end.

Lemma stepOf_not_candidate m el : cand el = None -> stepOf m el = m.
Proof. unfold stepOf. now intros ->. Qed.

Lemma stepOf_keys m el :
  mapKeys (stepOf m el) =
  match keyOf el with
  | Some key => if mapHas key m then mapKeys m else mapKeys m ++ [key]
  | None => mapKeys m
  end.
Proof.
  unfold stepOf, keyOf. destruct (cand el) as [[[lat lon] name] |]; [| reflexivity].
  cbn zeta. destruct (mapHas (coordKey lat lon) m) eqn:Hhas; cbn [negb orb].
  - destruct (overwrite name); [| reflexivity].
    now rewrite mapKeys_set, Hhas.
  - now rewrite mapKeys_set, Hhas.
Qed.

Lemma stepOf_NoDup m el :
  List.NoDup (mapKeys m) -> List.NoDup (mapKeys (stepOf m el)).
Proof.
  intros Hnd. rewrite stepOf_keys. destruct (keyOf el) as [key |]; [| exact Hnd].
  destruct (mapHas key m) eqn:Hhas; [exact Hnd |].
  apply List.NoDup_app; [exact Hnd | constructor; [intros [] | constructor] |].
  intros k Hk [<- | []]. apply mapHas_In in Hk. congruence.
Qed.

Lemma stepOf_keeps_keys m el k :
  In k (mapKeys m) -> In k (mapKeys (stepOf m el)).
Proof.
  intros Hk. rewrite stepOf_keys. destruct (keyOf el) as [key |]; [| exact Hk].
  destruct (mapHas key m); [exact Hk | apply in_or_app; now left].
Qed.

Lemma stepOf_adds_key m el key :
  keyOf el = Some key -> In key (mapKeys (stepOf m el)).
Proof.
  intros Hkey. rewrite stepOf_keys, Hkey.
  destruct (mapHas key m) eqn:Hhas; [now apply mapHas_In |].
  apply in_or_app. right. now left.
Qed.

(** An element of another key, or none, leaves the holder of [k]. *)
Lemma stepOf_other m el k :
  keyOf el <> Some k -> mapGet k (stepOf m el) = mapGet k m.
Proof.
  unfold keyOf, stepOf. destruct (cand el) as [[[lat lon] name] |];
    [| reflexivity].
  intros Hne. cbn zeta.
  destruct (negb (mapHas (coordKey lat lon) m) || overwrite name);
    [| reflexivity].
  apply mapGet_set_other. congruence.
Qed.

(** A candidate of key [k] holds it afterwards if the key was new or
    its name passes the test; otherwise the holder stays. *)
Lemma stepOf_same m el lat lon name :
  cand el = Some (lat, lon, name) ->
  mapGet (coordKey lat lon) (stepOf m el) =
  if negb (mapHas (coordKey lat lon) m) || overwrite name
  then Some (mk el lat lon name)
  else mapGet (coordKey lat lon) m.
Proof.
  unfold stepOf. intros ->. cbn zeta.
  destruct (negb (mapHas (coordKey lat lon) m) || overwrite name);
    [apply mapGet_set_same | reflexivity].
Qed.

Lemma stepOf_values (P : V -> Prop) m el :
  (forall lat lon name, cand el = Some (lat, lon, name) -> P (mk el lat lon name)) ->
  Forall P (mapValues m) -> Forall P (mapValues (stepOf m el)).
Proof.
  unfold stepOf. intros Hmk Hm.
  destruct (cand el) as [[[lat lon] name] |]; [| exact Hm]. cbn zeta.
  destruct (negb (mapHas (coordKey lat lon) m) || overwrite name);
    [| exact Hm].
  apply mapValues_set; auto.
Qed.

Definition runOf (els : list Element) (m : JsMap V) : JsMap V :=
  fold_left stepOf els m.

Lemma runOf_app els els' m : runOf (els ++ els') m = runOf els' (runOf els m).
Proof. apply fold_left_app. Qed.

Lemma runOf_NoDup els : forall m,
  List.NoDup (mapKeys m) -> List.NoDup (mapKeys (runOf els m)).
Proof.
  induction els as [| el els IH]; intros m H; cbn; [exact H |].
  apply IH, stepOf_NoDup, H.
Qed.

Lemma runOf_keeps_keys els k : forall m,
  In k (mapKeys m) -> In k (mapKeys (runOf els m)).
Proof.
  induction els as [| el els IH]; intros m H; cbn; [exact H |].
  apply IH, stepOf_keeps_keys, H.
Qed.

Lemma runOf_adds_key els el key : forall m,
  In el els -> keyOf el = Some key -> In key (mapKeys (runOf els m)).
Proof.
  induction els as [| x els IH]; intros m Hin Hkey; [destruct Hin |].
  cbn. destruct Hin as [-> | Hin].
  - apply runOf_keeps_keys. now apply stepOf_adds_key.
  - now apply IH.
Qed.

Lemma runOf_other els k : forall m,
  (forall el, In el els -> keyOf el <> Some k) ->
  mapGet k (runOf els m) = mapGet k m.
Proof.
  induction els as [| x els IH]; intros m H; cbn; [reflexivity |].
  rewrite IH; [apply stepOf_other, H; now left |].
  intros el Hel. apply H. now right.
Qed.

Lemma runOf_values (P : V -> Prop) els :
  (forall el lat lon name, cand el = Some (lat, lon, name) ->
     P (mk el lat lon name)) ->
  forall m, Forall P (mapValues m) -> Forall P (mapValues (runOf els m)).
Proof.
  intros Hmk. induction els as [| x els IH]; intros m H; cbn; [exact H |].
  apply IH, stepOf_values; auto.
Qed.

(** Two candidates of one key, the only ones of that key among the
    elements: the later one holds the key if its name passes the test,
    the earlier one otherwise. *)
Lemma runOf_two_candidates l1 l2 l3 el1 el2 lat1 lon1 name1 lat2 lon2 name2 :
  cand el1 = Some (lat1, lon1, name1) ->
  cand el2 = Some (lat2, lon2, name2) ->
  coordKey lat2 lon2 = coordKey lat1 lon1 ->
  (forall el, In el (l1 ++ l2 ++ l3) -> keyOf el <> Some (coordKey lat1 lon1)) ->
  mapGet (coordKey lat1 lon1) (runOf (l1 ++ el1 :: l2 ++ el2 :: l3) []) =
  Some (if overwrite name2 then mk el2 lat2 lon2 name2
        else mk el1 lat1 lon1 name1).
Proof.
  intros H1 H2 Hkey Hothers.
  assert (Ho1 : forall el, In el l1 -> keyOf el <> Some (coordKey lat1 lon1))
    by (intros; apply Hothers; apply in_or_app; now left).
  assert (Ho2 : forall el, In el l2 -> keyOf el <> Some (coordKey lat1 lon1))
    by (intros; apply Hothers; apply in_or_app; right; apply in_or_app; now left).
  assert (Ho3 : forall el, In el l3 -> keyOf el <> Some (coordKey lat1 lon1))
    by (intros; apply Hothers; apply in_or_app; right; apply in_or_app; now right).
  rewrite runOf_app. cbn [runOf fold_left]. fold (runOf l1 []).
  set (m1 := stepOf (runOf l1 []) el1).
  change (fold_left stepOf (l2 ++ el2 :: l3) m1)
    with (runOf (l2 ++ el2 :: l3) m1).
  rewrite runOf_app. cbn [runOf fold_left]. fold (runOf l2 m1).
  set (m2 := stepOf (runOf l2 m1) el2).
  change (fold_left stepOf l3 m2) with (runOf l3 m2).
  rewrite (runOf_other l3 _ m2 Ho3).
  assert (Hm1 : mapGet (coordKey lat1 lon1) m1 = Some (mk el1 lat1 lon1 name1)).
  { unfold m1. rewrite (stepOf_same _ _ _ _ _ H1).
    assert (Hnew : mapHas (coordKey lat1 lon1) (runOf l1 []) = false).
    { apply not_true_iff_false. intros Hhas.
      apply mapHas_In in Hhas.
      assert (Hget : mapGet (coordKey lat1 lon1) (runOf l1 []) = None)
        by (rewrite (runOf_other l1 _ [] Ho1); reflexivity).
      clear - Hhas Hget. induction (runOf l1 []) as [| [k v] m IH];
        [destruct Hhas |].
      cbn in Hhas, Hget. destruct (String.eqb_spec k (coordKey lat1 lon1));
        [discriminate |]. destruct Hhas as [-> | Hhas]; [contradiction | auto]. }
    now rewrite Hnew. }
  unfold m2. rewrite <- Hkey, (stepOf_same _ _ _ _ _ H2), Hkey.
  assert (Hhas : mapHas (coordKey lat1 lon1) (runOf l2 m1) = true).
  { apply mapHas_In, runOf_keeps_keys. unfold m1.
    apply stepOf_adds_key. unfold keyOf. now rewrite H1. }
  rewrite Hhas. cbn. destruct (overwrite name2); [reflexivity |].
  now rewrite (runOf_other l2 _ m1 Ho2).
Qed.

End StationLoop.

(** ** Sorting keeps the stations *)

Lemma insertSorted_perm {A} (cmp : A -> A -> comparison) (x : A) (l : list A) :
  Permutation (x :: l) (insertSorted cmp x l).
Proof.
  induction l as [| y l IH]; cbn; [reflexivity |].
  destruct (cmp x y); try reflexivity;
    (etransitivity; [apply perm_swap | now apply perm_skip]).
Qed.

Lemma sortBy_perm {A} (cmp : A -> A -> comparison) (l : list A) :
  Permutation l (sortBy cmp l).
Proof.
  unfold sortBy.
  assert (H : forall acc,
             Permutation (acc ++ l)
               (fold_left (fun acc x => insertSorted cmp x acc) l acc)).
  { induction l as [| x l IH]; intros acc; cbn.
    - now rewrite app_nil_r.
    - etransitivity; [| apply IH].
      etransitivity; [symmetry; apply Permutation_middle |].
      exact (Permutation_app_tail l (insertSorted_perm cmp x acc)). }
  exact (H []).
Qed.

Lemma sortBy_length {A} (cmp : A -> A -> comparison) (l : list A) :
  length (sortBy cmp l) = length l.
Proof. symmetry. apply Permutation_length, sortBy_perm. Qed.

Lemma sortBy_In {A} (cmp : A -> A -> comparison) (l : list A) (x : A) :
  In x (sortBy cmp l) <-> In x l.
Proof.
  split; apply Permutation_in; [symmetry |]; apply sortBy_perm.
Qed.

(** ** Station collector: both variants *)

(** How many stations the map holds under a key. *)
Definition stationsAt {V} (key : string) (m : JsMap V) : nat :=
  count_occ string_dec (mapKeys m) key.

Lemma stationsAt_one {V} (key : string) (m : JsMap V) :
  List.NoDup (mapKeys m) -> In key (mapKeys m) -> stationsAt key m = 1%nat.
Proof.
  intros Hnd Hin. unfold stationsAt.
  now apply (proj1 (List.NoDup_count_occ' string_dec (mapKeys m)) Hnd).
Qed.

(** A coordinate the presence test rejects. *)
Definition absentOrZero (x : option Q) : Prop :=
  match x with
  | None => True
  | Some q => q == 0
  end.

Lemma falsyNum_absentOrZero (x : option Q) :
  falsyNum x = true <-> absentOrZero x.
Proof.
  destruct x as [q |]; cbn; [apply Qeq_bool_iff | tauto].
Qed.

Lemma baseline_stationStep m el :
  Baseline.stationStep m el =
  stepOf Baseline.candidate Baseline.stationOf (fun _ => false) m el.
Proof.
  unfold Baseline.stationStep, stepOf.
  destruct (Baseline.candidate el) as [[[lat lon] name] |]; [| reflexivity].
  cbn zeta. now rewrite orb_false_r.
Qed.

Lemma baseline_stationsOf els :
  Baseline.stationsOf els =
  runOf Baseline.candidate Baseline.stationOf (fun _ => false) els [].
Proof.
  unfold Baseline.stationsOf, runOf. generalize (@nil (string * Baseline.Station)).
  induction els as [| el els IH]; intros m; cbn; [reflexivity |].
  now rewrite baseline_stationStep, IH.
Qed.

Lemma baseline_candidate_rejects el :
  absentOrZero (resolvedLat el) \/ absentOrZero (resolvedLon el) ->
  Baseline.candidate el = None.
Proof.
  rewrite <- !falsyNum_absentOrZero. unfold Baseline.candidate.
  intros [-> | ->]; [reflexivity | now rewrite orb_true_r].
Qed.

Section ExtendedStations.

Variables Math_sin Math_cos Math_sqrt : Q -> Q.
Variable Math_atan2 : Q -> Q -> Q.
Variable Math_PI : Q.
Variable localeCompare : string -> string -> comparison.

Local Abbreviation candidateE :=
  (Extended.candidate Math_sin Math_cos Math_sqrt Math_atan2 Math_PI).
Local Abbreviation stationsOfE :=
  (Extended.stationsOf Math_sin Math_cos Math_sqrt Math_atan2 Math_PI).
Local Abbreviation stationOutputE :=
  (Extended.stationOutput Math_sin Math_cos Math_sqrt Math_atan2 Math_PI
     localeCompare).

Lemma extended_stationsOf towns els :
  stationsOfE towns els =
  runOf (candidateE towns) Extended.stationOf Extended.matchesStationWord els [].
Proof. reflexivity. Qed.

Lemma extended_candidate_rejects towns el :
  absentOrZero (resolvedLat el) \/ absentOrZero (resolvedLon el) ->
  candidateE towns el = None.
Proof.
  rewrite <- !falsyNum_absentOrZero. unfold Extended.candidate.
  intros [-> | ->]; [reflexivity | now rewrite orb_true_r].
Qed.

Lemma truthyStr_nonempty (v : option string) :
  truthyStr v = true -> exists s, v = Some s /\ s <> ""%string.
Proof.
  destruct v as [s |]; cbn; [| discriminate].
  destruct (String.eqb_spec s ""); [discriminate | eauto].
Qed.

Lemma extended_resolveName_nonempty towns lat lon el name :
  Extended.resolveName Math_sin Math_cos Math_sqrt Math_atan2 Math_PI
    towns lat lon el = Some name ->
  name <> ""%string.
Proof.
  unfold Extended.resolveName.
  destruct (truthyStr (jsOr (jsOr (tag el t_name) (tag el t_name_en))
                         (tag el t_ref))) eqn:Hname.
  - apply truthyStr_nonempty in Hname as (s & -> & Hs). now intros [= <-].
  - destruct (Extended.closestTown _ _ _ _ _ towns lat lon) as [town |];
      [| discriminate].
    destruct (truthyStr (Extended.town_name town)); [| discriminate].
    destruct (Extended.town_name town) as [n |]; [| discriminate].
    cbn. intros [= <-]. destruct n; discriminate.
Qed.

Lemma extended_candidate_named towns el lat lon name :
  candidateE towns el = Some (lat, lon, name) -> name <> ""%string.
Proof.
  unfold Extended.candidate.
  destruct (falsyNum (resolvedLat el) || falsyNum (resolvedLon el));
    [discriminate |].
  destruct (resolvedLat el) as [la |]; [| discriminate].
  destruct (resolvedLon el) as [lo |]; [| discriminate].
  match goal with |- context [if ?c then None else _] => destruct c end;
    [discriminate |].
  destruct (Extended.resolveName _ _ _ _ _ towns la lo el) as [n |] eqn:Hn;
    [| discriminate].
  cbn. intros [= <- <- <-]. eapply extended_resolveName_nonempty; eauto.
Qed.

(** Every station the extended variant returns has a name that is not
    empty. *)
Lemma extended_stations_named towns els :
  Forall (fun s => Extended.st_name s <> ""%string) (stationOutputE towns els).
Proof.
  apply List.Forall_forall. intros s Hs.
  unfold Extended.stationOutput, Extended.sortStations in Hs.
  apply sortBy_In in Hs.
  assert (H : Forall (fun s => Extended.st_name s <> ""%string)
                (mapValues (stationsOfE towns els))).
  { rewrite extended_stationsOf. apply runOf_values; [| constructor].
    intros el lat lon name Hc. cbn. eapply extended_candidate_named; eauto. }
  rewrite List.Forall_forall in H. auto.
Qed.

End ExtendedStations.

Lemma runOf_drop {V} (cand : Element -> option (Q * Q * string))
  (mk : Element -> Q -> Q -> string -> V) (overwrite : string -> bool)
  (l1 l2 : list Element) (el : Element) (m : JsMap V) :
  cand el = None ->
  runOf cand mk overwrite (l1 ++ el :: l2) m =
  runOf cand mk overwrite (l1 ++ l2) m.
Proof.
  intros Hc. rewrite !runOf_app. cbn [runOf fold_left].
  now rewrite (stepOf_not_candidate cand mk overwrite _ el Hc).
Qed.

Lemma mapGet_In_values {V} (key : string) (v : V) (m : JsMap V) :
  mapGet key m = Some v -> In v (mapValues m).
Proof.
  induction m as [| [k v'] m IH]; cbn; [discriminate |].
  destruct (String.eqb k key); [intros [= ->]; now left | auto].
Qed.

Lemma mapValues_length {V} (m : JsMap V) :
  length (mapValues m) = length (mapKeys m).
Proof. unfold mapValues, mapKeys. now rewrite !length_map. Qed.

(** Two candidates of one key alone leave one key in the map. *)
Lemma runOf_pair_keys {V} (cand : Element -> option (Q * Q * string))
  (mk : Element -> Q -> Q -> string -> V) (overwrite : string -> bool)
  (el1 el2 : Element) (key : string) :
  keyOf cand el1 = Some key -> keyOf cand el2 = Some key ->
  mapKeys (runOf cand mk overwrite [el1; el2] []) = [key].
Proof.
  intros H1 H2. cbn [runOf fold_left].
  rewrite stepOf_keys, H2, stepOf_keys, H1. cbn [mapHas existsb mapKeys map app].
  assert (Hhas : mapHas key (stepOf cand mk overwrite [] el1) = true).
  { apply mapHas_In. now apply stepOf_adds_key. }
  now rewrite Hhas.
Qed.

Section StationClaims.

Variables Math_sin Math_cos Math_sqrt : Q -> Q.
Variable Math_atan2 : Q -> Q -> Q.
Variable Math_PI : Q.
Variable localeCompare : string -> string -> comparison.

Local Abbreviation candidateE :=
  (Extended.candidate Math_sin Math_cos Math_sqrt Math_atan2 Math_PI).
Local Abbreviation stationsOfE :=
  (Extended.stationsOf Math_sin Math_cos Math_sqrt Math_atan2 Math_PI).
Local Abbreviation stationOutputE :=
  (Extended.stationOutput Math_sin Math_cos Math_sqrt Math_atan2 Math_PI
     localeCompare).
Local Abbreviation stationOutputB := (Baseline.stationOutput localeCompare).

(** C5, as the code has it.  Of two candidates of one coordinate key,
    the only ones of that key among the elements: in the extended
    variant the later one is stored and returned when its name matches
    the station words, whether or not the name of the earlier one matches,
    and the earlier one otherwise; in the baseline variant the earlier
    one always. *)
Theorem bucket_holder (towns : list Extended.Town) (l1 l2 l3 : list Element)
  (el1 el2 : Element) (lat1 lon1 lat2 lon2 : Q) (name1 name2 : string) :
  coordKey lat2 lon2 = coordKey lat1 lon1 ->
  (candidateE towns el1 = Some (lat1, lon1, name1) ->
   candidateE towns el2 = Some (lat2, lon2, name2) ->
   (forall el, In el (l1 ++ l2 ++ l3) ->
      keyOf (candidateE towns) el <> Some (coordKey lat1 lon1)) ->
   let holder :=
     if Extended.matchesStationWord name2
     then Extended.stationOf el2 lat2 lon2 name2
     else Extended.stationOf el1 lat1 lon1 name1 in
   mapGet (coordKey lat1 lon1)
     (stationsOfE towns (l1 ++ el1 :: l2 ++ el2 :: l3)) = Some holder /\
   In holder (stationOutputE towns (l1 ++ el1 :: l2 ++ el2 :: l3))) /\
  (Baseline.candidate el1 = Some (lat1, lon1, name1) ->
   Baseline.candidate el2 = Some (lat2, lon2, name2) ->
   (forall el, In el (l1 ++ l2 ++ l3) ->
      keyOf Baseline.candidate el <> Some (coordKey lat1 lon1)) ->
   let holder := Baseline.stationOf el1 lat1 lon1 name1 in
   mapGet (coordKey lat1 lon1)
     (Baseline.stationsOf (l1 ++ el1 :: l2 ++ el2 :: l3)) = Some holder /\
   In holder (stationOutputB (l1 ++ el1 :: l2 ++ el2 :: l3))).
Proof.
  intros Hkey. split.
  - intros H1 H2 Hothers holder.
    assert (Hget : mapGet (coordKey lat1 lon1)
                     (stationsOfE towns (l1 ++ el1 :: l2 ++ el2 :: l3))
                   = Some holder).
    { rewrite extended_stationsOf.
      apply (runOf_two_candidates (candidateE towns) Extended.stationOf
               Extended.matchesStationWord l1 l2 l3 el1 el2
               lat1 lon1 name1 lat2 lon2 name2 H1 H2 Hkey Hothers). }
    split; [exact Hget |].
    unfold Extended.stationOutput, Extended.sortStations.
    apply sortBy_In. eapply mapGet_In_values, Hget.
  - intros H1 H2 Hothers holder.
    assert (Hget : mapGet (coordKey lat1 lon1)
                     (Baseline.stationsOf (l1 ++ el1 :: l2 ++ el2 :: l3))
                   = Some holder).
    { rewrite baseline_stationsOf.
      apply (runOf_two_candidates Baseline.candidate Baseline.stationOf
               (fun _ => false) l1 l2 l3 el1 el2
               lat1 lon1 name1 lat2 lon2 name2 H1 H2 Hkey Hothers). }
    split; [exact Hget |].
    unfold Baseline.stationOutput, Baseline.sortStations.
    apply sortBy_In. eapply mapGet_In_values, Hget.
Qed.

(** C10.  An element whose resolved latitude or longitude is absent or
    zero is no candidate in either variant, and the stations returned
    are those returned without it. *)
Theorem zero_coordinate_dropped (towns : list Extended.Town)
  (els1 els2 : list Element) (el : Element) :
  absentOrZero (resolvedLat el) \/ absentOrZero (resolvedLon el) ->
  candidateE towns el = None /\
  Baseline.candidate el = None /\
  stationOutputE towns (els1 ++ el :: els2) =
    stationOutputE towns (els1 ++ els2) /\
  stationOutputB (els1 ++ el :: els2) = stationOutputB (els1 ++ els2).
Proof.
  intros Hzero.
  assert (HE := extended_candidate_rejects Math_sin Math_cos Math_sqrt
                  Math_atan2 Math_PI towns el Hzero).
  assert (HB := baseline_candidate_rejects el Hzero).
  split; [exact HE |]. split; [exact HB |]. split.
  - unfold Extended.stationOutput. rewrite !extended_stationsOf.
    now rewrite (runOf_drop _ _ _ els1 els2 el [] HE).
  - unfold Baseline.stationOutput. rewrite !baseline_stationsOf.
    now rewrite (runOf_drop _ _ _ els1 els2 el [] HB).
Qed.

End StationClaims.

(** ** Sample stations *)

(** A node with a name tag and nothing else. *)
Definition namedNode (id : Z) (lat lon : Q) (name : string) : Element :=
  mkElement "node" id (Some lat) (Some lon) None
    (Some (mkTags (Some name) None None None None)) None.

(** A host for the examples: the distances are never asked for, since
    there are no towns. *)
Definition sampleMath : Q -> Q := fun _ => 0.
Definition sampleAtan2 : Q -> Q -> Q := fun _ _ => 0.

Lemma bucket_holder_witness :
  mapGet (coordKey 41 29)
    (Extended.stationsOf sampleMath sampleMath sampleMath sampleAtan2 0 []
       [namedNode 1 41 29 "Depot"; namedNode 2 41 29 "Depot Station"]) =
  Some (Extended.stationOf (namedNode 2 41 29 "Depot Station") 41 29
          "Depot Station").
Proof.
  destruct (bucket_holder sampleMath sampleMath sampleMath sampleAtan2 0
              String.compare [] [] [] []
              (namedNode 1 41 29 "Depot") (namedNode 2 41 29 "Depot Station")
              41 29 41 29 "Depot" "Depot Station" eq_refl) as [HE _].
  destruct (HE eq_refl eq_refl) as [Hget _].
  - intros el [].
  - exact Hget.
Defined.

(** Against C5 as stated.  In the extended variant the later of two
    candidates whose names both match the station words is the one
    returned; in the baseline variant the earlier candidate is returned
    although only the name of the later one matches. *)
Lemma later_station_name_wins :
  map Extended.st_id
    (Extended.stationOutput sampleMath sampleMath sampleMath sampleAtan2 0
       String.compare []
       [namedNode 1 41 29 "Ankara Gar"; namedNode 2 41 29 "Central Station"])
  = [2%Z] /\
  map Baseline.st_id
    (Baseline.stationOutput String.compare
       [namedNode 1 41 29 "Depot"; namedNode 2 41 29 "Depot Station"])
  = [1%Z].
Proof. split; reflexivity. Qed.

Lemma zero_coordinate_dropped_witness :
  Extended.candidate sampleMath sampleMath sampleMath sampleAtan2 0 []
    (namedNode 1 0 29 "Equator") = None /\
  Baseline.candidate (namedNode 1 0 29 "Equator") = None.
Proof.
  destruct (zero_coordinate_dropped sampleMath sampleMath sampleMath
              sampleAtan2 0 String.compare [] [] []
              (namedNode 1 0 29 "Equator")) as (HE & HB & _).
  - left. reflexivity.
  - split; assumption.
Defined.

(** C8, where the baseline variant departs from it.  A node whose only
    name is white space passes the name test, which comes before the
    trim, and is returned with the empty name. *)
Theorem blank_name_kept (localeCompare : string -> string -> comparison) :
  map Baseline.st_name
    (Baseline.stationOutput localeCompare [namedNode 1 41 29 "  "]) =
  [""%string].
Proof. reflexivity. Qed.

(** ** Station collector: what [extractStations] returns *)

(** Either variant returns without raising; what it returns is the
    empty list, when the station query gave no elements, or the station
    output of the elements received. *)
Lemma extractStations_returns
  (Math_sin Math_cos Math_sqrt : Q -> Q) (Math_atan2 : Q -> Q -> Q)
  (Math_PI : Q) (localeCompare : string -> string -> comparison)
  (country : Country) (w : World) :
  (exists stations w',
     Extended.extractStations Math_sin Math_cos Math_sqrt Math_atan2 Math_PI
       localeCompare country w = (inr stations, w') /\
     (stations = [] \/
      exists towns els,
        stations =
        Extended.stationOutput Math_sin Math_cos Math_sqrt Math_atan2 Math_PI
          localeCompare towns els)) /\
  (exists stations w',
     Baseline.extractStations localeCompare country w = (inr stations, w') /\
     (stations = [] \/
      exists els, stations = Baseline.stationOutput localeCompare els)).
Proof.
  split.
  - unfold Extended.extractStations. unfold bind at 1.
    destruct (extended_query_client (TownQuery (country_bbox country)) w)
      as (townData & w1 & E1 & _).
    rewrite E1. unfold bind at 1. cbn [sleep].
    set (w2 := mkWorld (net w1) (clock w1)
                 (log w1 ++ [ESleep Extended.DELAY_BETWEEN_QUERIES_MS])).
    unfold bind at 1.
    destruct (extended_query_client (StationQuery (country_bbox country)) w2)
      as (data & w3 & E3 & _).
    rewrite E3. destruct (elementsOf data) as [els |]; cbn.
    + eexists _, _. split; [reflexivity |]. right. eauto.
    + eexists _, _. split; [reflexivity |]. now left.
  - unfold Baseline.extractStations. unfold bind at 1.
    destruct (baseline_query_client (StationQuery (country_bbox country)) w)
      as (data & w1 & E1 & _).
    rewrite E1. destruct (elementsOf data) as [els |]; cbn.
    + eexists _, _. split; [reflexivity |]. right. eauto.
    + eexists _, _. split; [reflexivity |]. now left.
Qed.

(** * Further properties *)

(** ** Tile planner: shape of the grid *)

(** Two tiles share no interior point. *)
Definition overlap (a b : BBox) : Prop :=
  exists x y,
    south a < x /\ x < north a /\ west a < y /\ y < east a /\
    south b < x /\ x < north b /\ west b < y /\ y < east b.

(** [a] comes before [b] in the sweep: to its west in the same row, or
    in a row to its south. *)
Definition before (a b : BBox) : Prop :=
  (south a = south b /\ east a <= west b) \/ north a <= south b.

Lemma before_no_overlap (a b : BBox) : before a b -> ~ overlap a b.
Proof.
  intros [[_ H] | H] (x & y & ? & ? & ? & ? & ? & ? & ? & ?); lra.
Qed.

Lemma ForallOrdPairs_app {A} (R : A -> A -> Prop) (l1 l2 : list A) :
  ForallOrdPairs R l1 -> ForallOrdPairs R l2 ->
  (forall a b, In a l1 -> In b l2 -> R a b) ->
  ForallOrdPairs R (l1 ++ l2).
Proof.
  induction 1 as [| a l1 Ha H1 IH]; intros H2 H12; cbn; [exact H2 |].
  constructor.
  - apply Forall_app. split; [exact Ha |].
    apply List.Forall_forall. intros b Hb. apply H12; [now left | exact Hb].
  - apply IH; [exact H2 |]. intros a' b Ha' Hb. apply H12; [now right | exact Hb].
Qed.

Section TileGrid.
Variable tileSize : Q.
Variable bbox : BBox.
Hypothesis size_pos : 0 < tileSize.

(** A tile of the row at [lat], at or east of [lon]. *)
Definition row_tile (lat lon : Q) (t : BBox) : Prop :=
  south t = lat /\ north t = Math_min (lat + tileSize) (north bbox) /\
  lon <= west t /\ west t < east bbox /\
  east t = Math_min (west t + tileSize) (east bbox).

Lemma lonLoop_sweep (fuel : nat) : forall lat lon tiles r,
  lonLoop tileSize bbox fuel lat lon tiles = Some r ->
  exists row, r = tiles ++ row /\
    Forall (row_tile lat lon) row /\ ForallOrdPairs before row.
Proof.
  induction fuel as [| fuel IH]; intros lat lon tiles r H; [discriminate |].
  cbn [lonLoop] in H. destruct (Qltb lon (east bbox)) eqn:Hlt.
  - apply Qltb_lt in Hlt. apply IH in H.
    destruct H as (row & -> & Hrow & Hord).
    eexists (_ :: row). split; [now rewrite <- app_assoc |]. split.
    + constructor.
      * unfold row_tile; cbn. repeat split; lra || reflexivity.
      * eapply List.Forall_impl; [| exact Hrow].
        intros t (? & ? & ? & ? & ?). unfold row_tile. repeat split; auto; lra.
    + constructor; [| exact Hord].
      eapply List.Forall_impl; [| exact Hrow].
      intros t (Hs & _ & Hw & _). left. cbn. split; [now symmetry |].
      destruct (Math_min_cases (lon + tileSize) (east bbox)) as [[? E] | [? E]];
        rewrite E; lra.
  - injection H as <-. exists []. split; [now rewrite app_nil_r |].
    split; constructor.
Qed.

(** A tile of a row at or north of [lat]. *)
Definition grid_row_tile (lat : Q) (t : BBox) : Prop :=
  lat <= south t /\ south t < north bbox /\
  north t = Math_min (south t + tileSize) (north bbox) /\
  west bbox <= west t /\ west t < east bbox /\
  east t = Math_min (west t + tileSize) (east bbox).

Lemma latLoop_sweep (fuel : nat) : forall lat tiles r,
  latLoop tileSize bbox fuel lat tiles = Some r ->
  exists rows, r = tiles ++ rows /\
    Forall (grid_row_tile lat) rows /\ ForallOrdPairs before rows.
Proof.
  induction fuel as [| fuel IH]; intros lat tiles r H; [discriminate |].
  cbn [latLoop] in H. destruct (Qltb lat (north bbox)) eqn:Hlt.
  - apply Qltb_lt in Hlt.
    destruct (lonLoop tileSize bbox (S fuel) lat (west bbox) tiles)
      as [tiles' |] eqn:Hrow; [| discriminate].
    apply lonLoop_sweep in Hrow. destruct Hrow as (row & -> & Hrow & Hord).
    apply IH in H. destruct H as (rows & -> & Hrows & Hord').
    exists (row ++ rows). split; [now rewrite <- app_assoc |]. split.
    + apply Forall_app. split.
      * eapply List.Forall_impl; [| exact Hrow].
        intros t (Hs & Hn & Hw & He & Hee). unfold grid_row_tile.
        rewrite Hs. repeat split; auto; lra.
      * eapply List.Forall_impl; [| exact Hrows].
        intros t (? & ? & ? & ? & ? & ?). unfold grid_row_tile.
        repeat split; auto; lra.
    + apply ForallOrdPairs_app; [exact Hord | exact Hord' |].
      intros a b Ha Hb. right.
      rewrite List.Forall_forall in Hrow, Hrows.
      destruct (Hrow a Ha) as (_ & Hn & _).
      destruct (Hrows b Hb) as (Hs & _). rewrite Hn.
      destruct (Math_min_cases (lat + tileSize) (north bbox)) as [[? E] | [? E]];
        rewrite E; lra.
  - injection H as <-. exists []. split; [now rewrite app_nil_r |].
    split; constructor.
Qed.

End TileGrid.

Lemma getTilesWith_cases threshold tileSize bbox fuel tiles :
  getTilesWith threshold tileSize bbox fuel = Some tiles ->
  tiles = [bbox] \/ latLoop tileSize bbox fuel (south bbox) [] = Some tiles.
Proof.
  unfold getTilesWith.
  destruct (Qle_bool (latSpan bbox) threshold && Qle_bool (lonSpan bbox) threshold);
    [intros [= <-]; now left | now right].
Qed.

Lemma getTilesWith_above threshold tileSize bbox fuel :
  threshold < latSpan bbox \/ threshold < lonSpan bbox ->
  getTilesWith threshold tileSize bbox fuel =
  latLoop tileSize bbox fuel (south bbox) [].
Proof.
  intros Hspan. unfold getTilesWith.
  replace (Qle_bool (latSpan bbox) threshold && Qle_bool (lonSpan bbox) threshold)
    with false; [reflexivity |].
  symmetry. apply andb_false_iff.
  destruct Hspan as [H | H]; [left | right];
    apply not_true_iff_false; rewrite Qle_bool_iff; lra.
Qed.

(** X2.  No two tiles the planner returns share an interior point. *)
Theorem getTiles_tiles_disjoint (threshold tileSize : Q) (bbox : BBox)
  (fuel : nat) (tiles : list BBox) :
  0 < tileSize ->
  getTilesWith threshold tileSize bbox fuel = Some tiles ->
  ForallOrdPairs (fun a b => ~ overlap a b) tiles.
Proof.
  intros Hpos H. destruct (getTilesWith_cases _ _ _ _ _ H) as [-> | Hloop].
  - constructor; constructor.
  - destruct (latLoop_sweep tileSize bbox Hpos fuel _ _ _ Hloop)
      as (rows & -> & _ & Hord). cbn [app].
    clear - Hord. induction Hord as [| a l Ha _ IH]; constructor; [| exact IH].
    eapply List.Forall_impl; [| exact Ha]. intros b. apply before_no_overlap.
Qed.

Lemma getTiles_tiles_disjoint_witness :
  ForallOrdPairs (fun a b => ~ overlap a b)
    [mkBBox 0 0 6 6; mkBBox 0 6 6 10; mkBBox 6 0 10 6; mkBBox 6 6 10 10].
Proof.
  refine (getTiles_tiles_disjoint 6 6 (mkBBox 0 0 10 10) 4 _ _ _);
    reflexivity.
Defined.

Lemma lonLoop_never_returns tileSize bbox (fuel : nat) : forall lat lon tiles,
  tileSize <= 0 -> lon < east bbox ->
  lonLoop tileSize bbox fuel lat lon tiles = None.
Proof.
  induction fuel as [| fuel IH]; intros lat lon tiles Hneg Hlt; [reflexivity |].
  cbn [lonLoop]. rewrite (proj2 (Qltb_lt lon (east bbox)) Hlt).
  apply IH; [exact Hneg | lra].
Qed.

(** X4.  With a tile size of zero or less, a well-formed box above the
    threshold makes the planner loop forever: it returns for no amount
    of fuel. *)
Theorem getTiles_diverges (threshold tileSize : Q) (bbox : BBox) (fuel : nat) :
  valid_bbox bbox -> tileSize <= 0 ->
  threshold < latSpan bbox \/ threshold < lonSpan bbox ->
  getTilesWith threshold tileSize bbox fuel = None.
Proof.
  intros [Hsn Hwe] Hneg Hspan. rewrite (getTilesWith_above _ _ _ _ Hspan).
  destruct fuel as [| fuel]; [reflexivity |]. cbn [latLoop].
  rewrite (proj2 (Qltb_lt (south bbox) (north bbox)) Hsn).
  now rewrite lonLoop_never_returns.
Qed.

Lemma getTiles_diverges_witness :
  Baseline.getTiles 1000 (mkBBox 0 0 10 10) 0 = None.
Proof.
  refine (getTiles_diverges 0 0 (mkBBox 0 0 10 10) 1000 _ _ _).
  - split; reflexivity.
  - apply Qle_bool_iff. reflexivity.
  - left. reflexivity.
Defined.

(** ** Query client: the requests of one call *)

(** What one attempt does on an outcome: how its pass through the loop
    ends, and the waits it makes after the request. *)
Definition extendedReaction (attempt : nat) (o : Outcome) : Ctl * list Z :=
  match o with
  | Rejected _ => (Continue, [])
  | Responded r =>
      if (status r =? 429)%Z then
        (Continue, [(10000 * (Z.of_nat attempt + 1))%Z])
      else if ((status r =? 504) || (status r =? 503))%Z then (Break, [])
      else if negb (ok r) then (Continue, [])
      else match body r with
           | inl _ => (Continue, [])
           | inr d => (Return d, [])
           end
  end.

Definition baselineReaction (attempt : nat) (o : Outcome) : Ctl * list Z :=
  let failed :=
    if (attempt =? MAX_RETRIES - 1)%nat then (Break, [])
    else (Continue, [5000%Z]) in
  match o with
  | Rejected _ => failed
  | Responded r =>
      if (status r =? 429)%Z then
        (Continue, [(15000 * (Z.of_nat attempt + 1))%Z])
      else if (500 <=? status r)%Z then (Break, [])
      else if negb (ok r) then (Continue, [5000%Z])
      else match body r with
           | inl _ => failed
           | inr d => (Return d, [])
           end
  end.

(** The world after one request and the waits that follow it. *)
Definition afterAttempt (endpoint : string) (query : Query) (waits : list Z)
  (w : World) : World :=
  mkWorld (net w) (S (clock w))
    (log w ++ EFetch endpoint query :: map ESleep waits).

Lemma extendedAttempt_reacts endpoint query attempt w :
  extendedAttempt endpoint query attempt w =
  (inr (fst (extendedReaction attempt (net w (clock w)))),
   afterAttempt endpoint query
     (snd (extendedReaction attempt (net w (clock w)))) w).
Proof.
  unfold extendedAttempt, tryCatch, Extended.attemptBody,
    Extended.attemptCatch, bind, fetch, extendedReaction, afterAttempt.
  destruct (net w (clock w)) as [e | r]; cbn; [reflexivity |].
  destruct (status r =? 429)%Z; cbn;
    [now rewrite <- app_assoc |].
  destruct ((status r =? 504) || (status r =? 503))%Z; cbn; [reflexivity |].
  destruct (ok r); cbn; [| reflexivity].
  unfold json. destruct (body r); reflexivity.
Qed.

Lemma baselineAttempt_reacts endpoint query attempt w :
  baselineAttempt endpoint query attempt w =
  (inr (fst (baselineReaction attempt (net w (clock w)))),
   afterAttempt endpoint query
     (snd (baselineReaction attempt (net w (clock w)))) w).
Proof.
  unfold baselineAttempt, tryCatch, Baseline.attemptBody,
    Baseline.attemptCatch, bind, fetch, baselineReaction, afterAttempt.
  destruct (net w (clock w)) as [e | r].
  { destruct (attempt =? MAX_RETRIES - 1)%nat; cbn;
      [reflexivity | now rewrite <- app_assoc]. }
  cbn [status]. destruct (status r =? 429)%Z;
    [cbn; now rewrite <- app_assoc |].
  destruct (500 <=? status r)%Z; [reflexivity |].
  destruct (ok r); cbn [negb]; [| cbn; now rewrite <- app_assoc].
  unfold json. destruct (body r); [| reflexivity].
  destruct (attempt =? MAX_RETRIES - 1)%nat; cbn;
    [reflexivity | now rewrite <- app_assoc].
Qed.

Lemma extendedReaction_returned attempt o :
  returned (fst (extendedReaction attempt o)) = delivered o.
Proof.
  unfold extendedReaction, delivered. destruct o as [e | r]; [reflexivity |].
  destruct (Z.eqb_spec (status r) 429); [not_ok r; reflexivity |].
  destruct (Z.eqb_spec (status r) 504); [not_ok r; reflexivity |].
  destruct (Z.eqb_spec (status r) 503); [not_ok r; reflexivity |].
  cbn. destruct (ok r); [| reflexivity]. now destruct (body r).
Qed.

Lemma baselineReaction_returned attempt o :
  returned (fst (baselineReaction attempt o)) = delivered o.
Proof.
  unfold baselineReaction, delivered. destruct o as [e | r].
  { now destruct (attempt =? MAX_RETRIES - 1)%nat. }
  destruct (Z.eqb_spec (status r) 429); [not_ok r; reflexivity |].
  destruct (Z.leb_spec 500 (status r)); [not_ok r; reflexivity |].
  destruct (ok r); cbn [negb]; [| reflexivity].
  destruct (body r); [| reflexivity].
  now destruct (attempt =? MAX_RETRIES - 1)%nat.
Qed.

(** The endpoints and queries of the requests in a stretch of the log. *)
Fixpoint fetchesOf (events : list Event) : list (string * Query) :=
  match events with
  | [] => []
  | EFetch endpoint query :: rest => (endpoint, query) :: fetchesOf rest
  | ESleep _ :: rest => fetchesOf rest
  end.

(** The waits in a stretch of the log. *)
Fixpoint waitsOf (events : list Event) : list Z :=
  match events with
  | [] => []
  | EFetch _ _ :: rest => waitsOf rest
  | ESleep ms :: rest => ms :: waitsOf rest
  end.

Lemma fetchesOf_app (l1 l2 : list Event) :
  fetchesOf (l1 ++ l2) = fetchesOf l1 ++ fetchesOf l2.
Proof.
  induction l1 as [| [ep q | ms] l1 IH]; cbn; [reflexivity | | exact IH].
  now rewrite IH.
Qed.

Lemma fetchesOf_sleeps (waits : list Z) : fetchesOf (map ESleep waits) = [].
Proof. induction waits; cbn; auto. Qed.

Lemma waitsOf_app (l1 l2 : list Event) :
  waitsOf (l1 ++ l2) = waitsOf l1 ++ waitsOf l2.
Proof.
  induction l1 as [| [ep q | ms] l1 IH]; cbn; [reflexivity | exact IH |].
  now rewrite IH.
Qed.

Lemma waitsOf_sleeps (waits : list Z) : waitsOf (map ESleep waits) = waits.
Proof. induction waits; cbn; [reflexivity | now f_equal]. Qed.

Section ClientRun.

(** One attempt of either variant, and its table of reactions. *)
Variable attemptOf : string -> Query -> nat -> IO Ctl.
Variable react : nat -> Outcome -> Ctl * list Z.
Hypothesis attemptOf_reacts : forall endpoint query attempt w,
  attemptOf endpoint query attempt w =
  (inr (fst (react attempt (net w (clock w)))),
   afterAttempt endpoint query (snd (react attempt (net w (clock w)))) w).

(** The reaction to the [k]-th request from [w] on, made as attempt
    number [attempt + k]. *)
Definition reactionAt (w : World) (attempt k : nat) : Ctl * list Z :=
  react (attempt + k) (net w (clock w + k)).

Lemma reactionAt_next endpoint query waits w attempt k :
  reactionAt (afterAttempt endpoint query waits w) (S attempt) k =
  reactionAt w attempt (S k).
Proof.
  unfold reactionAt. cbn [net clock afterAttempt].
  now rewrite !Nat.add_succ_r.
Qed.

(** The events of [n] attempts in a row: each its request, then its
    waits. *)
Definition attemptEvents (endpoint : string) (query : Query) (w : World)
  (attempt n : nat) : list Event :=
  concat (map (fun k => EFetch endpoint query ::
                        map ESleep (snd (reactionAt w attempt k)))
            (seq 0 n)).

Lemma attemptEvents_next endpoint query waits w attempt n :
  EFetch endpoint query :: map ESleep (snd (reactionAt w attempt 0)) ++
  attemptEvents endpoint query (afterAttempt endpoint query waits w)
    (S attempt) n =
  attemptEvents endpoint query w attempt (S n).
Proof.
  unfold attemptEvents. cbn [seq map concat app]. f_equal. f_equal.
  rewrite <- seq_shift, map_map. f_equal. apply map_ext.
  intros k. now rewrite reactionAt_next.
Qed.

(** The loop over the attempts makes [n] requests: the reactions to all
    but the last are [Continue], and the loop ends on the first other
    reaction or when the attempts run out. *)
Lemma forAttempts_run endpoint query (remaining : nat) : forall attempt w,
  exists r w' (n : nat),
    forAttempts (attemptOf endpoint query) remaining attempt w = (inr r, w') /\
    net w' = net w /\ clock w' = (clock w + n)%nat /\
    (n <= remaining)%nat /\ ((0 < remaining)%nat -> (0 < n)%nat) /\
    log w' = log w ++ attemptEvents endpoint query w attempt n /\
    (forall k, (S k < n)%nat -> fst (reactionAt w attempt k) = Continue) /\
    ((n < remaining)%nat ->
     fst (reactionAt w attempt (n - 1)) <> Continue) /\
    r = match n with
        | O => None
        | S m => returned (fst (reactionAt w attempt m))
        end.
Proof.
  induction remaining as [| remaining IH]; intros attempt w; cbn [forAttempts].
  - exists None, w, 0%nat. cbn. rewrite app_nil_r, Nat.add_0_r.
    repeat split; auto; lia.
  - unfold bind. rewrite attemptOf_reacts.
    set (waits := snd (react attempt (net w (clock w)))).
    set (w1 := afterAttempt endpoint query waits w).
    assert (H0 : react attempt (net w (clock w)) = reactionAt w attempt 0).
    { unfold reactionAt. now rewrite !Nat.add_0_r. }
    assert (Hone : log w1 = log w ++ attemptEvents endpoint query w attempt 1).
    { unfold w1, afterAttempt, attemptEvents, waits. cbn.
      now rewrite app_nil_r, H0. }
    destruct (fst (react attempt (net w (clock w)))) as [| | d] eqn:Hctl.
    + destruct (IH (S attempt) w1)
        as (r & w2 & n & E & Hn & Hc & Hle & Hpos & Hl & Hk & Hlast & Hr).
      exists r, w2, (S n).
      split; [exact E |]. split; [exact Hn |].
      split; [rewrite Hc; cbn; lia |]. split; [lia |]. split; [lia |].
      split.
      { rewrite Hl. unfold w1 at 1. unfold afterAttempt. cbn [log].
        rewrite <- app_assoc. f_equal. cbn [app]. f_equal.
        rewrite <- (attemptEvents_next endpoint query waits).
        unfold waits. now rewrite H0. }
      split.
      { intros [| k] Hlt; [now rewrite <- H0 |].
        rewrite <- (reactionAt_next endpoint query waits).
        apply Hk. lia. }
      split.
      { intros Hlt. destruct n as [| n]; [specialize (Hpos ltac:(lia)); lia |].
        replace (S (S n) - 1)%nat with (S n) by lia.
        rewrite <- (reactionAt_next endpoint query waits).
        replace n with (S n - 1)%nat at 1 by lia. apply Hlast. lia. }
      destruct n as [| n];
        [| rewrite Hr; now rewrite <- (reactionAt_next endpoint query waits)].
      subst r. rewrite <- H0, Hctl. reflexivity.
    + exists None, w1, 1%nat.
      split; [reflexivity |]. split; [reflexivity |].
      split; [cbn; lia |]. split; [lia |]. split; [lia |].
      split; [exact Hone |].
      split; [intros k Hk; lia |].
      split; [intros _; cbn; rewrite <- H0, Hctl; discriminate |].
      now rewrite <- H0, Hctl.
    + exists (Some d), w1, 1%nat.
      split; [reflexivity |]. split; [reflexivity |].
      split; [cbn; lia |]. split; [lia |]. split; [lia |].
      split; [exact Hone |].
      split; [intros k Hk; lia |].
      split; [intros _; cbn; rewrite <- H0, Hctl; discriminate |].
      now rewrite <- H0, Hctl.
Qed.

End ClientRun.

Definition mirrorEndpoint : string :=
  "https://overpass.kumi.systems/api/interpreter".

(** The world [w] with [n] more requests made. *)
Definition later (w : World) (n : nat) : World :=
  mkWorld (net w) (clock w + n) (log w).

Lemma fetchesOf_attemptEvents react endpoint query w attempt n :
  fetchesOf (attemptEvents react endpoint query w attempt n) =
  repeat (endpoint, query) n.
Proof.
  unfold attemptEvents. generalize 0%nat.
  induction n as [| n IH]; intros start; cbn; [reflexivity |].
  now rewrite fetchesOf_app, fetchesOf_sleeps, IH.
Qed.

Lemma world_eq (w : World) net0 clock0 log0 :
  net w = net0 -> clock w = clock0 -> log w = log0 ->
  w = mkWorld net0 clock0 log0.
Proof. destruct w. cbn. now intros -> -> ->. Qed.

Section ClientCall.

Variable attemptOf : string -> Query -> nat -> IO Ctl.
Variable react : nat -> Outcome -> Ctl * list Z.
Hypothesis attemptOf_reacts : forall endpoint query attempt w,
  attemptOf endpoint query attempt w =
  (inr (fst (react attempt (net w (clock w)))),
   afterAttempt endpoint query (snd (react attempt (net w (clock w)))) w).
Hypothesis react_returned : forall attempt o,
  returned (fst (react attempt o)) = delivered o.

Local Abbreviation call query :=
  (forEndpoints
     (fun endpoint => forAttempts (attemptOf endpoint query) MAX_RETRIES 0)
     OVERPASS_ENDPOINTS).

Lemma reactionAt_later (w w1 : World) (a k : nat) :
  net w1 = net w -> clock w1 = (clock w + a)%nat ->
  reactionAt react w1 0 k = reactionAt react (later w a) 0 k.
Proof.
  intros Hn Hc. unfold reactionAt, later. cbn [net clock]. now rewrite Hn, Hc.
Qed.

Lemma attemptEvents_later endpoint query (w w1 : World) (a n : nat) :
  net w1 = net w -> clock w1 = (clock w + a)%nat ->
  attemptEvents react endpoint query w1 0 n =
  attemptEvents react endpoint query (later w a) 0 n.
Proof.
  intros Hn Hc. unfold attemptEvents. f_equal. apply map_ext. intros k.
  now rewrite (reactionAt_later w w1 a k Hn Hc).
Qed.

(** One call: [a] requests to the primary endpoint, then [b] to the
    mirror, none when the primary delivered. *)
Lemma call_run query w :
  exists d w' (a b : nat),
    call query w = (inr d, w') /\
    net w' = net w /\ clock w' = (clock w + a + b)%nat /\
    (1 <= a <= 3)%nat /\ (b <= 3)%nat /\
    log w' = log w ++ attemptEvents react primaryEndpoint query w 0 a ++
             attemptEvents react mirrorEndpoint query (later w a) 0 b /\
    (forall k, (S k < a)%nat -> fst (reactionAt react w 0 k) = Continue) /\
    ((a < 3)%nat -> fst (reactionAt react w 0 (a - 1)) <> Continue) /\
    (forall k, (S k < b)%nat ->
       fst (reactionAt react (later w a) 0 k) = Continue) /\
    ((0 < b < 3)%nat ->
     fst (reactionAt react (later w a) 0 (b - 1)) <> Continue) /\
    match returned (fst (reactionAt react w 0 (a - 1))) with
    | Some d0 => b = 0%nat /\ d = d0
    | None =>
        (0 < b)%nat /\
        d = match returned (fst (reactionAt react (later w a) 0 (b - 1))) with
            | Some d0 => d0
            | None => DNull
            end
    end.
Proof.
  cbn [forEndpoints OVERPASS_ENDPOINTS]. unfold bind at 1.
  destruct (forAttempts_run attemptOf react attemptOf_reacts primaryEndpoint
              query MAX_RETRIES 0%nat w)
    as (r & w1 & a & E & Hn & Hc & Hle & Hpos & Hl & Hk & Hlast & Hr).
  change ("https://overpass-api.de/api/interpreter"%string) with primaryEndpoint.
  rewrite E. specialize (Hpos ltac:(unfold MAX_RETRIES; lia)).
  unfold MAX_RETRIES in Hle, Hlast.
  destruct a as [| a]; [lia |]. replace (S a - 1)%nat with a in * by lia.
  destruct r as [d |].
  - exists d, w1, (S a), 0%nat. replace (S a - 1)%nat with a by lia.
    split; [reflexivity |]. split; [exact Hn |].
    split; [lia |]. split; [lia |]. split; [lia |].
    split; [rewrite Hl; cbn; now rewrite app_nil_r |].
    split; [exact Hk |]. split; [exact Hlast |].
    split; [intros; lia |]. split; [intros; lia |].
    rewrite <- Hr. auto.
  - unfold bind at 1.
    destruct (forAttempts_run attemptOf react attemptOf_reacts mirrorEndpoint
                query MAX_RETRIES 0%nat w1)
      as (r2 & w2 & b & E2 & Hn2 & Hc2 & Hle2 & Hpos2 & Hl2 & Hk2 & Hlast2 & Hr2).
    change ("https://overpass.kumi.systems/api/interpreter"%string)
      with mirrorEndpoint.
    rewrite E2. specialize (Hpos2 ltac:(unfold MAX_RETRIES; lia)).
    unfold MAX_RETRIES in Hle2, Hlast2.
    destruct b as [| b]; [lia |]. replace (S b - 1)%nat with b in * by lia.
    exists (match r2 with Some d => d | None => DNull end), w2, (S a), (S b).
    replace (S a - 1)%nat with a by lia. replace (S b - 1)%nat with b by lia.
    split; [now destruct r2 |]. split; [congruence |].
    split; [lia |]. split; [lia |]. split; [lia |].
    split.
    { rewrite Hl2, Hl, <- app_assoc. f_equal. f_equal.
      now apply attemptEvents_later. }
    split; [exact Hk |]. split; [exact Hlast |].
    split.
    { intros k Hlt. rewrite <- (reactionAt_later w w1 (S a) k Hn Hc).
      now apply Hk2. }
    split.
    { intros Hlt. rewrite <- (reactionAt_later w w1 (S a) _ Hn Hc).
      apply Hlast2. lia. }
    rewrite <- Hr. split; [lia |].
    now rewrite <- (reactionAt_later w w1 (S a) _ Hn Hc), <- Hr2.
Qed.

End ClientCall.

Section ClientCallFacts.

Variable attemptOf : string -> Query -> nat -> IO Ctl.
Variable react : nat -> Outcome -> Ctl * list Z.
Hypothesis attemptOf_reacts : forall endpoint query attempt w,
  attemptOf endpoint query attempt w =
  (inr (fst (react attempt (net w (clock w)))),
   afterAttempt endpoint query (snd (react attempt (net w (clock w)))) w).
Hypothesis react_returned : forall attempt o,
  returned (fst (react attempt o)) = delivered o.

Local Abbreviation call query :=
  (forEndpoints
     (fun endpoint => forAttempts (attemptOf endpoint query) MAX_RETRIES 0)
     OVERPASS_ENDPOINTS).

Lemma delivered_reactionAt w attempt k :
  returned (fst (reactionAt react w attempt k)) =
  delivered (net w (clock w + k)).
Proof. unfold reactionAt. apply react_returned. Qed.

Lemma call_requests query w :
  exists d w' (a b : nat) events,
    call query w = (inr d, w') /\
    net w' = net w /\ clock w' = (clock w + a + b)%nat /\
    (1 <= a <= 3)%nat /\ (b <= 3)%nat /\
    log w' = log w ++ events /\
    fetchesOf events =
      repeat (primaryEndpoint, query) a ++ repeat (mirrorEndpoint, query) b.
Proof.
  destruct (call_run attemptOf react attemptOf_reacts query w)
    as (d & w' & a & b & E & Hn & Hc & Ha & Hb & Hl & _).
  exists d, w', a, b. eexists. repeat split; eauto; try lia.
  now rewrite fetchesOf_app, !fetchesOf_attemptEvents.
Qed.

Lemma call_first_delivery query w :
  exists d w' (n : nat),
    call query w = (inr d, w') /\
    clock w' = (clock w + n)%nat /\ (1 <= n <= 6)%nat /\
    (forall k, (S k < n)%nat -> delivered (net w (clock w + k)) = None) /\
    d = match delivered (net w (clock w + (n - 1))) with
        | Some d0 => d0
        | None => DNull
        end.
Proof.
  destruct (call_run attemptOf react attemptOf_reacts query w)
    as (d & w' & a & b & E & Hn & Hc & Ha & Hb & Hl & Hk & _ & Hk2 & _ & Hd).
  exists d, w', (a + b)%nat. split; [exact E |].
  split; [lia |]. split; [lia |].
  rewrite delivered_reactionAt in Hd.
  assert (Hmirror : forall k,
            delivered (net w (clock w + (a + k))) =
            returned (fst (reactionAt react (later w a) 0 k))).
  { intros k. rewrite delivered_reactionAt. unfold later. cbn [net clock].
    now rewrite Nat.add_assoc. }
  split.
  - intros k Hlt. destruct (Nat.lt_ge_cases (S k) a) as [H1 | H1].
    + rewrite <- delivered_reactionAt with (attempt := 0%nat).
      now rewrite (Hk k H1).
    + destruct (Nat.eq_dec (S k) a) as [H2 | H2].
      * replace k with (a - 1)%nat by lia.
        destruct (delivered (net w (clock w + (a - 1)))); [| reflexivity].
        destruct Hd as [-> _]. lia.
      * replace k with (a + (k - a))%nat by lia. rewrite Hmirror.
        rewrite Hk2; [reflexivity | lia].
  - destruct (delivered (net w (clock w + (a - 1)))) as [d0 |] eqn:Hlast.
    + destruct Hd as [-> ->]. rewrite Nat.add_0_r. now rewrite Hlast.
    + destruct Hd as [Hpos ->].
      replace (a + b - 1)%nat with (a + (b - 1))%nat by lia.
      now rewrite Hmirror.
Qed.

(** When the first two reactions at each endpoint are [Continue] and the
    third does not return, the call makes all six requests and gives
    [null]. *)
Lemma call_exhausts query w :
  (forall k, (k < 2)%nat -> fst (reactionAt react w 0 k) = Continue) ->
  returned (fst (reactionAt react w 0 2)) = None ->
  (forall k, (k < 2)%nat -> fst (reactionAt react (later w 3) 0 k) = Continue) ->
  returned (fst (reactionAt react (later w 3) 0 2)) = None ->
  call query w =
  (inr DNull,
   mkWorld (net w) (clock w + 6)
     (log w ++ attemptEvents react primaryEndpoint query w 0 3 ++
      attemptEvents react mirrorEndpoint query (later w 3) 0 3)).
Proof.
  intros H1 H1' H2 H2'.
  destruct (call_run attemptOf react attemptOf_reacts query w)
    as (d & w' & a & b & E & Hn & Hc & Ha & Hb & Hl & _ & Hla & _ & Hlb & Hd).
  assert (a = 3%nat) as ->.
  { destruct (Nat.eq_dec a 3%nat) as [| Hne]; [assumption |].
    exfalso. apply Hla; [lia |]. apply H1. lia. }
  cbn [Nat.sub] in Hd. rewrite H1' in Hd. destruct Hd as [Hpos Hd].
  assert (b = 3%nat) as ->.
  { destruct (Nat.eq_dec b 3%nat) as [| Hne]; [assumption |].
    exfalso. apply Hlb; [lia |]. apply H2. lia. }
  cbn [Nat.sub] in Hd. rewrite H2' in Hd. subst d.
  rewrite E. f_equal. apply world_eq; [exact Hn | lia | exact Hl].
Qed.

End ClientCallFacts.

(** A call makes its requests in this order: one to three to the
    primary endpoint, then none to three to the mirror. *)
Definition requests_in_order (call : IO Data) (query : Query) (w : World)
  : Prop :=
  exists d w' (a b : nat) events,
    call w = (inr d, w') /\
    net w' = net w /\ clock w' = (clock w + a + b)%nat /\
    (1 <= a <= 3)%nat /\ (b <= 3)%nat /\
    log w' = log w ++ events /\
    fetchesOf events =
      repeat (primaryEndpoint, query) a ++ repeat (mirrorEndpoint, query) b.

(** X5.  One call of the query client, in either variant and in every
    world, makes between one and six requests, all with its query: one
    to three to the primary endpoint and then at most three to the
    mirror. *)
Theorem queryOverpass_requests (query : Query) (w : World) :
  requests_in_order (Extended.queryOverpass query) query w /\
  requests_in_order (Baseline.queryOverpass query) query w.
Proof.
  split.
  - exact (call_requests extendedAttempt extendedReaction
             extendedAttempt_reacts query w).
  - exact (call_requests baselineAttempt baselineReaction
             baselineAttempt_reacts query w).
Qed.

(** A call stops at the first request that delivers data and returns
    that data; it returns [null] when no request delivered. *)
Definition stops_at_first_delivery (call : IO Data) (w : World) : Prop :=
  exists d w' (n : nat),
    call w = (inr d, w') /\
    clock w' = (clock w + n)%nat /\ (1 <= n <= 6)%nat /\
    (forall k, (S k < n)%nat -> delivered (net w (clock w + k)) = None) /\
    d = match delivered (net w (clock w + (n - 1))) with
        | Some d0 => d0
        | None => DNull
        end.

(** X6.  The query client of either variant returns the data of the
    first of its requests that delivers data (a successful status with a
    body that parses) and makes no request after it; when none delivers
    it returns [null]. *)
Theorem queryOverpass_first_delivery (query : Query) (w : World) :
  stops_at_first_delivery (Extended.queryOverpass query) w /\
  stops_at_first_delivery (Baseline.queryOverpass query) w.
Proof.
  split.
  - exact (call_first_delivery extendedAttempt extendedReaction
             extendedAttempt_reacts extendedReaction_returned query w).
  - exact (call_first_delivery baselineAttempt baselineReaction
             baselineAttempt_reacts baselineReaction_returned query w).
Qed.

(** The outcomes of the next six requests all satisfy [P]. *)
Definition next_six (P : Outcome -> Prop) (w : World) : Prop :=
  forall n, (clock w <= n < clock w + 6)%nat -> P (net w n).

Definition rateLimited (o : Outcome) : Prop :=
  match o with
  | Responded r => status r = 429%Z
  | Rejected _ => False
  end.

Definition rejected (o : Outcome) : Prop :=
  match o with
  | Responded _ => False
  | Rejected _ => True
  end.

(** A status that is neither a success, nor 429, nor 500 or more. *)
Definition refused (o : Outcome) : Prop :=
  match o with
  | Responded r =>
      (status r < 500 /\ status r <> 429 /\ ~ (200 <= status r <= 299))%Z
  | Rejected _ => False
  end.

Lemma extendedReaction_rateLimited attempt o :
  rateLimited o ->
  extendedReaction attempt o =
  (Continue, [(10000 * (Z.of_nat attempt + 1))%Z]).
Proof.
  destruct o as [e | r]; cbn; [intros [] | intros ->]. reflexivity.
Qed.

Lemma baselineReaction_rateLimited attempt o :
  rateLimited o ->
  baselineReaction attempt o =
  (Continue, [(15000 * (Z.of_nat attempt + 1))%Z]).
Proof.
  destruct o as [e | r]; cbn; [intros [] | intros ->]. reflexivity.
Qed.

Lemma extendedReaction_rejected attempt o :
  rejected o -> extendedReaction attempt o = (Continue, []).
Proof. destruct o as [e | r]; cbn; [reflexivity | intros []]. Qed.

Lemma baselineReaction_rejected attempt o :
  rejected o ->
  baselineReaction attempt o =
  if (attempt =? 2)%nat then (Break, []) else (Continue, [5000%Z]).
Proof. destruct o as [e | r]; cbn; [reflexivity | intros []]. Qed.

Lemma refused_not_ok r : refused (Responded r) -> ok r = false.
Proof.
  cbn. intros (_ & _ & H). apply not_true_iff_false. intros Hok.
  apply H, ok_range, Hok.
Qed.

Lemma extendedReaction_refused attempt o :
  refused o -> extendedReaction attempt o = (Continue, []).
Proof.
  destruct o as [e | r]; [intros [] |]. intros H.
  pose proof (refused_not_ok r H) as Hok. cbn in H. destruct H as (H5 & H4 & _).
  unfold extendedReaction.
  destruct (Z.eqb_spec (status r) 429); [contradiction |].
  destruct (Z.eqb_spec (status r) 504); [lia |].
  destruct (Z.eqb_spec (status r) 503); [lia |].
  cbn. now rewrite Hok.
Qed.

Lemma baselineReaction_refused attempt o :
  refused o -> baselineReaction attempt o = (Continue, [5000%Z]).
Proof.
  destruct o as [e | r]; [intros [] |]. intros H.
  pose proof (refused_not_ok r H) as Hok. cbn in H. destruct H as (H5 & H4 & _).
  unfold baselineReaction.
  destruct (Z.eqb_spec (status r) 429); [contradiction |].
  destruct (Z.leb_spec 500 (status r)); [lia |].
  now rewrite Hok.
Qed.

(** Brings a call of either variant into the shape of the run lemmas. *)
Ltac as_call :=
  change (Extended.queryOverpass ?q)
    with (forEndpoints
            (fun endpoint => forAttempts (extendedAttempt endpoint q) MAX_RETRIES 0)
            OVERPASS_ENDPOINTS);
  change (Baseline.queryOverpass ?q)
    with (forEndpoints
            (fun endpoint => forAttempts (baselineAttempt endpoint q) MAX_RETRIES 0)
            OVERPASS_ENDPOINTS).

(** X7.  When each of the next six requests is answered with status
    429, the query client asks each endpoint three times, waits after
    every answer 10, 20 and 30 seconds (extended variant) or 15, 30 and
    45 seconds (baseline variant), and returns [null]. *)
Theorem rate_limit_schedule (query : Query) (w : World) :
  next_six rateLimited w ->
  Extended.queryOverpass query w =
  (inr DNull,
   mkWorld (net w) (clock w + 6)
     (log w ++
      [EFetch primaryEndpoint query; ESleep 10000;
       EFetch primaryEndpoint query; ESleep 20000;
       EFetch primaryEndpoint query; ESleep 30000;
       EFetch mirrorEndpoint query; ESleep 10000;
       EFetch mirrorEndpoint query; ESleep 20000;
       EFetch mirrorEndpoint query; ESleep 30000])) /\
  Baseline.queryOverpass query w =
  (inr DNull,
   mkWorld (net w) (clock w + 6)
     (log w ++
      [EFetch primaryEndpoint query; ESleep 15000;
       EFetch primaryEndpoint query; ESleep 30000;
       EFetch primaryEndpoint query; ESleep 45000;
       EFetch mirrorEndpoint query; ESleep 15000;
       EFetch mirrorEndpoint query; ESleep 30000;
       EFetch mirrorEndpoint query; ESleep 45000])).
Proof.
  intros H. unfold next_six in H. as_call. split.
  - rewrite (call_exhausts extendedAttempt extendedReaction
               extendedAttempt_reacts query w);
      try (intros k Hk); unfold reactionAt, later; cbn [net clock];
      try (rewrite extendedReaction_rateLimited by (apply H; lia);
           reflexivity).
    unfold attemptEvents, reactionAt. cbn [seq map concat net clock Nat.add app].
    rewrite !extendedReaction_rateLimited by (apply H; lia).
    reflexivity.
  - rewrite (call_exhausts baselineAttempt baselineReaction
               baselineAttempt_reacts query w);
      try (intros k Hk); unfold reactionAt, later; cbn [net clock];
      try (rewrite baselineReaction_rateLimited by (apply H; lia);
           reflexivity).
    unfold attemptEvents, reactionAt. cbn [seq map concat net clock Nat.add app].
    rewrite !baselineReaction_rateLimited by (apply H; lia).
    reflexivity.
Qed.

Definition rateLimitWorld : World :=
  mkWorld (fun _ => Responded (mkResponse 429 (inl (OtherError "")))) 0 [].

Lemma rate_limit_schedule_witness :
  waitsOf (log (snd (Extended.queryOverpass (TownQuery (mkBBox 0 0 5 5))
                       rateLimitWorld))) =
  [10000; 20000; 30000; 10000; 20000; 30000]%Z.
Proof.
  rewrite (proj1 (rate_limit_schedule (TownQuery (mkBBox 0 0 5 5))
                    rateLimitWorld (fun n _ => eq_refl))).
  reflexivity.
Defined.

(** X8.  When each of the next six requests fails in transport (the
    fetch rejects or times out), the extended variant asks each endpoint
    three times with no wait in between; the baseline variant waits five
    seconds after the first and the second failure at an endpoint and
    not after the third.  Both return [null]. *)
Theorem transport_failure_schedule (query : Query) (w : World) :
  next_six rejected w ->
  Extended.queryOverpass query w =
  (inr DNull,
   mkWorld (net w) (clock w + 6)
     (log w ++
      [EFetch primaryEndpoint query; EFetch primaryEndpoint query;
       EFetch primaryEndpoint query;
       EFetch mirrorEndpoint query; EFetch mirrorEndpoint query;
       EFetch mirrorEndpoint query])) /\
  Baseline.queryOverpass query w =
  (inr DNull,
   mkWorld (net w) (clock w + 6)
     (log w ++
      [EFetch primaryEndpoint query; ESleep 5000;
       EFetch primaryEndpoint query; ESleep 5000;
       EFetch primaryEndpoint query;
       EFetch mirrorEndpoint query; ESleep 5000;
       EFetch mirrorEndpoint query; ESleep 5000;
       EFetch mirrorEndpoint query])).
Proof.
  intros H. unfold next_six in H. as_call. split.
  - rewrite (call_exhausts extendedAttempt extendedReaction
               extendedAttempt_reacts query w);
      try (intros k Hk); unfold reactionAt, later; cbn [net clock];
      try (rewrite extendedReaction_rejected by (apply H; lia);
           reflexivity).
    unfold attemptEvents, reactionAt. cbn [seq map concat net clock Nat.add app].
    rewrite !extendedReaction_rejected by (apply H; lia).
    reflexivity.
  - rewrite (call_exhausts baselineAttempt baselineReaction
               baselineAttempt_reacts query w);
      try (intros k Hk); unfold reactionAt, later; cbn [net clock];
      try (rewrite baselineReaction_rejected by (apply H; lia);
           try (destruct k as [| [| k]]; [reflexivity | reflexivity | lia]);
           reflexivity).
    unfold attemptEvents, reactionAt. cbn [seq map concat net clock Nat.add app].
    rewrite !baselineReaction_rejected by (apply H; lia).
    reflexivity.
Qed.

Definition offlineWorld : World :=
  mkWorld (fun _ => Rejected AbortError) 0 [].

Lemma transport_failure_schedule_witness :
  waitsOf (log (snd (Baseline.queryOverpass (TownQuery (mkBBox 0 0 5 5))
                       offlineWorld))) =
  [5000; 5000; 5000; 5000]%Z.
Proof.
  rewrite (proj2 (transport_failure_schedule (TownQuery (mkBBox 0 0 5 5))
                    offlineWorld (fun n _ => I))).
  reflexivity.
Defined.

(** X9.  When each of the next six requests is answered with a status
    that is neither a success, nor 429, nor 500 or more, the extended
    variant asks each endpoint three times with no wait; the baseline
    variant waits five seconds after each of the six answers, the last
    one at each endpoint included.  Both return [null]. *)
Theorem refused_status_schedule (query : Query) (w : World) :
  next_six refused w ->
  Extended.queryOverpass query w =
  (inr DNull,
   mkWorld (net w) (clock w + 6)
     (log w ++
      [EFetch primaryEndpoint query; EFetch primaryEndpoint query;
       EFetch primaryEndpoint query;
       EFetch mirrorEndpoint query; EFetch mirrorEndpoint query;
       EFetch mirrorEndpoint query])) /\
  Baseline.queryOverpass query w =
  (inr DNull,
   mkWorld (net w) (clock w + 6)
     (log w ++
      [EFetch primaryEndpoint query; ESleep 5000;
       EFetch primaryEndpoint query; ESleep 5000;
       EFetch primaryEndpoint query; ESleep 5000;
       EFetch mirrorEndpoint query; ESleep 5000;
       EFetch mirrorEndpoint query; ESleep 5000;
       EFetch mirrorEndpoint query; ESleep 5000])).
Proof.
  intros H. unfold next_six in H. as_call. split.
  - rewrite (call_exhausts extendedAttempt extendedReaction
               extendedAttempt_reacts query w);
      try (intros k Hk); unfold reactionAt, later; cbn [net clock];
      try (rewrite extendedReaction_refused by (apply H; lia);
           reflexivity).
    unfold attemptEvents, reactionAt. cbn [seq map concat net clock Nat.add app].
    rewrite !extendedReaction_refused by (apply H; lia).
    reflexivity.
  - rewrite (call_exhausts baselineAttempt baselineReaction
               baselineAttempt_reacts query w);
      try (intros k Hk); unfold reactionAt, later; cbn [net clock];
      try (rewrite baselineReaction_refused by (apply H; lia);
           reflexivity).
    unfold attemptEvents, reactionAt. cbn [seq map concat net clock Nat.add app].
    rewrite !baselineReaction_refused by (apply H; lia).
    reflexivity.
Qed.

Definition notFoundWorld : World :=
  mkWorld (fun _ => Responded (mkResponse 404 (inl (OtherError "")))) 0 [].

Lemma refused_status_schedule_witness :
  waitsOf (log (snd (Baseline.queryOverpass (TownQuery (mkBBox 0 0 5 5))
                       notFoundWorld))) =
  [5000; 5000; 5000; 5000; 5000; 5000]%Z.
Proof.
  assert (H : next_six refused notFoundWorld) by (intros n _; cbn; lia).
  rewrite (proj2 (refused_status_schedule (TownQuery (mkBBox 0 0 5 5))
                    notFoundWorld H)).
  reflexivity.
Defined.

(** ** Railway collector: where the segments come from, and the pauses *)

(** What the tile loop can rely on in a call of the query client: the
    world moves on, the waits it makes are never the pause between
    tiles, and data with elements was delivered by one of its requests. *)
Definition client_facts (delay : Z) (call : IO Data) (w : World) : Prop :=
  exists d w' events,
    call w = (inr d, w') /\
    net w' = net w /\ (clock w <= clock w')%nat /\
    log w' = log w ++ events /\
    ~ In delay (waitsOf events) /\
    (d = DNull \/
     exists k, (clock w <= k < clock w')%nat /\ delivered (net w k) = Some d).

Lemma waitsOf_attemptEvents react endpoint query w attempt n x :
  In x (waitsOf (attemptEvents react endpoint query w attempt n)) ->
  exists a o, In x (snd (react a o)).
Proof.
  unfold attemptEvents. generalize 0%nat.
  induction n as [| n IH]; intros start; cbn; [intros [] |].
  rewrite waitsOf_app, waitsOf_sleeps. intros H.
  apply in_app_or in H as [H | H]; [unfold reactionAt in H; eauto |].
  eapply IH, H.
Qed.

Section ClientFacts.

Variable attemptOf : string -> Query -> nat -> IO Ctl.
Variable react : nat -> Outcome -> Ctl * list Z.
Variable delay : Z.
Hypothesis attemptOf_reacts : forall endpoint query attempt w,
  attemptOf endpoint query attempt w =
  (inr (fst (react attempt (net w (clock w)))),
   afterAttempt endpoint query (snd (react attempt (net w (clock w)))) w).
Hypothesis react_returned : forall attempt o,
  returned (fst (react attempt o)) = delivered o.
Hypothesis react_waits : forall attempt o, ~ In delay (snd (react attempt o)).

Lemma call_facts query w :
  client_facts delay
    (forEndpoints
       (fun endpoint => forAttempts (attemptOf endpoint query) MAX_RETRIES 0)
       OVERPASS_ENDPOINTS) w.
Proof.
  destruct (call_run attemptOf react attemptOf_reacts query w)
    as (d & w' & a & b & E & Hn & Hc & Ha & Hb & Hl & _).
  destruct (call_first_delivery attemptOf react attemptOf_reacts
              react_returned query w) as (d' & w'' & n & E' & Hc' & Hn' & _ & Hd).
  rewrite E in E'. injection E' as <- <-.
  eexists d, w', _. split; [exact E |]. split; [exact Hn |].
  split; [lia |]. split; [exact Hl |]. split.
  - rewrite waitsOf_app. intros H. apply in_app_or in H as [H | H];
      apply waitsOf_attemptEvents in H as (a' & o & H);
      exact (react_waits a' o H).
  - destruct (delivered (net w (clock w + (n - 1)))) as [d0 |] eqn:Hlast;
      [| now left].
    right. exists (clock w + (n - 1))%nat. split; [lia |]. now rewrite Hlast, Hd.
Qed.

End ClientFacts.

Lemma extended_client_facts query w :
  client_facts Extended.DELAY_BETWEEN_QUERIES_MS (Extended.queryOverpass query) w.
Proof.
  apply (call_facts extendedAttempt extendedReaction
           Extended.DELAY_BETWEEN_QUERIES_MS extendedAttempt_reacts
           extendedReaction_returned).
  intros attempt o. unfold extendedReaction, Extended.DELAY_BETWEEN_QUERIES_MS.
  destruct o as [e | r]; [intros [] |].
  destruct (status r =? 429)%Z; [cbn; lia |].
  destruct ((status r =? 504) || (status r =? 503))%Z; [intros [] |].
  destruct (negb (ok r)); [intros [] |]. destruct (body r); intros [].
Qed.

Lemma baseline_client_facts query w :
  client_facts Baseline.DELAY_MS (Baseline.queryOverpass query) w.
Proof.
  apply (call_facts baselineAttempt baselineReaction
           Baseline.DELAY_MS baselineAttempt_reacts
           baselineReaction_returned).
  intros attempt o. unfold baselineReaction, Baseline.DELAY_MS.
  assert (Hfailed : ~ In 8000%Z
            (snd (if (attempt =? MAX_RETRIES - 1)%nat
                  then (Break, []) else (Continue, [5000%Z])))).
  { destruct (attempt =? MAX_RETRIES - 1)%nat; cbn; lia. }
  destruct o as [e | r]; [exact Hfailed |].
  destruct (status r =? 429)%Z; [cbn; lia |].
  destruct (500 <=? status r)%Z; [intros [] |].
  destruct (negb (ok r)); [cbn; lia |].
  destruct (body r); [exact Hfailed | intros []].
Qed.

(** Among the indices [i .. i + n - 1] of a run over [total] tiles,
    those that are not the last index. *)
Definition pausesFrom (total i n : nat) : nat :=
  length (List.filter (fun j => (j <? total - 1)%nat) (seq i n)).

Lemma pausesFrom_all (n : nat) : pausesFrom n 0 n = (n - 1)%nat.
Proof.
  unfold pausesFrom. destruct n as [| n]; [reflexivity |].
  replace (S n - 1)%nat with n by lia.
  rewrite seq_S, List.filter_app, length_app. cbn [Nat.add List.filter length].
  rewrite Nat.ltb_irrefl. cbn [length].
  rewrite List.forallb_filter_id; [rewrite length_seq; lia |].
  apply forallb_forall. intros j Hj. apply in_seq in Hj.
  apply Nat.ltb_lt. lia.
Qed.

Section TileLoopTrace.

Variable query : Query -> IO Data.
Variable delay : Z.
Hypothesis query_facts : forall q w, client_facts delay (query q) w.

(** Whether the loop pauses after tile [i] of [total], without and with
    data. *)
Variables skipPause donePause : nat -> nat -> bool.

Definition pauseIf (b : bool) : IO unit := if b then sleep delay else ret tt.

Definition delayCount (events : list Event) : nat :=
  count_occ Z.eq_dec (waitsOf events) delay.

Lemma delayCount_app (l1 l2 : list Event) :
  delayCount (l1 ++ l2) = (delayCount l1 + delayCount l2)%nat.
Proof. unfold delayCount. now rewrite waitsOf_app, count_occ_app. Qed.

Lemma pauseIf_run (b : bool) (w : World) :
  exists w' events,
    pauseIf b w = (inr tt, w') /\ net w' = net w /\ clock w' = clock w /\
    log w' = log w ++ events /\
    delayCount events = if b then 1%nat else 0%nat.
Proof.
  destruct b; cbn.
  - eexists _, [ESleep delay]. repeat split. unfold delayCount. cbn.
    destruct (Z.eq_dec delay delay); [reflexivity | contradiction].
  - exists w, []. repeat split. now rewrite app_nil_r.
Qed.

(** A delivered element: part of the data that one of the requests
    between two worlds delivered. *)
Definition received (w w' : World) (el : Element) : Prop :=
  exists k batch,
    (clock w <= k < clock w')%nat /\
    delivered (net w k) = Some (DObj (Some batch)) /\ In el batch.

Lemma received_wider (w0 w w' w1 : World) (el : Element) :
  net w = net w0 -> (clock w0 <= clock w)%nat -> (clock w' <= clock w1)%nat ->
  received w w' el -> received w0 w1 el.
Proof.
  intros Hn H0 H1 (k & batch & Hk & Hd & Hin).
  exists k, batch. rewrite <- Hn. repeat split; auto; lia.
Qed.

Lemma tileLoopOf_trace (tiles : list BBox) : forall total i st w,
  exists els w' events,
    tileLoopOf query (fun total i => pauseIf (skipPause total i))
      (fun total i => pauseIf (donePause total i)) total i tiles st w =
    (inr (collectElements st els), w') /\
    net w' = net w /\ (clock w <= clock w')%nat /\
    log w' = log w ++ events /\
    (forall el, In el els -> received w w' el) /\
    (length (List.filter (fun j => skipPause total j && donePause total j)
               (seq i (length tiles))) <= delayCount events)%nat /\
    (delayCount events <=
     length (List.filter (fun j => skipPause total j || donePause total j)
               (seq i (length tiles))))%nat.
Proof.
  induction tiles as [| tile rest IH]; intros total i st w; cbn [tileLoopOf].
  - exists [], w, []. cbn. rewrite app_nil_r.
    repeat split; auto. intros el [].
  - unfold bind at 1.
    destruct (query_facts (RailwayQuery tile) w)
      as (d & w1 & ev1 & E & Hn1 & Hc1 & Hl1 & Hw1 & Hd).
    rewrite E.
    assert (H0 : delayCount ev1 = 0%nat)
      by (unfold delayCount; now apply count_occ_not_In).
    cbn [length seq List.filter].
    destruct (elementsOf d) as [els |] eqn:Hels; unfold bind at 1.
    + destruct (pauseIf_run (donePause total i) w1)
        as (w2 & ev2 & E2 & Hn2 & Hc2 & Hl2 & Hp2).
      rewrite E2.
      destruct (IH total (S i) (collectElements st els) w2)
        as (els' & w3 & ev3 & E3 & Hn3 & Hc3 & Hl3 & Hrec & Hlo & Hhi).
      exists (els ++ els'), w3, (ev1 ++ ev2 ++ ev3).
      rewrite collectElements_app. split; [exact E3 |].
      split; [congruence |]. split; [lia |].
      split; [rewrite Hl3, Hl2, Hl1; now rewrite <- !app_assoc |].
      split.
      { intros el Hel. apply in_app_or in Hel as [Hel | Hel].
        - destruct Hd as [-> | (k & Hk & Hd)]; [discriminate |].
          destruct d as [| [batch |]]; try discriminate.
          injection Hels as ->. exists k, els. repeat split; auto; lia.
        - apply (received_wider w w2 w3 w3 el); try lia; [congruence |].
          now apply Hrec. }
      rewrite !delayCount_app, H0, Hp2.
      destruct (skipPause total i), (donePause total i); cbn [andb orb length];
        lia.
    + destruct (pauseIf_run (skipPause total i) w1)
        as (w2 & ev2 & E2 & Hn2 & Hc2 & Hl2 & Hp2).
      rewrite E2.
      destruct (IH total (S i) st w2)
        as (els' & w3 & ev3 & E3 & Hn3 & Hc3 & Hl3 & Hrec & Hlo & Hhi).
      exists els', w3, (ev1 ++ ev2 ++ ev3).
      split; [exact E3 |].
      split; [congruence |]. split; [lia |].
      split; [rewrite Hl3, Hl2, Hl1; now rewrite <- !app_assoc |].
      split.
      { intros el Hel.
        apply (received_wider w w2 w3 w3 el); try lia; [congruence |].
        now apply Hrec. }
      rewrite !delayCount_app, H0, Hp2.
      destruct (skipPause total i), (donePause total i); cbn [andb orb length];
        lia.
Qed.

End TileLoopTrace.

Lemma extended_tileLoop_trace tiles total i st w :
  exists els w' events,
    Extended.tileLoop total i tiles st w = (inr (collectElements st els), w') /\
    net w' = net w /\ (clock w <= clock w')%nat /\
    log w' = log w ++ events /\
    (forall el, In el els -> received w w' el) /\
    (delayCount Extended.DELAY_BETWEEN_QUERIES_MS events <=
     pausesFrom total i (length tiles))%nat.
Proof.
  rewrite extended_tileLoop.
  destruct (tileLoopOf_trace Extended.queryOverpass
              Extended.DELAY_BETWEEN_QUERIES_MS extended_client_facts
              (fun _ _ => false) (fun total i => (i <? total - 1)%nat)
              tiles total i st w)
    as (els & w' & events & E & Hn & Hc & Hl & Hrec & _ & Hhi).
  exists els, w', events. split; [exact E |]. repeat split; auto.
Qed.

Lemma baseline_tileLoop_trace tiles total i st w :
  exists els w' events,
    Baseline.tileLoop total i tiles st w = (inr (collectElements st els), w') /\
    net w' = net w /\ (clock w <= clock w')%nat /\
    log w' = log w ++ events /\
    (forall el, In el els -> received w w' el) /\
    delayCount Baseline.DELAY_MS events = pausesFrom total i (length tiles).
Proof.
  rewrite baseline_tileLoop.
  destruct (tileLoopOf_trace Baseline.queryOverpass
              Baseline.DELAY_MS baseline_client_facts
              (fun total i => (i <? total - 1)%nat)
              (fun total i => (i <? total - 1)%nat)
              tiles total i st w)
    as (els & w' & events & E & Hn & Hc & Hl & Hrec & Hlo & Hhi).
  exists els, w', events. split; [exact E |]. repeat split; auto.
  unfold pausesFrom.
  rewrite (List.filter_ext _ (fun j => (j <? total - 1)%nat)) in Hlo
    by (intros j; apply andb_diag).
  rewrite (List.filter_ext _ (fun j => (j <? total - 1)%nat)) in Hhi
    by (intros j; apply orb_diag).
  lia.
Qed.

(** A segment of the collection was there before or is built from one
    of the elements, one with a geometry of two points or more. *)
Lemma collectElements_from (els : list Element) : forall st s,
  In s (allWays (collectElements st els)) ->
  In s (allWays st) \/
  exists el geometry,
    In el els /\ el_geometry el = Some geometry /\
    (2 <= length geometry)%nat /\ s = segmentOf el geometry.
Proof.
  unfold collectElements.
  induction els as [| el els IH]; intros st s Hs; cbn in Hs; [now left |].
  apply IH in Hs as [Hs | (el' & g & Hin & Hg & Hlen & ->)].
  - destruct (collectElement_cases st el) as ([E | (g & Hg & Hlen & _ & E)] & _);
      rewrite E in Hs; [now left |].
    apply in_app_or in Hs as [Hs | [<- | []]]; [now left |].
    right. exists el, g. repeat split; auto. now left.
  - right. exists el', g. repeat split; auto. now right.
Qed.

(** Every segment is the record of an element that a request of this
    run delivered. *)
Definition segments_received (run : IO (list RailwaySegment)) (w : World)
  : Prop :=
  exists segs w',
    run w = (inr segs, w') /\
    forall s, In s segs ->
      exists el geometry,
        received w w' el /\ el_geometry el = Some geometry /\
        (2 <= length geometry)%nat /\ s = segmentOf el geometry.

(** X10.  In every world, each segment that the railway collector of
    either variant returns is built from an element that one of the
    requests of this run delivered, an element with two points or more:
    it has that element's id, its railway tag (or "rail"), and its
    points, each rounded. *)
Theorem segments_come_from_elements (tiles : list BBox) (w : World) :
  segments_received (Extended.collectRailways tiles) w /\
  segments_received (Baseline.collectRailways tiles) w.
Proof.
  split.
  - unfold segments_received, Extended.collectRailways, bind.
    destruct (extended_tileLoop_trace tiles (length tiles) 0
                (mkCollected ∅ []) w)
      as (els & w' & events & E & _ & _ & _ & Hrec & _).
    rewrite E. eexists _, w'. split; [reflexivity |].
    intros s Hs. apply collectElements_from in Hs as [[] | (el & g & Hin & H)].
    exists el, g. split; [now apply Hrec | exact H].
  - unfold segments_received, Baseline.collectRailways, bind.
    destruct (baseline_tileLoop_trace tiles (length tiles) 0
                (mkCollected ∅ []) w)
      as (els & w' & events & E & _ & _ & _ & Hrec & _).
    rewrite E. eexists _, w'. split; [reflexivity |].
    intros s Hs. apply collectElements_from in Hs as [[] | (el & g & Hin & H)].
    exists el, g. split; [now apply Hrec | exact H].
Qed.

(** X11.  Between the tiles of one run the baseline collector pauses
    exactly [tiles.length - 1] times, whatever the queries return; the
    extended collector pauses at most that often (it skips the pause
    after a tile without data).  The waits of the query client are never
    counted: none of them has the length of the pause. *)
Theorem pauses_between_tiles (tiles : list BBox) (w : World) :
  (exists segs w' events,
     Baseline.collectRailways tiles w = (inr segs, w') /\
     log w' = log w ++ events /\
     count_occ Z.eq_dec (waitsOf events) Baseline.DELAY_MS =
       (length tiles - 1)%nat) /\
  (exists segs w' events,
     Extended.collectRailways tiles w = (inr segs, w') /\
     log w' = log w ++ events /\
     (count_occ Z.eq_dec (waitsOf events) Extended.DELAY_BETWEEN_QUERIES_MS
      <= length tiles - 1)%nat).
Proof.
  split.
  - unfold Baseline.collectRailways, bind.
    destruct (baseline_tileLoop_trace tiles (length tiles) 0
                (mkCollected ∅ []) w)
      as (els & w' & events & E & _ & _ & Hl & _ & Hcount).
    rewrite E. eexists _, w', events. split; [reflexivity |].
    split; [exact Hl |]. rewrite pausesFrom_all in Hcount. exact Hcount.
  - unfold Extended.collectRailways, bind.
    destruct (extended_tileLoop_trace tiles (length tiles) 0
                (mkCollected ∅ []) w)
      as (els & w' & events & E & _ & _ & Hl & _ & Hcount).
    rewrite E. eexists _, w', events. split; [reflexivity |].
    split; [exact Hl |]. rewrite pausesFrom_all in Hcount. exact Hcount.
Qed.

(** ** Railway collector: order and shadowing *)

Lemma collectElements_seen_from (els : list Element) : forall st id,
  id ∈ seenIds (collectElements st els) ->
  id ∈ seenIds st \/ In id (map el_id els).
Proof.
  unfold collectElements.
  induction els as [| el els IH]; intros st id H; cbn in H; [now left |].
  apply IH in H as [H | H]; [| right; now right].
  destruct (collectElement_cases st el) as (_ & _ & Hsub & _).
  apply Hsub, elem_of_union in H as [H | H]; [| now left].
  apply elem_of_singleton in H. right. left. now symmetry.
Qed.

(** An id that is seen and has no segment never gets one. *)
Lemma collectElements_shadowed (els : list Element) : forall st id,
  id ∈ seenIds st -> ~ In id (map seg_id (allWays st)) ->
  ~ In id (map seg_id (allWays (collectElements st els))).
Proof.
  unfold collectElements.
  induction els as [| el els IH]; intros st id Hseen Hno; cbn; [exact Hno |].
  destruct (collectElement_cases st el)
    as ([E | (g & _ & _ & Hnew & E)] & Hsub & _).
  - apply IH; [now apply Hsub | now rewrite E].
  - apply IH; [now apply Hsub |]. rewrite E, map_app. intros H.
    apply in_app_or in H as [H | [H | []]]; [contradiction |].
    cbn in H. subst id. contradiction.
Qed.

Lemma segmentsWithId_none (id : Z) (segs : list RailwaySegment) :
  ~ In id (map seg_id segs) -> segmentsWithId id segs = [].
Proof.
  unfold segmentsWithId. induction segs as [| s segs IH]; cbn; [reflexivity |].
  intros H. destruct (Z.eqb_spec (seg_id s) id) as [Heq | Hne].
  - exfalso. apply H. now left.
  - apply IH. intros Hin. apply H. now right.
Qed.

Lemma collectElements_first_degenerate (l1 l2 : list Element) (el : Element) :
  degenerate el ->
  (forall x, In x l1 -> el_id x <> el_id el) ->
  segmentsWithId (el_id el)
    (allWays (collectElements (mkCollected ∅ []) (l1 ++ el :: l2))) = [].
Proof.
  intros Hdeg Hfresh. apply segmentsWithId_none.
  rewrite collectElements_app.
  set (st1 := collectElements (mkCollected ∅ []) l1).
  assert (Hnew : el_id el ∉ seenIds st1).
  { intros H. apply collectElements_seen_from in H as [H | H]; [set_solver |].
    apply in_map_iff in H as (x & Hx & Hin). now apply (Hfresh x). }
  assert (Hok : collected_ok st1)
    by apply collectElements_ok, collected_ok_empty.
  change (collectElements st1 (el :: l2))
    with (collectElements (collectElement st1 el) l2).
  apply collectElements_shadowed.
  - destruct (collectElement_cases st1 el) as (_ & _ & _ & H). exact H.
  - rewrite (collectElement_degenerate st1 el Hdeg). intros H.
    apply in_map_iff in H as (s & Hid & Hs).
    destruct Hok as (_ & Hseen & _). apply Hnew. rewrite <- Hid. auto.
Qed.

(** X12.  The id of an element is marked as seen before its geometry is
    looked at.  So when the first copy of a feature that the run
    receives has a missing geometry or fewer than two points, the
    feature gets no segment at all, valid later copies included. *)
Theorem degenerate_copy_shadows (tiles : list BBox)
  (batches : list (list Element)) (w : World) (l1 l2 : list Element)
  (el : Element) :
  length batches = length tiles -> answers w batches ->
  concat batches = l1 ++ el :: l2 ->
  degenerate el ->
  (forall x, In x l1 -> el_id x <> el_id el) ->
  (exists segs,
     segmentsOf (Extended.collectRailways tiles w) = Some segs /\
     segmentsWithId (el_id el) segs = []) /\
  (exists segs,
     segmentsOf (Baseline.collectRailways tiles w) = Some segs /\
     segmentsWithId (el_id el) segs = []).
Proof.
  intros Hlen Hans Hcat Hdeg Hfresh.
  destruct (collectRailways_batches tiles batches w Hlen Hans) as [E1 E2].
  rewrite Hcat in E1, E2.
  pose proof (collectElements_first_degenerate l1 l2 el Hdeg Hfresh) as H.
  split; eauto.
Qed.

(** A way with one point only, under the id of [sampleWay], and a
    world that answers the first request with it and every later one
    with [sampleWay]. *)
Definition stubWay : Element :=
  mkElement "way" 7 None None None None (Some [mkPoint 1 2]).

Definition stubFirstWorld : World :=
  mkWorld (fun k => match k with
                    | O => Responded (mkResponse 200 (inr (DObj (Some [stubWay]))))
                    | _ => Responded (mkResponse 200 (inr (DObj (Some [sampleWay]))))
                    end) 0 [].

Lemma degenerate_copy_shadows_witness :
  segmentsOf
    (Extended.collectRailways [mkBBox 0 0 5 5; mkBBox 5 0 10 5] stubFirstWorld)
  = Some [].
Proof.
  destruct (degenerate_copy_shadows [mkBBox 0 0 5 5; mkBBox 5 0 10 5]
              [[stubWay]; [sampleWay]] stubFirstWorld [] [sampleWay] stubWay)
    as ((segs & E & _) & _).
  - reflexivity.
  - intros k Hk. destruct k as [| [| k]]; [reflexivity | reflexivity |].
    cbn in Hk. lia.
  - reflexivity.
  - cbn. lia.
  - intros x [].
  - reflexivity.
Defined.

Lemma collectElements_order (els : list Element) : forall st,
  exists ids,
    map seg_id (allWays (collectElements st els)) =
    map seg_id (allWays st) ++ ids /\
    sublist ids (map el_id els).
Proof.
  unfold collectElements.
  induction els as [| el els IH]; intros st; cbn.
  - exists []. split; [now rewrite app_nil_r | constructor].
  - destruct (IH (collectElement st el)) as (ids & E & Hsub). rewrite E.
    destruct (collectElement_cases st el) as ([E' | (g & _ & _ & _ & E')] & _);
      rewrite E'.
    + exists ids. split; [reflexivity | now apply sublist_cons].
    + exists (el_id el :: ids). split.
      * rewrite map_app, <- app_assoc. reflexivity.
      * now apply sublist_skip.
Qed.

(** X13.  The segments are returned in the order in which their
    elements were received, tile after tile: their ids are a subsequence
    of the ids of the elements received; nothing is sorted. *)
Theorem segments_in_arrival_order (tiles : list BBox)
  (batches : list (list Element)) (w : World) :
  length batches = length tiles -> answers w batches ->
  (exists segs,
     segmentsOf (Extended.collectRailways tiles w) = Some segs /\
     sublist (map seg_id segs) (map el_id (concat batches))) /\
  (exists segs,
     segmentsOf (Baseline.collectRailways tiles w) = Some segs /\
     sublist (map seg_id segs) (map el_id (concat batches))).
Proof.
  intros Hlen Hans.
  destruct (collectRailways_batches tiles batches w Hlen Hans) as [E1 E2].
  destruct (collectElements_order (concat batches) (mkCollected ∅ []))
    as (ids & E & Hsub).
  cbn [allWays map app] in E. rewrite <- E in Hsub.
  split; eauto.
Qed.

Lemma segments_in_arrival_order_witness :
  exists segs,
    segmentsOf
      (Baseline.collectRailways [mkBBox 0 0 5 5; mkBBox 5 0 10 5]
         sampleWayWorld) = Some segs /\
    sublist (map seg_id segs) [7%Z; 7%Z].
Proof.
  destruct (segments_in_arrival_order [mkBBox 0 0 5 5; mkBBox 5 0 10 5]
              [[sampleWay]; [sampleWay]] sampleWayWorld) as (_ & H).
  - reflexivity.
  - intros k Hk. destruct k as [| [| k]]; [reflexivity | reflexivity |].
    cbn in Hk. lia.
  - exact H.
Defined.

(** ** Rounding of coordinates *)











(** The slack is needed: the binary64 value nearest to 83.066745 is
    stored as the one nearest to 83.06675, more than 0.000005 away. *)
Lemma round5_beyond_half_unit :
  let x := fl (83066745 # 1000000) in
  round5 x = fl (8306675 # 100000) /\ (1 # 200000) < Qabs (round5 x - x).
Proof. split; vm_compute; reflexivity. Qed.


(** ** Station collector: where the stations come from *)

Lemma mapValues_set_In {V} (key : string) (v x : V) (m : JsMap V) :
  In x (mapValues (mapSet key v m)) -> x = v \/ In x (mapValues m).
Proof.
  induction m as [| [k v'] m IH]; cbn.
  - intros [<- | []]. now left.
  - destruct (String.eqb k key); cbn.
    + intros [<- | H]; [now left | right; now right].
    + intros [<- | H]; [right; now left |].
      apply IH in H as [-> | H]; [now left | right; now right].
Qed.

(** A value of the station map was there before or is the record of a
    candidate among the elements. *)
Lemma runOf_from {V} (cand : Element -> option (Q * Q * string))
  (mk : Element -> Q -> Q -> string -> V) (overwrite : string -> bool)
  (els : list Element) : forall (m : JsMap V) (x : V),
  In x (mapValues (runOf cand mk overwrite els m)) ->
  In x (mapValues m) \/
  exists el lat lon name,
    In el els /\ cand el = Some (lat, lon, name) /\ x = mk el lat lon name.
Proof.
  induction els as [| el els IH]; intros m x Hx; cbn in Hx; [now left |].
  apply IH in Hx as [Hx | (el' & lat & lon & name & Hin & Hc & ->)].
  - unfold stepOf in Hx.
    destruct (cand el) as [[[lat lon] name] |] eqn:Hc; [| now left].
    cbn zeta in Hx.
    destruct (negb (mapHas (coordKey lat lon) m) || overwrite name);
      [| now left].
    apply mapValues_set_In in Hx as [-> | Hx]; [| now left].
    right. exists el, lat, lon, name. split; [now left | auto].
  - right. exists el', lat, lon, name. split; [now right | auto].
Qed.

(** One call of the query client inside a collector: the world moves on,
    the requests all carry the query, the waits are never the pause of the
    collector, and data was delivered by one of the requests. *)
Definition call_trace (delay : Z) (call : IO Data) (query : Query) (w : World)
  : Prop :=
  exists d w' events,
    call w = (inr d, w') /\
    net w' = net w /\ (clock w <= clock w')%nat /\
    log w' = log w ++ events /\
    ~ In delay (waitsOf events) /\
    (exists a b : nat,
       (1 <= a <= 3)%nat /\ (b <= 3)%nat /\
       fetchesOf events =
       repeat (primaryEndpoint, query) a ++ repeat (mirrorEndpoint, query) b) /\
    (d = DNull \/
     exists k, (clock w <= k < clock w')%nat /\ delivered (net w k) = Some d).

Lemma extended_call_trace query w :
  call_trace Extended.DELAY_BETWEEN_QUERIES_MS (Extended.queryOverpass query)
    query w.
Proof.
  destruct (extended_client_facts query w)
    as (d & w' & events & E & Hn & Hc & Hl & Hw & Hd).
  destruct (call_requests extendedAttempt extendedReaction
              extendedAttempt_reacts query w)
    as (d2 & w2 & a & b & events2 & E2 & _ & _ & Ha & Hb & Hl2 & Hf).
  assert (E2' : Extended.queryOverpass query w = (inr d2, w2)) by exact E2.
  rewrite E in E2'. injection E2' as <- <-.
  rewrite Hl in Hl2. apply app_inv_head in Hl2. subst events2.
  exists d, w', events. repeat split; auto. exists a, b. auto.
Qed.

Lemma baseline_call_trace query w :
  call_trace Baseline.DELAY_MS (Baseline.queryOverpass query) query w.
Proof.
  destruct (baseline_client_facts query w)
    as (d & w' & events & E & Hn & Hc & Hl & Hw & Hd).
  destruct (call_requests baselineAttempt baselineReaction
              baselineAttempt_reacts query w)
    as (d2 & w2 & a & b & events2 & E2 & _ & _ & Ha & Hb & Hl2 & Hf).
  assert (E2' : Baseline.queryOverpass query w = (inr d2, w2)) by exact E2.
  rewrite E in E2'. injection E2' as <- <-.
  rewrite Hl in Hl2. apply app_inv_head in Hl2. subst events2.
  exists d, w', events. repeat split; auto. exists a, b. auto.
Qed.

Lemma delivered_elements (w w' : World) (d : Data) (els : list Element) :
  (d = DNull \/
   exists k, (clock w <= k < clock w')%nat /\ delivered (net w k) = Some d) ->
  elementsOf d = Some els ->
  forall el, In el els -> received w w' el.
Proof.
  intros [-> | (k & Hk & Hd)] Hels el Hin; [discriminate |].
  destruct d as [| els']; [discriminate |]. cbn in Hels. subst els'.
  exists k, els. auto.
Qed.

(** The events of one station run, after the log so far. *)
Definition queriesOf (events : list Event) : list Query :=
  map snd (fetchesOf events).

Lemma queriesOf_repeat (events : list Event) (query : Query) (a b : nat) :
  fetchesOf events =
    repeat (primaryEndpoint, query) a ++ repeat (mirrorEndpoint, query) b ->
  queriesOf events = repeat query (a + b).
Proof.
  unfold queriesOf. intros ->. rewrite map_app, repeat_app.
  f_equal; [generalize a | generalize b]; intros n;
    induction n as [| n IH]; cbn; congruence.
Qed.

Section StationRun.

Variables Math_sin Math_cos Math_sqrt : Q -> Q.
Variable Math_atan2 : Q -> Q -> Q.
Variable Math_PI : Q.
Variable localeCompare : string -> string -> comparison.

Local Abbreviation candidateE :=
  (Extended.candidate Math_sin Math_cos Math_sqrt Math_atan2 Math_PI).
Local Abbreviation stationOutputE :=
  (Extended.stationOutput Math_sin Math_cos Math_sqrt Math_atan2 Math_PI
     localeCompare).
Local Abbreviation extractStationsE :=
  (Extended.extractStations Math_sin Math_cos Math_sqrt Math_atan2 Math_PI
     localeCompare).
Local Abbreviation stationOutputB := (Baseline.stationOutput localeCompare).
Local Abbreviation extractStationsB :=
  (Baseline.extractStations localeCompare).

(** One run of the extended station collector. *)
Lemma extended_extractStations_run (country : Country) (w : World) :
  exists stations w' towns events1 events2 (n1 n2 : nat),
    extractStationsE country w = (inr stations, w') /\
    (forall t, In t towns ->
       exists el, received w w' el /\ t = Extended.townOf el) /\
    (stations = [] \/
     exists els,
       (forall el, In el els -> received w w' el) /\
       stations = stationOutputE towns els) /\
    log w' =
      log w ++ events1 ++ [ESleep Extended.DELAY_BETWEEN_QUERIES_MS] ++ events2 /\
    ~ In Extended.DELAY_BETWEEN_QUERIES_MS (waitsOf events1) /\
    ~ In Extended.DELAY_BETWEEN_QUERIES_MS (waitsOf events2) /\
    (1 <= n1 <= 6)%nat /\ (1 <= n2 <= 6)%nat /\
    queriesOf events1 = repeat (TownQuery (country_bbox country)) n1 /\
    queriesOf events2 = repeat (StationQuery (country_bbox country)) n2.
Proof.
  unfold Extended.extractStations. unfold bind at 1.
  destruct (extended_call_trace (TownQuery (country_bbox country)) w)
    as (townData & w1 & ev1 & E1 & Hn1 & Hc1 & Hl1 & Hw1 & _ & Hd1).
  destruct (call_requests extendedAttempt extendedReaction
              extendedAttempt_reacts (TownQuery (country_bbox country)) w)
    as (d1' & w1' & a1' & b1' & ev1' & E1' & _ & _ & Ha1' & Hb1' & Hl1' & Hf1').
  assert (E1'' : Extended.queryOverpass (TownQuery (country_bbox country)) w
                 = (inr d1', w1')) by exact E1'.
  rewrite E1 in E1''. injection E1'' as <- <-.
  rewrite Hl1 in Hl1'. apply app_inv_head in Hl1'. subst ev1'.
  rewrite E1. unfold bind at 1. cbn [sleep].
  set (w2 := mkWorld (net w1) (clock w1)
               (log w1 ++ [ESleep Extended.DELAY_BETWEEN_QUERIES_MS])).
  unfold bind at 1.
  destruct (extended_call_trace (StationQuery (country_bbox country)) w2)
    as (data & w3 & ev2 & E3 & Hn3 & Hc3 & Hl3 & Hw3 & _ & Hd3).
  destruct (call_requests extendedAttempt extendedReaction
              extendedAttempt_reacts (StationQuery (country_bbox country)) w2)
    as (d3' & w3' & a3 & b3 & ev3' & E3' & _ & _ & Ha3 & Hb3 & Hl3' & Hf3).
  assert (E3'' : Extended.queryOverpass (StationQuery (country_bbox country)) w2
                 = (inr d3', w3')) by exact E3'.
  rewrite E3 in E3''. injection E3'' as <- <-.
  rewrite Hl3 in Hl3'. apply app_inv_head in Hl3'. subst ev3'.
  rewrite E3. cbn [net clock log] in *.
  assert (Htowns : forall t,
            In t (Extended.townsOf townData) ->
            exists el, received w w3 el /\ t = Extended.townOf el).
  { unfold Extended.townsOf. intros t Ht.
    destruct (elementsOf townData) as [tels |] eqn:Htels; [| destruct Ht].
    apply in_map_iff in Ht as (el & <- & Hin). exists el. split; [| reflexivity].
    apply (received_wider w w w1 w3); auto; try lia.
    eapply delivered_elements; eauto. }
  assert (Hlog : log w3 =
                 log w ++ ev1 ++ [ESleep Extended.DELAY_BETWEEN_QUERIES_MS] ++ ev2).
  { rewrite Hl3. unfold w2. cbn [log]. rewrite Hl1, <- !app_assoc. reflexivity. }
  assert (Hq1 := queriesOf_repeat _ _ _ _ Hf1').
  assert (Hq3 := queriesOf_repeat _ _ _ _ Hf3).
  destruct (elementsOf data) as [els |] eqn:Hels; cbn.
  - exists (stationOutputE (Extended.townsOf townData) els), w3,
      (Extended.townsOf townData), ev1, ev2, (a1' + b1')%nat, (a3 + b3)%nat.
    split; [reflexivity |]. split; [exact Htowns |]. split.
    { right. exists els. split; [| reflexivity]. intros el Hin.
      apply (received_wider w w2 w3 w3); auto; try (unfold w2; cbn; lia).
      eapply delivered_elements; eauto. }
    repeat split; auto; lia.
  - exists [], w3, (Extended.townsOf townData), ev1, ev2,
      (a1' + b1')%nat, (a3 + b3)%nat.
    split; [reflexivity |]. split; [exact Htowns |]. split; [now left |].
    repeat split; auto; lia.
Qed.

(** One run of the baseline station collector. *)
Lemma baseline_extractStations_run (country : Country) (w : World) :
  exists stations w' events (n : nat),
    extractStationsB country w = (inr stations, w') /\
    (stations = [] \/
     exists els,
       (forall el, In el els -> received w w' el) /\
       stations = stationOutputB els) /\
    log w' = log w ++ events /\
    (1 <= n <= 6)%nat /\
    queriesOf events = repeat (StationQuery (country_bbox country)) n.
Proof.
  unfold Baseline.extractStations. unfold bind at 1.
  destruct (baseline_call_trace (StationQuery (country_bbox country)) w)
    as (data & w1 & ev & E1 & Hn1 & Hc1 & Hl1 & Hw1 & _ & Hd1).
  destruct (call_requests baselineAttempt baselineReaction
              baselineAttempt_reacts (StationQuery (country_bbox country)) w)
    as (d1' & w1' & a & b & ev' & E1' & _ & _ & Ha & Hb & Hl1' & Hf).
  assert (E1'' : Baseline.queryOverpass (StationQuery (country_bbox country)) w
                 = (inr d1', w1')) by exact E1'.
  rewrite E1 in E1''. injection E1'' as <- <-.
  rewrite Hl1 in Hl1'. apply app_inv_head in Hl1'. subst ev'.
  rewrite E1. assert (Hq := queriesOf_repeat _ _ _ _ Hf).
  destruct (elementsOf data) as [els |] eqn:Hels; cbn.
  - exists (stationOutputB els), w1, ev, (a + b)%nat.
    split; [reflexivity |]. split.
    { right. exists els. split; [| reflexivity].
      eapply delivered_elements; eauto. }
    repeat split; auto; lia.
  - exists [], w1, ev, (a + b)%nat.
    split; [reflexivity |]. split; [now left |]. repeat split; auto; lia.
Qed.

End StationRun.

(** ** Station collector: the order of the stations *)

(** [a] does not sort after [b]. *)
Definition notAfter {A} (cmp : A -> A -> comparison) (a b : A) : Prop :=
  cmp a b <> Gt.

(** A consistent comparator, as [Array.prototype.sort] asks for: when
    [a] sorts after [b] then [b] sorts before [a], and not sorting after
    is transitive. *)
Definition consistent {A} (cmp : A -> A -> comparison) : Prop :=
  (forall a b, cmp a b = Gt -> cmp b a = Lt) /\
  (forall a b c, notAfter cmp a b -> notAfter cmp b c -> notAfter cmp a c).

Lemma insertSorted_In {A} (cmp : A -> A -> comparison) (x y : A) (l : list A) :
  In y (insertSorted cmp x l) -> y = x \/ In y l.
Proof.
  intros H. apply (Permutation_in _ (Permutation_sym (insertSorted_perm cmp x l)))
    in H as [<- | H]; auto.
Qed.

Lemma insertSorted_sorted {A} (cmp : A -> A -> comparison) (x : A)
  (l : list A) :
  consistent cmp ->
  StronglySorted (notAfter cmp) l ->
  StronglySorted (notAfter cmp) (insertSorted cmp x l).
Proof.
  intros [Hflip Htrans]. induction l as [| y l IH]; intros Hl; cbn.
  - constructor; constructor.
  - apply StronglySorted_inv in Hl as [Hl Hy].
    assert (Hlater : cmp x y <> Lt ->
              StronglySorted (notAfter cmp) (y :: insertSorted cmp x l)).
    { intros Hxy. constructor; [auto |].
      apply List.Forall_forall. intros z Hz.
      apply insertSorted_In in Hz as [-> | Hz].
      - intros Hgt. apply Hxy. now apply Hflip.
      - rewrite List.Forall_forall in Hy. auto. }
    destruct (cmp x y) eqn:Hxy; try (apply Hlater; discriminate).
    constructor; [now constructor |].
    assert (Hx : notAfter cmp x y) by (unfold notAfter; congruence).
    constructor; [exact Hx |].
    eapply List.Forall_impl; [| exact Hy]. intros z Hz. eapply Htrans; eauto.
Qed.

Lemma sortBy_sorted {A} (cmp : A -> A -> comparison) (l : list A) :
  consistent cmp -> StronglySorted (notAfter cmp) (sortBy cmp l).
Proof.
  intros Hcmp. unfold sortBy.
  assert (H : forall acc,
            StronglySorted (notAfter cmp) acc ->
            StronglySorted (notAfter cmp)
              (fold_left (fun acc x => insertSorted cmp x acc) l acc)).
  { induction l as [| x l IH]; intros acc Hacc; cbn; [exact Hacc |].
    apply IH. now apply insertSorted_sorted. }
  apply H. constructor.
Qed.

Lemma consistent_on {A B} (cmp : B -> B -> comparison) (f : A -> B) :
  consistent cmp -> consistent (fun a b => cmp (f a) (f b)).
Proof.
  intros [Hflip Htrans]. split.
  - intros a b. apply Hflip.
  - intros a b c. apply Htrans.
Qed.

(** Strings by their length: a consistent comparator. *)
Definition lengthCompare (a b : string) : comparison :=
  Nat.compare (String.length a) (String.length b).

Lemma lengthCompare_consistent : consistent lengthCompare.
Proof.
  unfold consistent, notAfter, lengthCompare. split.
  - intros a b H. apply Nat.compare_gt_iff in H. now apply Nat.compare_lt_iff.
  - intros a b c. rewrite !Nat.compare_le_iff. lia.
Qed.

Definition sampleCountry : Country :=
  mkCountry "Sample" (mkBBox 0 0 5 5) "SM".

Section StationFacts.

Variables Math_sin Math_cos Math_sqrt : Q -> Q.
Variable Math_atan2 : Q -> Q -> Q.
Variable Math_PI : Q.
Variable localeCompare : string -> string -> comparison.

Local Abbreviation candidateE :=
  (Extended.candidate Math_sin Math_cos Math_sqrt Math_atan2 Math_PI).
Local Abbreviation extractStationsE :=
  (Extended.extractStations Math_sin Math_cos Math_sqrt Math_atan2 Math_PI
     localeCompare).
Local Abbreviation extractStationsB :=
  (Baseline.extractStations localeCompare).

(** X15.  In every world, each station that the station collector of
    either variant returns is the record of an element that a request of
    this run delivered and that passed the tests of the loop body; in
    the extended variant the towns these tests use were delivered in this
    run as well. *)
Theorem stations_come_from_elements (country : Country) (w : World) :
  (exists stations w' towns,
     extractStationsE country w = (inr stations, w') /\
     (forall t, In t towns ->
        exists el, received w w' el /\ t = Extended.townOf el) /\
     forall s, In s stations ->
       exists el lat lon name,
         received w w' el /\ candidateE towns el = Some (lat, lon, name) /\
         s = Extended.stationOf el lat lon name) /\
  (exists stations w',
     extractStationsB country w = (inr stations, w') /\
     forall s, In s stations ->
       exists el lat lon name,
         received w w' el /\ Baseline.candidate el = Some (lat, lon, name) /\
         s = Baseline.stationOf el lat lon name).
Proof.
  split.
  - destruct (extended_extractStations_run Math_sin Math_cos Math_sqrt
                Math_atan2 Math_PI localeCompare country w)
      as (stations & w' & towns & ev1 & ev2 & n1 & n2 & E & Htowns & Hst & _).
    exists stations, w', towns. split; [exact E |]. split; [exact Htowns |].
    intros s Hs. destruct Hst as [-> | (els & Hrec & ->)]; [destruct Hs |].
    unfold Extended.stationOutput, Extended.sortStations in Hs.
    apply sortBy_In in Hs. rewrite extended_stationsOf in Hs.
    apply runOf_from in Hs as [[] | (el & lat & lon & name & Hin & Hc & ->)].
    exists el, lat, lon, name. auto.
  - destruct (baseline_extractStations_run localeCompare country w)
      as (stations & w' & ev & n & E & Hst & _).
    exists stations, w'. split; [exact E |].
    intros s Hs. destruct Hst as [-> | (els & Hrec & ->)]; [destruct Hs |].
    unfold Baseline.stationOutput, Baseline.sortStations in Hs.
    apply sortBy_In in Hs. rewrite baseline_stationsOf in Hs.
    apply runOf_from in Hs as [[] | (el & lat & lon & name & Hin & Hc & ->)].
    exists el, lat, lon, name. auto.
Qed.

(** X16.  With a consistent comparator for [localeCompare], the stations
    that either variant returns are in the order of their names: no
    station sorts after one that comes later in the list. *)
Theorem stations_sorted_by_name (country : Country) (w : World) :
  consistent localeCompare ->
  (exists stations w',
     extractStationsE country w = (inr stations, w') /\
     StronglySorted
       (fun a b => notAfter localeCompare (Extended.st_name a) (Extended.st_name b))
       stations) /\
  (exists stations w',
     extractStationsB country w = (inr stations, w') /\
     StronglySorted
       (fun a b => notAfter localeCompare (Baseline.st_name a) (Baseline.st_name b))
       stations).
Proof.
  intros Hcmp. split.
  - destruct (extended_extractStations_run Math_sin Math_cos Math_sqrt
                Math_atan2 Math_PI localeCompare country w)
      as (stations & w' & towns & ev1 & ev2 & n1 & n2 & E & _ & Hst & _).
    exists stations, w'. split; [exact E |].
    destruct Hst as [-> | (els & _ & ->)]; [constructor |].
    apply (sortBy_sorted
             (fun a b => localeCompare (Extended.st_name a) (Extended.st_name b))).
    now apply consistent_on.
  - destruct (baseline_extractStations_run localeCompare country w)
      as (stations & w' & ev & n & E & Hst & _).
    exists stations, w'. split; [exact E |].
    destruct Hst as [-> | (els & _ & ->)]; [constructor |].
    apply (sortBy_sorted
             (fun a b => localeCompare (Baseline.st_name a) (Baseline.st_name b))).
    now apply consistent_on.
Qed.

(** X17.  The extended station collector asks for the towns first,
    pauses once, and then asks for the stations, whatever the town query
    gave; the baseline collector asks for the stations only.  Each query
    takes one to six requests, and no request carries another query. *)
Theorem station_run_queries (country : Country) (w : World) :
  (exists stations w' events1 events2 (n1 n2 : nat),
     extractStationsE country w = (inr stations, w') /\
     log w' =
       log w ++ events1 ++ [ESleep Extended.DELAY_BETWEEN_QUERIES_MS] ++ events2 /\
     ~ In Extended.DELAY_BETWEEN_QUERIES_MS (waitsOf events1) /\
     ~ In Extended.DELAY_BETWEEN_QUERIES_MS (waitsOf events2) /\
     (1 <= n1 <= 6)%nat /\ (1 <= n2 <= 6)%nat /\
     queriesOf events1 = repeat (TownQuery (country_bbox country)) n1 /\
     queriesOf events2 = repeat (StationQuery (country_bbox country)) n2) /\
  (exists stations w' events (n : nat),
     extractStationsB country w = (inr stations, w') /\
     log w' = log w ++ events /\
     (1 <= n <= 6)%nat /\
     queriesOf events = repeat (StationQuery (country_bbox country)) n).
Proof.
  split.
  - destruct (extended_extractStations_run Math_sin Math_cos Math_sqrt
                Math_atan2 Math_PI localeCompare country w)
      as (stations & w' & towns & ev1 & ev2 & n1 & n2 & E & _ & _ & H).
    exists stations, w', ev1, ev2, n1, n2. split; [exact E | exact H].
  - destruct (baseline_extractStations_run localeCompare country w)
      as (stations & w' & ev & n & E & _ & H).
    exists stations, w', ev, n. split; [exact E | exact H].
Qed.

(** X18.  No station that the extended collector returns has an empty
    name, in any world. *)
Theorem extended_station_names_nonempty (country : Country) (w : World) :
  exists stations w',
    extractStationsE country w = (inr stations, w') /\
    Forall (fun s => Extended.st_name s <> ""%string) stations.
Proof.
  destruct (extended_extractStations_run Math_sin Math_cos Math_sqrt
              Math_atan2 Math_PI localeCompare country w)
    as (stations & w' & towns & ev1 & ev2 & n1 & n2 & E & _ & Hst & _).
  exists stations, w'. split; [exact E |].
  destruct Hst as [-> | (els & _ & ->)]; [constructor |].
  apply extended_stations_named.
Qed.

End StationFacts.

(** A world in which every request delivers the same two named nodes. *)
Definition twoStationsWorld : World :=
  mkWorld
    (fun _ =>
       Responded
         (mkResponse 200
            (inr (DObj (Some [namedNode 1 41 29 "Central Station";
                              namedNode 2 40 30 "Gar"])))))
    0 [].

Lemma stations_sorted_by_name_witness :
  exists stations w',
    Baseline.extractStations lengthCompare sampleCountry twoStationsWorld =
      (inr stations, w') /\
    StronglySorted
      (fun a b => notAfter lengthCompare (Baseline.st_name a) (Baseline.st_name b))
      stations.
Proof.
  destruct (stations_sorted_by_name sampleMath sampleMath sampleMath
              sampleAtan2 0 lengthCompare sampleCountry twoStationsWorld
              lengthCompare_consistent) as [_ H].
  exact H.
Defined.

Example two_stations_by_length :
  fst (Baseline.extractStations lengthCompare sampleCountry twoStationsWorld) =
  inr [Baseline.stationOf (namedNode 2 40 30 "Gar") 40 30 "Gar";
       Baseline.stationOf (namedNode 1 41 29 "Central Station") 41 29
         "Central Station"].
Proof. reflexivity. Qed.

(** ** Station collector: who holds a coordinate key *)

Lemma mapHas_true_get {V} (key : string) (m : JsMap V) :
  mapHas key m = true -> exists v, mapGet key m = Some v.
Proof.
  induction m as [| [k v] m IH]; cbn; [discriminate |].
  destruct (String.eqb k key); cbn; eauto.
Qed.

Section BucketRule.
Context {V : Type}.

Variable cand : Element -> option (Q * Q * string).
Variable mk : Element -> Q -> Q -> string -> V.
Variable overwrite : string -> bool.

(** The records of the candidates of one key, with their names, in the
    order of the elements. *)
Definition recordsAt (key : string) (els : list Element) : list (V * string) :=
  flat_map
    (fun el =>
       match cand el with
       | Some (lat, lon, name) =>
           if String.eqb (coordKey lat lon) key
           then [(mk el lat lon name, name)] else []
       | None => []
       end) els.

(** The last record whose name passes the test, or else the first
    record. *)
Definition holderOf (rs : list (V * string)) : option V :=
  match List.filter (fun r => overwrite (snd r)) (rev rs) with
  | r :: _ => Some (fst r)
  | [] => option_map fst (head rs)
  end.

Lemma holderOf_none (rs : list (V * string)) : holderOf rs = None -> rs = [].
Proof.
  unfold holderOf. destruct (List.filter _ (rev rs)); [| discriminate].
  destruct rs; [reflexivity | discriminate].
Qed.

Lemma holderOf_snoc (rs : list (V * string)) (r : V * string) :
  holderOf (rs ++ [r]) =
  if overwrite (snd r) then Some (fst r)
  else match holderOf rs with
       | Some v => Some v
       | None => Some (fst r)
       end.
Proof.
  unfold holderOf. rewrite rev_app_distr. cbn [rev app List.filter].
  destruct (overwrite (snd r)); [reflexivity |].
  destruct (List.filter _ (rev rs)); [| reflexivity].
  destruct rs; reflexivity.
Qed.

Lemma recordsAt_app key els els' :
  recordsAt key (els ++ els') = recordsAt key els ++ recordsAt key els'.
Proof. apply flat_map_app. Qed.

Lemma runOf_holder (key : string) (els : list Element) :
  mapGet key (runOf cand mk overwrite els []) = holderOf (recordsAt key els).
Proof.
  induction els as [| el els IH] using rev_ind; [reflexivity |].
  rewrite runOf_app, recordsAt_app. cbn [runOf fold_left recordsAt flat_map].
  fold (runOf cand mk overwrite els []). rewrite app_nil_r.
  set (m := runOf cand mk overwrite els []) in *.
  destruct (cand el) as [[[lat lon] name] |] eqn:Hc.
  - destruct (String.eqb_spec (coordKey lat lon) key) as [<- | Hne].
    + rewrite (stepOf_same cand mk overwrite m el lat lon name Hc).
      rewrite holderOf_snoc. cbn [fst snd]. rewrite <- IH.
      destruct (mapHas (coordKey lat lon) m) eqn:Hhas; cbn [negb orb].
      * apply mapHas_true_get in Hhas as (v & Hv). rewrite Hv.
        now destruct (overwrite name).
      * rewrite (mapHas_false_get _ _ Hhas). now destruct (overwrite name).
    + rewrite app_nil_r, <- IH. apply stepOf_other.
      unfold keyOf. rewrite Hc. congruence.
  - rewrite app_nil_r, <- IH. apply stepOf_other. unfold keyOf. now rewrite Hc.
Qed.

End BucketRule.

Lemma holderOf_first {V} (rs : list (V * string)) :
  holderOf (fun _ => false) rs = option_map fst (head rs).
Proof.
  unfold holderOf.
  assert (H : forall l : list (V * string),
            List.filter (fun r => (fun _ : string => false) (snd r)) l = []).
  { induction l; cbn; auto. }
  now rewrite H.
Qed.

(** X19.  Who holds a coordinate key, for any number of candidates.  In
    the extended variant it is the last candidate of the key whose name
    matches the station words or, when no name matches, the first
    candidate of the key; in the baseline variant it is always the first.
    A key without a candidate is not in the map. *)
Theorem bucket_rule
  (Math_sin Math_cos Math_sqrt : Q -> Q) (Math_atan2 : Q -> Q -> Q)
  (Math_PI : Q) (towns : list Extended.Town) (els : list Element)
  (key : string) :
  mapGet key
    (Extended.stationsOf Math_sin Math_cos Math_sqrt Math_atan2 Math_PI
       towns els) =
  holderOf Extended.matchesStationWord
    (recordsAt
       (Extended.candidate Math_sin Math_cos Math_sqrt Math_atan2 Math_PI towns)
       Extended.stationOf key els) /\
  mapGet key (Baseline.stationsOf els) =
  option_map fst (head (recordsAt Baseline.candidate Baseline.stationOf key els)).
Proof.
  split.
  - rewrite extended_stationsOf. apply runOf_holder.
  - rewrite baseline_stationsOf, runOf_holder. apply holderOf_first.
Qed.

(** ** Railway collector: the queries of a run *)

Lemma queriesOf_app (l1 l2 : list Event) :
  queriesOf (l1 ++ l2) = queriesOf l1 ++ queriesOf l2.
Proof. unfold queriesOf. now rewrite fetchesOf_app, map_app. Qed.

(** A call that makes one to six requests, all with its query. *)
Definition asks (call : IO Data) (query : Query) (w : World) : Prop :=
  exists d w' events (n : nat),
    call w = (inr d, w') /\ log w' = log w ++ events /\
    (1 <= n <= 6)%nat /\ queriesOf events = repeat query n.

Lemma call_trace_asks delay call query w :
  call_trace delay call query w -> asks call query w.
Proof.
  intros (d & w' & events & E & _ & _ & Hl & _ & (a & b & Ha & Hb & Hf) & _).
  exists d, w', events, (a + b)%nat. split; [exact E |]. split; [exact Hl |].
  split; [lia |]. now apply queriesOf_repeat.
Qed.

(** A step that makes no request. *)
Definition asks_nothing (c : IO unit) : Prop :=
  forall w, exists w' events,
    c w = (inr tt, w') /\ log w' = log w ++ events /\ queriesOf events = [].

Lemma asks_nothing_ret : asks_nothing (ret tt).
Proof. intros w. exists w, []. cbn. now rewrite app_nil_r. Qed.

Lemma asks_nothing_sleep (ms : Z) : asks_nothing (sleep ms).
Proof. intros w. eexists _, [ESleep ms]. repeat split. Qed.

(** The queries of a run in which tile [k] takes [counts[k]] requests. *)
Definition requestsFor (tiles : list BBox) (counts : list nat) : list Query :=
  flat_map (fun tn => repeat (RailwayQuery (fst tn)) (snd tn))
    (combine tiles counts).

Section TileQueries.

Variable query : Query -> IO Data.
Hypothesis query_asks : forall q w, asks (query q) q w.
Variables onSkip onDone : nat -> nat -> IO unit.
Hypothesis onSkip_asks_nothing : forall total i, asks_nothing (onSkip total i).
Hypothesis onDone_asks_nothing : forall total i, asks_nothing (onDone total i).

Lemma tileLoopOf_queries (tiles : list BBox) : forall total i st w,
  exists st' w' events counts,
    tileLoopOf query onSkip onDone total i tiles st w = (inr st', w') /\
    log w' = log w ++ events /\
    length counts = length tiles /\
    Forall (fun n => (1 <= n <= 6)%nat) counts /\
    queriesOf events = requestsFor tiles counts.
Proof.
  induction tiles as [| tile rest IH]; intros total i st w; cbn [tileLoopOf].
  - exists st, w, [], []. cbn. rewrite app_nil_r. repeat split. constructor.
  - unfold bind at 1.
    destruct (query_asks (RailwayQuery tile) w)
      as (d & w1 & ev1 & n & E & Hl1 & Hn & Hq1).
    rewrite E.
    assert (Hstep : forall (pause : IO unit) st1,
              asks_nothing pause ->
              exists st' w' events counts,
                (pause ;;; tileLoopOf query onSkip onDone total (S i) rest st1)
                  w1 = (inr st', w') /\
                log w' = log w ++ events /\
                length counts = length (tile :: rest) /\
                Forall (fun n => (1 <= n <= 6)%nat) counts /\
                queriesOf events = requestsFor (tile :: rest) counts).
    { intros pause st1 Hpause. unfold bind.
      destruct (Hpause w1) as (w2 & ev2 & E2 & Hl2 & Hq2). rewrite E2.
      destruct (IH total (S i) st1 w2)
        as (st' & w3 & ev3 & counts & E3 & Hl3 & Hlen & Hall & Hq3).
      exists st', w3, (ev1 ++ ev2 ++ ev3), (n :: counts).
      split; [exact E3 |].
      split; [rewrite Hl3, Hl2, Hl1; now rewrite <- !app_assoc |].
      split; [cbn; now rewrite Hlen |].
      split; [now constructor |].
      rewrite !queriesOf_app, Hq1, Hq2, Hq3. reflexivity. }
    destruct (elementsOf d) as [els |]; apply Hstep; auto.
Qed.

End TileQueries.

(** The queries of one run of a railway collector, tile by tile. *)
Definition queries_tiles (run : IO (list RailwaySegment)) (tiles : list BBox)
  (w : World) : Prop :=
  exists segs w' events counts,
    run w = (inr segs, w') /\
    log w' = log w ++ events /\
    length counts = length tiles /\
    Forall (fun n => (1 <= n <= 6)%nat) counts /\
    queriesOf events = requestsFor tiles counts.

Lemma extended_queries_tiles (tiles : list BBox) (w : World) :
  queries_tiles (Extended.collectRailways tiles) tiles w.
Proof.
  unfold queries_tiles, Extended.collectRailways, bind.
  rewrite extended_tileLoop.
  assert (Hpause : forall total i, asks_nothing (extendedPause total i)).
  { intros total i. unfold extendedPause.
    destruct (i <? total - 1)%nat;
      [apply asks_nothing_sleep | apply asks_nothing_ret]. }
  destruct (tileLoopOf_queries Extended.queryOverpass
              (fun q w0 => call_trace_asks _ _ q w0 (extended_call_trace q w0))
              (fun _ _ => ret tt) extendedPause
              (fun _ _ => asks_nothing_ret) Hpause
              tiles (length tiles) 0%nat (mkCollected ∅ []) w)
    as (st' & w' & events & counts & E & H).
  rewrite E. exists (allWays st'), w', events, counts.
  split; [reflexivity | exact H].
Qed.

Lemma baseline_queries_tiles (tiles : list BBox) (w : World) :
  queries_tiles (Baseline.collectRailways tiles) tiles w.
Proof.
  unfold queries_tiles, Baseline.collectRailways, bind.
  rewrite baseline_tileLoop.
  assert (Hpause : forall total i,
            asks_nothing (Baseline.interTileDelay total i)).
  { intros total i. unfold Baseline.interTileDelay.
    destruct (i <? total - 1)%nat;
      [apply asks_nothing_sleep | apply asks_nothing_ret]. }
  destruct (tileLoopOf_queries Baseline.queryOverpass
              (fun q w0 => call_trace_asks _ _ q w0 (baseline_call_trace q w0))
              Baseline.interTileDelay Baseline.interTileDelay Hpause Hpause
              tiles (length tiles) 0%nat (mkCollected ∅ []) w)
    as (st' & w' & events & counts & E & H).
  rewrite E. exists (allWays st'), w', events, counts.
  split; [reflexivity | exact H].
Qed.

(** X20.  A run of the railway collector, in either variant and in
    every world, queries every tile, in the order of the tiles: one to
    six requests for the first tile, then one to six for the second, and
    so on.  No tile is left out or asked for again later, also after a
    tile whose query gave nothing. *)
Theorem every_tile_is_queried (tiles : list BBox) (w : World) :
  queries_tiles (Extended.collectRailways tiles) tiles w /\
  queries_tiles (Baseline.collectRailways tiles) tiles w.
Proof.
  split; [apply extended_queries_tiles | apply baseline_queries_tiles].
Qed.

(** ** Extended station collector: the name of an unnamed station *)

Section ClosestTown.

Variables Math_sin Math_cos Math_sqrt : Q -> Q.
Variable Math_atan2 : Q -> Q -> Q.
Variable Math_PI : Q.

Local Abbreviation distanceToE :=
  (Extended.distanceTo Math_sin Math_cos Math_sqrt Math_atan2 Math_PI).
Local Abbreviation closerTownE :=
  (Extended.closerTown Math_sin Math_cos Math_sqrt Math_atan2 Math_PI).
Local Abbreviation closestTownE :=
  (Extended.closestTown Math_sin Math_cos Math_sqrt Math_atan2 Math_PI).

Variables lat lon : Q.

(** What the closest-town loop holds after the towns [seen]: nothing,
    and no town seen is within 5 km; or a town within 5 km, with its
    distance, that is strictly nearer than the towns before it and at
    least as near as the towns after it. *)
Definition nearestOf (seen : list Extended.Town)
  (acc : option Extended.Town * option Q) : Prop :=
  match acc with
  | (Some t, Some d) =>
      distanceToE lat lon t = Some d /\ d < 5 /\
      exists l1 l2,
        seen = l1 ++ t :: l2 /\
        (forall t' d', In t' l1 -> distanceToE lat lon t' = Some d' -> d < d') /\
        (forall t' d', In t' l2 -> distanceToE lat lon t' = Some d' -> d <= d')
  | (None, None) =>
      forall t' d', In t' seen -> distanceToE lat lon t' = Some d' -> 5 <= d'
  | _ => False
  end.

Lemma closerTown_nearestOf seen acc town :
  nearestOf seen acc -> nearestOf (seen ++ [town]) (closerTownE lat lon acc town).
Proof.
  unfold Extended.closerTown.
  destruct acc as [[t |] [m |]]; cbn [nearestOf snd]; try contradiction.
  - intros (Ht & Hm & l1 & l2 & -> & H1 & H2).
    destruct (distanceToE lat lon town) as [d |] eqn:Hd.
    + destruct (Qltb d m) eqn:Hlt; cbn [andb].
      * apply Qltb_lt in Hlt.
        assert (Hd5 : Qltb d 5 = true) by (apply Qltb_lt; lra).
        rewrite Hd5. cbn [nearestOf]. split; [exact Hd |]. split; [lra |].
        exists (l1 ++ t :: l2), []. split; [reflexivity |]. split; [| intros ? ? []].
        intros t' d' Hin Hd'. apply in_app_or in Hin as [Hin | [<- | Hin]].
        -- specialize (H1 t' d' Hin Hd'). lra.
        -- rewrite Ht in Hd'. injection Hd' as <-. exact Hlt.
        -- specialize (H2 t' d' Hin Hd'). lra.
      * apply Qltb_ge in Hlt. cbn [nearestOf].
        split; [exact Ht |]. split; [exact Hm |].
        exists l1, (l2 ++ [town]). split; [now rewrite <- app_assoc |].
        split; [exact H1 |].
        intros t' d' Hin Hd'. apply in_app_or in Hin as [Hin | [<- | []]].
        -- exact (H2 t' d' Hin Hd').
        -- rewrite Hd in Hd'. injection Hd' as <-. exact Hlt.
    + cbn [nearestOf]. split; [exact Ht |]. split; [exact Hm |].
      exists l1, (l2 ++ [town]). split; [now rewrite <- app_assoc |].
      split; [exact H1 |].
      intros t' d' Hin Hd'. apply in_app_or in Hin as [Hin | [<- | []]].
      * exact (H2 t' d' Hin Hd').
      * congruence.
  - intros Hnone.
    destruct (distanceToE lat lon town) as [d |] eqn:Hd.
    + cbn [andb]. destruct (Qltb d 5) eqn:Hlt; cbn [nearestOf].
      * apply Qltb_lt in Hlt. split; [exact Hd |]. split; [exact Hlt |].
        exists seen, []. split; [reflexivity |]. split; [| intros ? ? []].
        intros t' d' Hin Hd'. specialize (Hnone t' d' Hin Hd'). lra.
      * apply Qltb_ge in Hlt.
        intros t' d' Hin Hd'. apply in_app_or in Hin as [Hin | [<- | []]].
        -- exact (Hnone t' d' Hin Hd').
        -- rewrite Hd in Hd'. injection Hd' as <-. exact Hlt.
    + cbn [nearestOf].
      intros t' d' Hin Hd'. apply in_app_or in Hin as [Hin | [<- | []]].
      * exact (Hnone t' d' Hin Hd').
      * congruence.
Qed.

Lemma closestTown_fold (towns : list Extended.Town) : forall seen acc,
  nearestOf seen acc ->
  nearestOf (seen ++ towns) (fold_left (closerTownE lat lon) towns acc).
Proof.
  induction towns as [| town towns IH]; intros seen acc H; cbn.
  - now rewrite app_nil_r.
  - replace (seen ++ town :: towns) with ((seen ++ [town]) ++ towns)
      by (now rewrite <- app_assoc).
    apply IH. now apply closerTown_nearestOf.
Qed.

(** X21.  The town whose name an unnamed station takes is the nearest
    town that has coordinates and lies less than 5 km away, the first
    such town in the list when several are equally near; when no town is
    that near there is none. *)
Theorem closestTown_is_nearest (towns : list Extended.Town) :
  match closestTownE towns lat lon with
  | Some t =>
      exists d l1 l2,
        distanceToE lat lon t = Some d /\ d < 5 /\
        towns = l1 ++ t :: l2 /\
        (forall t' d', In t' l1 -> distanceToE lat lon t' = Some d' -> d < d') /\
        (forall t' d', In t' l2 -> distanceToE lat lon t' = Some d' -> d <= d')
  | None =>
      forall t' d', In t' towns -> distanceToE lat lon t' = Some d' -> 5 <= d'
  end.
Proof.
  unfold Extended.closestTown.
  assert (H0 : nearestOf [] (None, None)) by (intros ? ? []).
  pose proof (closestTown_fold towns [] (None, None) H0) as H.
  cbn [app] in H.
  destruct (fold_left (closerTownE lat lon) towns (None, None))
    as [[t |] [d |]]; cbn [nearestOf fst] in *; try contradiction.
  - destruct H as (Ht & Hd & l1 & l2 & Htowns & H1 & H2).
    exists d, l1, l2. auto.
  - exact H.
Qed.

End ClosestTown.

Lemma toLowerCase_app (a b : string) :
  toLowerCase (a ++ b)%string = (toLowerCase a ++ toLowerCase b)%string.
Proof.
  induction a as [| c a IH]; [reflexivity |].
  change (String c a ++ b)%string with (String c (a ++ b)%string).
  cbn [toLowerCase]. now rewrite IH.
Qed.

Lemma includes_app_r (pat a b : string) :
  includes pat b = true -> includes pat (a ++ b)%string = true.
Proof.
  intros H. induction a as [| c a IH]; [exact H |].
  change (String c a ++ b)%string with (String c (a ++ b)%string).
  cbn [includes]. rewrite IH. apply orb_true_r.
Qed.

Lemma matchesStationWord_suffix (n : string) :
  Extended.matchesStationWord (n ++ " Station")%string = true.
Proof.
  unfold Extended.matchesStationWord. rewrite toLowerCase_app.
  rewrite (includes_app_r "station" (toLowerCase n) (toLowerCase " Station"))
    by reflexivity.
  reflexivity.
Qed.

Section TownNames.

Variables Math_sin Math_cos Math_sqrt : Q -> Q.
Variable Math_atan2 : Q -> Q -> Q.
Variable Math_PI : Q.

Local Abbreviation candidateE :=
  (Extended.candidate Math_sin Math_cos Math_sqrt Math_atan2 Math_PI).
Local Abbreviation closestTownE :=
  (Extended.closestTown Math_sin Math_cos Math_sqrt Math_atan2 Math_PI).
Local Abbreviation stationStepE :=
  (Extended.stationStep Math_sin Math_cos Math_sqrt Math_atan2 Math_PI).

(** [el.tags?.name || el.tags?.['name:en'] || el.tags?.ref] *)
Definition ownName (el : Element) : option string :=
  jsOr (jsOr (tag el t_name) (tag el t_name_en)) (tag el t_ref).

Lemma extended_candidate_inv towns el lat lon name :
  candidateE towns el = Some (lat, lon, name) ->
  resolvedLat el = Some lat /\ resolvedLon el = Some lon /\
  ~ lat == 0 /\ ~ lon == 0 /\
  Extended.resolveName Math_sin Math_cos Math_sqrt Math_atan2 Math_PI
    towns lat lon el = Some name.
Proof.
  unfold Extended.candidate.
  destruct (falsyNum (resolvedLat el)) eqn:Hlat; [discriminate |].
  destruct (falsyNum (resolvedLon el)) eqn:Hlon; [discriminate |].
  cbn [orb].
  destruct (resolvedLat el) as [la |]; [| discriminate].
  destruct (resolvedLon el) as [lo |]; [| discriminate].
  match goal with |- context [if ?c then None else _] => destruct c end;
    [discriminate |].
  destruct (Extended.resolveName _ _ _ _ _ towns la lo el) as [n |] eqn:Hn;
    [| discriminate].
  cbn. intros [= <- <- <-].
  cbn in Hlat, Hlon.
  repeat split; auto; intros H0; apply Qeq_bool_iff in H0; congruence.
Qed.

(** X22.  A station without a name of its own gets the name of the
    closest town followed by " Station".  Such a name always matches the
    station words, so the station takes its coordinate key whoever held
    it before. *)
Theorem town_named_station_takes_key (towns : list Extended.Town)
  (stationMap : JsMap Extended.Station) (el : Element) (lat lon : Q)
  (name : string) :
  candidateE towns el = Some (lat, lon, name) ->
  truthyStr (ownName el) = false ->
  (exists town n,
     closestTownE towns lat lon = Some town /\
     Extended.town_name town = Some n /\ n <> ""%string /\
     name = (n ++ " Station")%string) /\
  mapGet (coordKey lat lon) (stationStepE towns stationMap el) =
  Some (Extended.stationOf el lat lon name).
Proof.
  intros Hc Hown.
  destruct (extended_candidate_inv towns el lat lon name Hc)
    as (_ & _ & _ & _ & Hname).
  unfold Extended.resolveName in Hname. fold (ownName el) in Hname.
  rewrite Hown in Hname.
  destruct (closestTownE towns lat lon) as [town |] eqn:Htown; [| discriminate].
  destruct (truthyStr (Extended.town_name town)) eqn:Htn; [| discriminate].
  apply truthyStr_nonempty in Htn as (n & Hn & Hne).
  rewrite Hn in Hname. cbn in Hname. injection Hname as <-.
  split; [exists town, n; auto |].
  unfold Extended.stationStep. rewrite Hc. cbn zeta.
  rewrite matchesStationWord_suffix, orb_true_r. apply mapGet_set_same.
Qed.

End TownNames.

(** A node without tags, and a town at the same place. *)
Definition bareNode (id : Z) (lat lon : Q) : Element :=
  mkElement "node" id (Some lat) (Some lon) None None None.

Definition sampleTown : Extended.Town :=
  Extended.mkTown (Some 41) (Some 29) (Some "Ankara"%string).

Lemma town_named_station_takes_key_witness :
  mapGet (coordKey 41 29)
    (Extended.stationStep sampleMath sampleMath sampleMath sampleAtan2 0
       [sampleTown]
       [(coordKey 41 29,
         Extended.stationOf (namedNode 1 41 29 "Depot") 41 29 "Depot")]
       (bareNode 2 41 29)) =
  Some (Extended.stationOf (bareNode 2 41 29) 41 29 "Ankara Station").
Proof.
  destruct (town_named_station_takes_key sampleMath sampleMath sampleMath
              sampleAtan2 0 [sampleTown]
              [(coordKey 41 29,
                Extended.stationOf (namedNode 1 41 29 "Depot") 41 29 "Depot")]
              (bareNode 2 41 29) 41 29 "Ankara Station") as [_ H].
  - reflexivity.
  - reflexivity.
  - exact H.
Defined.

(** ** Extended station collector: without towns *)

Section WithoutTowns.

Variables Math_sin Math_cos Math_sqrt : Q -> Q.
Variable Math_atan2 : Q -> Q -> Q.
Variable Math_PI : Q.
Variable localeCompare : string -> string -> comparison.

Local Abbreviation candidateE :=
  (Extended.candidate Math_sin Math_cos Math_sqrt Math_atan2 Math_PI).
Local Abbreviation stationOutputE :=
  (Extended.stationOutput Math_sin Math_cos Math_sqrt Math_atan2 Math_PI
     localeCompare).
Local Abbreviation extractStationsE :=
  (Extended.extractStations Math_sin Math_cos Math_sqrt Math_atan2 Math_PI
     localeCompare).

(** Without towns a candidate is an element with coordinates and a name
    of its own; the building tag is not looked at. *)
Lemma extended_candidate_no_towns el lat lon name :
  candidateE [] el = Some (lat, lon, name) <->
  resolvedLat el = Some lat /\ resolvedLon el = Some lon /\
  ~ lat == 0 /\ ~ lon == 0 /\
  ownName el = Some name /\ name <> ""%string.
Proof.
  split.
  - intros Hc.
    destruct (extended_candidate_inv Math_sin Math_cos Math_sqrt Math_atan2
                Math_PI [] el lat lon name Hc)
      as (Hlat & Hlon & Hla0 & Hlo0 & Hname).
    repeat split; auto.
    + unfold Extended.resolveName in Hname. fold (ownName el) in Hname.
      destruct (truthyStr (ownName el)); [exact Hname | discriminate].
    + eapply extended_resolveName_nonempty; eauto.
  - intros (Hlat & Hlon & Hla0 & Hlo0 & Hname & Hne).
    unfold Extended.candidate. rewrite Hlat, Hlon. cbn [falsyNum].
    destruct (Qeq_bool lat 0) eqn:E1;
      [apply Qeq_bool_iff in E1; contradiction |].
    destruct (Qeq_bool lon 0) eqn:E2;
      [apply Qeq_bool_iff in E2; contradiction |].
    cbn [orb length Nat.ltb Nat.leb andb]. rewrite andb_false_r. cbn [andb].
    unfold Extended.resolveName. fold (ownName el). rewrite Hname.
    cbn [truthyStr]. destruct (String.eqb_spec name ""); [contradiction |].
    reflexivity.
Qed.

(** The two calls of one run. *)
Lemma extended_extractStations_calls (country : Country) (w : World) :
  exists townData w1 data w3,
    Extended.queryOverpass (TownQuery (country_bbox country)) w =
      (inr townData, w1) /\
    extractStationsE country w =
      (inr match elementsOf data with
           | Some els =>
               stationOutputE
                 (Extended.townsOf townData) els
           | None => []
           end, w3) /\
    forall els, elementsOf data = Some els ->
      forall el, In el els -> received w w3 el.
Proof.
  unfold Extended.extractStations. unfold bind at 1.
  destruct (extended_call_trace (TownQuery (country_bbox country)) w)
    as (townData & w1 & ev1 & E1 & Hn1 & Hc1 & _).
  rewrite E1. unfold bind at 1. cbn [sleep].
  set (w2 := mkWorld (net w1) (clock w1)
               (log w1 ++ [ESleep Extended.DELAY_BETWEEN_QUERIES_MS])).
  unfold bind at 1.
  destruct (extended_call_trace (StationQuery (country_bbox country)) w2)
    as (data & w3 & ev2 & E3 & Hn3 & Hc3 & _ & _ & _ & Hd3).
  rewrite E3. exists townData, w1, data, w3. split; [reflexivity |]. split.
  - destruct (elementsOf data); reflexivity.
  - intros els Hels el Hin.
    apply (received_wider w w2 w3 w3); auto; try (unfold w2; cbn; lia).
    eapply delivered_elements; eauto.
Qed.

(** X23.  When none of the six requests that the town query can make
    delivers data, the extended collector still asks for the stations
    and works without towns: every station returned carries a name of
    the element itself (no town name is made up), unnamed elements give
    no station, and the building tag is not looked at. *)
Theorem stations_without_towns (country : Country) (w : World) :
  unanswered w 6 ->
  (exists stations w',
     extractStationsE country w = (inr stations, w') /\
     forall s, In s stations ->
       exists el lat lon,
         received w w' el /\
         candidateE [] el = Some (lat, lon, Extended.st_name s) /\
         ownName el = Some (Extended.st_name s) /\
         s = Extended.stationOf el lat lon (Extended.st_name s)) /\
  (forall el lat lon name,
     candidateE [] el = Some (lat, lon, name) <->
     resolvedLat el = Some lat /\ resolvedLon el = Some lon /\
     ~ lat == 0 /\ ~ lon == 0 /\
     ownName el = Some name /\ name <> ""%string).
Proof.
  intros Hun. split; [| apply extended_candidate_no_towns].
  destruct (extended_extractStations_calls country w)
    as (townData & w1 & data & w3 & E1 & E & Hrec).
  destruct (extended_query_client (TownQuery (country_bbox country)) w)
    as (d & w1' & E1' & _ & _ & _ & Hnull & _).
  rewrite E1 in E1'. injection E1' as <- <-.
  rewrite (Hnull Hun) in E. cbn [Extended.townsOf elementsOf] in E.
  eexists _, w3. split; [exact E |].
  intros s Hs. destruct (elementsOf data) as [els |] eqn:Hels; [| destruct Hs].
  unfold Extended.stationOutput, Extended.sortStations in Hs.
  apply sortBy_In in Hs. rewrite extended_stationsOf in Hs.
  apply runOf_from in Hs as [[] | (el & lat & lon & name & Hin & Hc & ->)].
  exists el, lat, lon. cbn [Extended.st_name Extended.stationOf].
  split; [eapply Hrec; eauto |]. split; [exact Hc |]. split; [| reflexivity].
  apply extended_candidate_no_towns in Hc. tauto.
Qed.

End WithoutTowns.

(** A world in which the first six requests fail and every later one
    delivers an unnamed node and a named station building. *)
Definition townsDownWorld : World :=
  mkWorld
    (fun k =>
       if (k <? 6)%nat then Rejected (OtherError "fetch failed")
       else Responded
              (mkResponse 200
                 (inr (DObj (Some
                    [bareNode 1 41 29;
                     mkElement "node" 2 (Some 40) (Some 30) None
                       (Some (mkTags (Some "Gar"%string) None None None
                                (Some "train_station"%string))) None])))))
    0 [].

Lemma stations_without_towns_witness :
  fst (Extended.extractStations sampleMath sampleMath sampleMath sampleAtan2 0
         lengthCompare sampleCountry townsDownWorld) <> inr [] /\
  exists stations w',
    Extended.extractStations sampleMath sampleMath sampleMath sampleAtan2 0
      lengthCompare sampleCountry townsDownWorld = (inr stations, w') /\
    forall s, In s stations ->
      exists el lat lon,
        received townsDownWorld w' el /\
        Extended.candidate sampleMath sampleMath sampleMath sampleAtan2 0 []
          el = Some (lat, lon, Extended.st_name s) /\
        ownName el = Some (Extended.st_name s) /\
        s = Extended.stationOf el lat lon (Extended.st_name s).
Proof.
  split; [discriminate |].
  destruct (stations_without_towns sampleMath sampleMath sampleMath
              sampleAtan2 0 lengthCompare sampleCountry townsDownWorld)
    as [H _].
  - intros k Hk. cbn.
    destruct k as [| [| [| [| [| [| k]]]]]]; try reflexivity. lia.
  - exact H.
Defined.

(** ** Baseline station collector: trimmed names *)

(** What follows the white space character that a string starts with. *)
Definition dropSpace (s : string) : option string :=
  match s with
  | EmptyString => None
  | String a r1 =>
      if isSpace a then Some r1 else
      match r1 with
      | EmptyString => None
      | String b r2 =>
          if isSpace2 a b then Some r2 else
          match r2 with
          | EmptyString => None
          | String c r3 => if isSpace3 a b c then Some r3 else None
          end
      end
  end.

Definition startsWithSpace (s : string) : bool :=
  match dropSpace s with
  | Some _ => true
  | None => false
  end.

(** The string is one white space character. *)
Definition isSpaceChar (s : string) : bool :=
  match dropSpace s with
  | Some EmptyString => true
  | _ => false
  end.

Fixpoint endsWithSpace (s : string) : bool :=
  match s with
  | EmptyString => false
  | String _ s' => isSpaceChar s || endsWithSpace s'
  end.

Lemma trimStart_step (s : string) :
  trimStart s = match dropSpace s with
                | Some r => trimStart r
                | None => s
                end.
Proof.
  destruct s as [| a [| b [| c r3]]]; cbn [trimStart dropSpace];
    try reflexivity.
  - destruct (isSpace a); reflexivity.
  - destruct (isSpace a); [reflexivity |]. destruct (isSpace2 a b); reflexivity.
  - destruct (isSpace a); [reflexivity |].
    destruct (isSpace2 a b); [reflexivity |].
    destruct (isSpace3 a b c); reflexivity.
Qed.

(** The rest is what is left of the string after one, two or three
    bytes. *)
Lemma dropSpace_rest (s r : string) :
  dropSpace s = Some r ->
  exists p : string, s = (p ++ r)%string /\ (0 < String.length p)%nat.
Proof.
  destruct s as [| a [| b [| c r3]]]; cbn [dropSpace]; try discriminate.
  - destruct (isSpace a); [| discriminate]. intros [= <-].
    exists (String a ""). split; [reflexivity | cbn; lia].
  - destruct (isSpace a).
    + intros [= <-]. exists (String a ""). split; [reflexivity | cbn; lia].
    + destruct (isSpace2 a b); [| discriminate]. intros [= <-].
      exists (String a (String b "")). split; [reflexivity | cbn; lia].
  - destruct (isSpace a).
    + intros [= <-]. exists (String a ""). split; [reflexivity | cbn; lia].
    + destruct (isSpace2 a b).
      * intros [= <-]. exists (String a (String b "")).
        split; [reflexivity | cbn; lia].
      * destruct (isSpace3 a b c); [| discriminate]. intros [= <-].
        exists (String a (String b (String c ""))).
        split; [reflexivity | cbn; lia].
Qed.

Lemma length_append (a b : string) :
  String.length (a ++ b)%string = (String.length a + String.length b)%nat.
Proof.
  induction a as [| c a IH]; [reflexivity |].
  change (String c a ++ b)%string with (String c (a ++ b)%string).
  cbn [String.length]. now rewrite IH.
Qed.

Lemma dropSpace_shorter (s r : string) :
  dropSpace s = Some r -> (String.length r < String.length s)%nat.
Proof.
  intros H. apply dropSpace_rest in H as (p & -> & Hp).
  rewrite length_append. lia.
Qed.

(** The test looks at the start of the string only. *)
Lemma dropSpace_append (s r t : string) :
  dropSpace s = Some r -> dropSpace (s ++ t) = Some (r ++ t)%string.
Proof.
  destruct s as [| a [| b [| c r3]]]; cbn [dropSpace]; try discriminate.
  - destruct (isSpace a) eqn:Ha; [| discriminate]. intros [= <-].
    change (String a "" ++ t)%string with (String a t).
    cbn [dropSpace]. now rewrite Ha.
  - change (String a (String b "") ++ t)%string with (String a (String b t)).
    cbn [dropSpace]. destruct (isSpace a) eqn:Ha.
    + now intros [= <-].
    + destruct (isSpace2 a b) eqn:Hb; [| discriminate]. now intros [= <-].
  - change (String a (String b (String c r3)) ++ t)%string
      with (String a (String b (String c (r3 ++ t)))).
    cbn [dropSpace]. destruct (isSpace a) eqn:Ha.
    + now intros [= <-].
    + destruct (isSpace2 a b) eqn:Hb.
      * now intros [= <-].
      * destruct (isSpace3 a b c) eqn:Hc; [| discriminate]. now intros [= <-].
Qed.

Lemma by_length (P : string -> Prop) :
  (forall s, (forall r, (String.length r < String.length s)%nat -> P r) -> P s) ->
  forall s, P s.
Proof.
  intros H s.
  assert (G : forall n r, (String.length r < n)%nat -> P r).
  { induction n as [| n IH]; intros r Hr; [lia |].
    apply H. intros r' Hr'. apply IH. lia. }
  apply (G (S (String.length s))). lia.
Qed.

Lemma trimStart_start (s : string) : startsWithSpace (trimStart s) = false.
Proof.
  induction s as [s IH] using by_length. rewrite trimStart_step.
  destruct (dropSpace s) as [r |] eqn:Hs.
  - apply IH. now apply dropSpace_shorter.
  - unfold startsWithSpace. now rewrite Hs.
Qed.

Lemma trimStart_fixed (s : string) :
  startsWithSpace s = false -> trimStart s = s.
Proof.
  unfold startsWithSpace. rewrite trimStart_step.
  destruct (dropSpace s); [discriminate | reflexivity].
Qed.

(** What [trimEnd] cuts off is white space only. *)
Lemma trimEnd_cut (s : string) :
  exists t : string, s = (trimEnd s ++ t)%string /\ trimStart t = ""%string.
Proof.
  induction s as [| c s (t & Hs & Ht)]; [exists ""%string; split; reflexivity |].
  cbn [trimEnd]. destruct (String.eqb (trimStart (String c s)) "") eqn:E.
  - apply String.eqb_eq in E. exists (String c s). split; [reflexivity | exact E].
  - exists t. split; [| exact Ht].
    change (String c (trimEnd s) ++ t)%string with (String c (trimEnd s ++ t)).
    now rewrite <- Hs.
Qed.

Lemma trimEnd_start (s : string) :
  startsWithSpace s = false -> startsWithSpace (trimEnd s) = false.
Proof.
  destruct (trimEnd_cut s) as (t & Hs & _). unfold startsWithSpace.
  destruct (dropSpace (trimEnd s)) as [r |] eqn:E; [| reflexivity].
  rewrite Hs at 1. now rewrite (dropSpace_append _ _ t E).
Qed.

Lemma endsWithSpace_suffix (p r : string) :
  endsWithSpace r = true -> endsWithSpace (p ++ r) = true.
Proof.
  intros H. induction p as [| c p IH]; [exact H |].
  change (String c p ++ r)%string with (String c (p ++ r)).
  cbn [endsWithSpace]. rewrite IH. apply orb_true_r.
Qed.

(** A string of white space only, unless empty, ends with white space. *)
Lemma blank_ends_with_space (s : string) :
  trimStart s = ""%string -> s <> ""%string -> endsWithSpace s = true.
Proof.
  induction s as [s IH] using by_length. rewrite trimStart_step.
  destruct (dropSpace s) as [r |] eqn:Hs; [| congruence].
  intros Hr Hne. destruct r as [| c r].
  - destruct s as [| a s]; [congruence |]. cbn [endsWithSpace].
    unfold isSpaceChar. now rewrite Hs.
  - pose proof (dropSpace_shorter _ _ Hs) as Hlen.
    apply dropSpace_rest in Hs as (p & -> & _).
    apply endsWithSpace_suffix. apply IH; [exact Hlen | exact Hr | discriminate].
Qed.

Lemma trimEnd_end (s : string) : endsWithSpace (trimEnd s) = false.
Proof.
  induction s as [| c s IH]; [reflexivity |]. cbn [trimEnd].
  destruct (String.eqb (trimStart (String c s)) "") eqn:E; [reflexivity |].
  cbn [endsWithSpace]. rewrite IH, orb_false_r.
  unfold isSpaceChar.
  destruct (dropSpace (String c (trimEnd s))) as [[| c' r] |] eqn:Hd;
    try reflexivity.
  destruct (trimEnd_cut s) as (t & Hs & Ht).
  apply (dropSpace_append _ _ t) in Hd.
  change (String c (trimEnd s) ++ t)%string with (String c (trimEnd s ++ t)) in Hd.
  change ("" ++ t)%string with t in Hd.
  rewrite <- Hs in Hd. rewrite trimStart_step, Hd, Ht in E. discriminate.
Qed.

Lemma trimEnd_fixed (s : string) :
  endsWithSpace s = false -> trimEnd s = s.
Proof.
  induction s as [| c s IH]; [reflexivity |]. cbn [endsWithSpace trimEnd].
  intros H. apply orb_false_iff in H as [H1 H'].
  destruct (String.eqb (trimStart (String c s)) "") eqn:E.
  - apply String.eqb_eq in E. apply blank_ends_with_space in E; [| discriminate].
    cbn [endsWithSpace] in E. rewrite H1, H' in E. discriminate.
  - now rewrite IH.
Qed.

(** A string without white space at either end. *)
Definition trimmed (s : string) : Prop :=
  startsWithSpace s = false /\ endsWithSpace s = false.

Lemma trim_trimmed (s : string) : trimmed (trim s).
Proof.
  unfold trimmed, trim. split; [apply trimEnd_start, trimStart_start |].
  apply trimEnd_end.
Qed.

Lemma trim_fixed (s : string) : trimmed s -> trim s = s.
Proof.
  intros [Hs He]. unfold trim. rewrite (trimStart_fixed s Hs).
  now apply trimEnd_fixed.
Qed.

(** A name between a no-break space and an ideographic space, which are
    two and three bytes of the text. *)
Lemma trim_no_break_space :
  trim (String (ascii_of_nat 194) (String (ascii_of_nat 160) "Ankara" ++
        String (ascii_of_nat 227) (String (ascii_of_nat 128)
          (String (ascii_of_nat 128) " ")))) = "Ankara"%string.
Proof. reflexivity. Qed.

Lemma baseline_candidate_inv el lat lon name :
  Baseline.candidate el = Some (lat, lon, name) ->
  resolvedLat el = Some lat /\ resolvedLon el = Some lon /\
  ~ lat == 0 /\ ~ lon == 0 /\
  exists raw,
    jsOr (jsOr (tag el t_name_en) (tag el t_name)) (tag el t_ref) = Some raw /\
    raw <> ""%string /\ name = trim raw.
Proof.
  unfold Baseline.candidate.
  destruct (falsyNum (resolvedLat el)) eqn:Hlat; [discriminate |].
  destruct (falsyNum (resolvedLon el)) eqn:Hlon; [discriminate |].
  cbn [orb].
  destruct (resolvedLat el) as [la |]; [| discriminate].
  destruct (resolvedLon el) as [lo |]; [| discriminate].
  unfold Baseline.resolveName.
  destruct (truthyStr _) eqn:Hname; [| discriminate].
  apply truthyStr_nonempty in Hname as (raw & Hraw & Hne). rewrite Hraw.
  cbn. intros [= <- <- <-]. cbn in Hlat, Hlon.
  repeat split; eauto; intros H0; apply Qeq_bool_iff in H0; congruence.
Qed.

(** X24.  In every world, the name of each station that the baseline
    collector returns is the trimmed value of the first tag among
    [name:en], [name] and [ref] of its element that is not empty; it has
    no white space at either end, where white space is what [trim]
    takes for it (the space, U+0009 to U+000D, U+00A0, U+1680, U+2000 to
    U+200A, U+2028, U+2029, U+202F, U+205F, U+3000 and U+FEFF, in the
    UTF-8 bytes of the text), and trimming it again changes nothing. *)
Theorem baseline_names_trimmed
  (localeCompare : string -> string -> comparison) (country : Country)
  (w : World) :
  exists stations w',
    Baseline.extractStations localeCompare country w = (inr stations, w') /\
    forall s, In s stations ->
      trimmed (Baseline.st_name s) /\
      trim (Baseline.st_name s) = Baseline.st_name s /\
      exists el raw,
        received w w' el /\ Baseline.st_id s = el_id el /\
        jsOr (jsOr (tag el t_name_en) (tag el t_name)) (tag el t_ref)
          = Some raw /\
        raw <> ""%string /\ Baseline.st_name s = trim raw.
Proof.
  destruct (baseline_extractStations_run localeCompare country w)
    as (stations & w' & ev & n & E & Hst & _).
  exists stations, w'. split; [exact E |].
  intros s Hs. destruct Hst as [-> | (els & Hrec & ->)]; [destruct Hs |].
  unfold Baseline.stationOutput, Baseline.sortStations in Hs.
  apply sortBy_In in Hs. rewrite baseline_stationsOf in Hs.
  apply runOf_from in Hs as [[] | (el & lat & lon & name & Hin & Hc & ->)].
  apply baseline_candidate_inv in Hc as (_ & _ & _ & _ & raw & Hraw & Hne & ->).
  cbn [Baseline.st_name Baseline.st_id Baseline.stationOf].
  split; [apply trim_trimmed |]. split; [apply trim_fixed, trim_trimmed |].
  exists el, raw. auto.
Qed.

(** ** Coordinate keys *)

Fixpoint allChars (P : ascii -> bool) (s : string) : bool :=
  match s with
  | EmptyString => true
  | String c s' => P c && allChars P s'
  end.

Lemma allChars_append P (a b : string) :
  allChars P (a ++ b)%string = allChars P a && allChars P b.
Proof.
  induction a as [| c a IH]; [reflexivity |].
  change (String c a ++ b)%string with (String c (a ++ b)%string).
  cbn [allChars]. now rewrite IH, andb_assoc.
Qed.

(** Two splits of one string at the same place. *)
Lemma append_inj_length (a a' b b' : string) :
  (a ++ b)%string = (a' ++ b')%string ->
  String.length b = String.length b' -> a = a' /\ b = b'.
Proof.
  intros H Hlen.
  assert (Hlen' : String.length a = String.length a').
  { apply (f_equal String.length) in H. rewrite !length_append in H. lia. }
  clear Hlen. revert a' H Hlen'.
  induction a as [| c a IH]; intros [| c' a'] H Hlen; try discriminate.
  - auto.
  - change (String c (a ++ b)%string = String c' (a' ++ b')%string) in H.
    injection H as -> H. injection Hlen as Hlen.
    destruct (IH a' H Hlen) as [-> ->]. auto.
Qed.

(** Two splits of one string at its first occurrence of [sep]. *)
Lemma append_inj_sep (sep : ascii) (a a' b b' : string) :
  allChars (fun c => negb (Ascii.eqb c sep)) a = true ->
  allChars (fun c => negb (Ascii.eqb c sep)) a' = true ->
  (a ++ String sep b)%string = (a' ++ String sep b')%string ->
  a = a' /\ b = b'.
Proof.
  revert a'. induction a as [| c a IH]; intros [| c' a'] Ha Ha' H.
  - injection H as ->. auto.
  - change (String sep b = String c' (a' ++ String sep b')%string) in H.
    injection H as <- _. cbn in Ha'. now rewrite Ascii.eqb_refl in Ha'.
  - change (String c (a ++ String sep b)%string = String sep b') in H.
    injection H as -> _. cbn in Ha. now rewrite Ascii.eqb_refl in Ha.
  - change (String c (a ++ String sep b)%string =
            String c' (a' ++ String sep b')%string) in H.
    injection H as -> H. cbn in Ha, Ha'.
    apply andb_true_iff in Ha as [_ Ha]. apply andb_true_iff in Ha' as [_ Ha'].
    destruct (IH a' Ha Ha' H) as [-> ->]. auto.
Qed.

Definition isDigit (c : ascii) : bool :=
  let n := nat_of_ascii c in ((48 <=? n) && (n <=? 57))%nat.

Lemma string_of_uint_digits (d : Decimal.uint) :
  allChars isDigit (NilEmpty.string_of_uint d) = true.
Proof. induction d; cbn; auto. Qed.

Lemma decimal_digits (n : Z) : allChars isDigit (decimal n) = true.
Proof.
  unfold decimal, NilZero.string_of_uint.
  destruct (N.to_uint (Z.to_N n)) eqn:E; try reflexivity;
    rewrite <- E; apply string_of_uint_digits.
Qed.

Lemma to_uint_nonnil (n : N) : N.to_uint n <> Decimal.Nil.
Proof.
  destruct n as [| p]; [discriminate |]. apply DecimalPos.Unsigned.to_uint_nonnil.
Qed.

Lemma decimal_inj (a b : Z) :
  (0 <= a)%Z -> (0 <= b)%Z -> decimal a = decimal b -> a = b.
Proof.
  intros Ha Hb H. unfold decimal in H.
  apply (f_equal NilZero.uint_of_string) in H.
  rewrite !NilZero.usu in H by apply to_uint_nonnil.
  injection H as H. apply (f_equal N.of_uint) in H.
  rewrite !DecimalN.Unsigned.of_to in H. now apply Z2N.inj.
Qed.

Lemma digit_inj (a b : Z) :
  (0 <= a <= 9)%Z -> (0 <= b <= 9)%Z -> digit a = digit b -> a = b.
Proof.
  intros Ha Hb H. unfold digit in H.
  apply (f_equal nat_of_ascii) in H.
  rewrite !nat_ascii_embedding in H by lia. lia.
Qed.

Lemma digit_isDigit (a : Z) : (0 <= a <= 9)%Z -> isDigit (digit a) = true.
Proof.
  intros Ha. unfold isDigit, digit. rewrite nat_ascii_embedding by lia.
  apply andb_true_iff. split; apply Nat.leb_le; lia.
Qed.

Lemma pad4_inj (a b : Z) :
  (0 <= a < 10000)%Z -> (0 <= b < 10000)%Z -> pad4 a = pad4 b -> a = b.
Proof.
  intros Ha Hb H. unfold pad4 in H. injection H as H3 H2 H1 H0.
  apply digit_inj in H3, H2, H1, H0;
    Z.div_mod_to_equations; lia.
Qed.

Lemma append_assoc (a b c : string) :
  (a ++ (b ++ c))%string = ((a ++ b) ++ c)%string.
Proof.
  induction a as [| x a IH]; [reflexivity |].
  change (String x (a ++ (b ++ c))%string = String x ((a ++ b) ++ c)%string).
  now rewrite IH.
Qed.

Lemma allChars_impl (P R : ascii -> bool) (s : string) :
  (forall c, P c = true -> R c = true) ->
  allChars P s = true -> allChars R s = true.
Proof.
  intros HPR. induction s as [| c s IH]; cbn; [reflexivity |].
  intros H. apply andb_true_iff in H as [Hc Hs].
  apply andb_true_iff. auto.
Qed.

(** The sign of a number and its magnitude in units of 0.0001, rounded:
    what [toFixed(4)] prints. *)
Definition fixedCode (x : Q) : bool * Z :=
  (Qltb x 0, Qfloor (Qabs x * 10000 + (1 # 2))).

Lemma fixedCode_nonneg (x : Q) : (0 <= snd (fixedCode x))%Z.
Proof.
  cbn [fixedCode snd]. change 0%Z with (Qfloor 0).
  apply Qfloor_resp_le. pose proof (Qabs_nonneg x). lra.
Qed.

(** The integer part with the sign, and the four decimals. *)
Lemma toFixed4_parts (x : Q) :
  toFixed4 x =
  (((if fst (fixedCode x) then "-" else "") ++
    decimal (snd (fixedCode x) / 10000)) ++
   String "." (pad4 (snd (fixedCode x) mod 10000)))%string.
Proof. unfold toFixed4. cbn [fixedCode fst snd]. now rewrite append_assoc. Qed.

Lemma String_tail (c c' : ascii) (a b : string) :
  String c a = String c' b -> a = b.
Proof. now intros [= _ H]. Qed.

Lemma decimal_no_minus (n : Z) (s : string) : decimal n <> String "-" s.
Proof.
  intros H. pose proof (decimal_digits n) as Hd. rewrite H in Hd.
  discriminate.
Qed.

Lemma toFixed4_inj (x y : Q) :
  toFixed4 x = toFixed4 y <-> fixedCode x = fixedCode y.
Proof.
  split; [| intros H; now rewrite !toFixed4_parts, H].
  rewrite !toFixed4_parts.
  pose proof (fixedCode_nonneg x) as Hx. pose proof (fixedCode_nonneg y) as Hy.
  destruct (fixedCode x) as [sx nx], (fixedCode y) as [sy ny].
  cbn [fst snd] in *. intros H.
  apply append_inj_length in H as [Hint Hdec]; [| reflexivity].
  apply (String_tail "." "." (pad4 (nx mod 10000)) (pad4 (ny mod 10000)))
    in Hdec.
  apply pad4_inj in Hdec; [| Z.div_mod_to_equations; lia ..].
  assert (Hs : sx = sy /\ decimal (nx / 10000) = decimal (ny / 10000)).
  { destruct sx, sy; cbn in Hint.
    - injection Hint as Hint. auto.
    - symmetry in Hint. now apply decimal_no_minus in Hint.
    - now apply decimal_no_minus in Hint.
    - auto. }
  destruct Hs as [-> Hd].
  apply decimal_inj in Hd; [| Z.div_mod_to_equations; lia ..].
  f_equal. Z.div_mod_to_equations. lia.
Qed.

Lemma pad4_digits (r : Z) :
  (0 <= r < 10000)%Z -> allChars isDigit (pad4 r) = true.
Proof.
  intros Hr. unfold pad4. cbn [allChars].
  rewrite !digit_isDigit; [reflexivity | ..]; Z.div_mod_to_equations; lia.
Qed.

Lemma toFixed4_no_comma (x : Q) :
  allChars (fun c => negb (Ascii.eqb c ",")) (toFixed4 x) = true.
Proof.
  rewrite toFixed4_parts. pose proof (fixedCode_nonneg x) as Hx.
  destruct (fixedCode x) as [s n]. cbn [fst snd] in *.
  assert (Hdigit : forall c, isDigit c = true ->
                     negb (Ascii.eqb c ",") = true).
  { intros c Hc. destruct (Ascii.eqb_spec c ","); [subst; discriminate |].
    reflexivity. }
  rewrite !allChars_append.
  apply andb_true_iff; split; [apply andb_true_iff; split |].
  - now destruct s.
  - apply (allChars_impl isDigit); [exact Hdigit | apply decimal_digits].
  - cbn [allChars]. apply andb_true_iff; split; [reflexivity |].
    apply (allChars_impl isDigit); [exact Hdigit |].
    apply pad4_digits. Z.div_mod_to_equations; lia.
Qed.

Lemma coordKey_inj (lat lon lat' lon' : Q) :
  coordKey lat lon = coordKey lat' lon' <->
  fixedCode lat = fixedCode lat' /\ fixedCode lon = fixedCode lon'.
Proof.
  unfold coordKey. split.
  - intros H. apply (append_inj_sep ",") in H; try apply toFixed4_no_comma.
    destruct H as [H1 H2]. now rewrite <- !toFixed4_inj.
  - intros [H1 H2]. apply toFixed4_inj in H1, H2. now rewrite H1, H2.
Qed.

Lemma fixedCode_near (x y : Q) :
  fixedCode x = fixedCode y -> Qabs (x - y) < 1 # 10000.
Proof.
  intros H.
  assert (Hs : Qltb x 0 = Qltb y 0) by exact (f_equal fst H).
  assert (Hn : Qfloor (Qabs x * 10000 + (1 # 2)) =
               Qfloor (Qabs y * 10000 + (1 # 2))) by exact (f_equal snd H).
  clear H.
  pose proof (Qfloor_le (Qabs x * 10000 + (1 # 2))) as Hx1.
  pose proof (Qlt_floor (Qabs x * 10000 + (1 # 2))) as Hx2.
  pose proof (Qfloor_le (Qabs y * 10000 + (1 # 2))) as Hy1.
  pose proof (Qlt_floor (Qabs y * 10000 + (1 # 2))) as Hy2.
  rewrite Hn in Hx1, Hx2. rewrite inject_Z_plus in Hx2, Hy2.
  change (inject_Z 1) with 1 in Hx2, Hy2.
  set (n := inject_Z (Qfloor (Qabs y * 10000 + (1 # 2)))) in *.
  apply Qabs_Qlt_condition.
  destruct (Qltb x 0) eqn:Hx; symmetry in Hs.
  - apply Qltb_lt in Hx, Hs.
    rewrite (Qabs_neg x) in Hx1, Hx2 by lra.
    rewrite (Qabs_neg y) in Hy1, Hy2 by lra. split; lra.
  - apply Qltb_ge in Hx, Hs.
    rewrite (Qabs_pos x) in Hx1, Hx2 by lra.
    rewrite (Qabs_pos y) in Hy1, Hy2 by lra. split; lra.
Qed.

(** X25.  Two positions get the same coordinate key exactly when their
    latitudes agree in sign and in magnitude rounded to four decimals,
    and their longitudes as well.  Positions with the same key are less
    than 0.0001 degrees apart in each coordinate; positions on
    different sides of the equator or of the prime meridian never share
    a key, however close they are. *)
Theorem coordKey_same_bucket (lat lon lat' lon' : Q) :
  (coordKey lat lon = coordKey lat' lon' <->
   fixedCode lat = fixedCode lat' /\ fixedCode lon = fixedCode lon') /\
  (coordKey lat lon = coordKey lat' lon' ->
   Qabs (lat - lat') < 1 # 10000 /\ Qabs (lon - lon') < 1 # 10000) /\
  (lat < 0 /\ 0 <= lat' \/ lon < 0 /\ 0 <= lon' ->
   coordKey lat lon <> coordKey lat' lon').
Proof.
  split; [apply coordKey_inj |]. split.
  - intros H. apply coordKey_inj in H as [H1 H2].
    split; now apply fixedCode_near.
  - intros Hsides H. apply coordKey_inj in H as [H1 H2].
    apply (f_equal fst) in H1, H2. cbn [fixedCode fst] in H1, H2.
    destruct Hsides as [[Hn Hp] | [Hn Hp]];
      apply Qltb_lt in Hn; apply Qltb_ge in Hp; congruence.
Qed.

(** ** Station collector: one station per bucket *)

(** A feature with a position: both coordinates are there, and neither
    is zero. *)
Definition located (el : Element) (lat lon : Q) : Prop :=
  resolvedLat el = Some lat /\ resolvedLon el = Some lon /\
  ~ lat == 0 /\ ~ lon == 0.

(** A feature with a name of its own: one of the tags [name], [name:en]
    and [ref] is there and not empty. *)
Definition hasName (el : Element) : bool :=
  truthyStr (tag el t_name) || truthyStr (tag el t_name_en)
  || truthyStr (tag el t_ref).

Lemma truthyStr_jsOr (a b : option string) :
  truthyStr (jsOr a b) = truthyStr a || truthyStr b.
Proof. unfold jsOr. destruct (truthyStr a) eqn:E; [exact E | reflexivity]. Qed.

Lemma located_not_falsy el lat lon :
  located el lat lon ->
  falsyNum (resolvedLat el) || falsyNum (resolvedLon el) = false.
Proof.
  intros (Hlat & Hlon & Hz1 & Hz2). rewrite Hlat, Hlon. cbn [falsyNum].
  apply orb_false_iff. split; apply not_true_iff_false;
    rewrite Qeq_bool_iff; assumption.
Qed.

(** In the baseline variant a feature with a position and a name is a
    candidate, under the key of its position. *)
Lemma baseline_candidate_of el lat lon :
  located el lat lon -> hasName el = true ->
  keyOf Baseline.candidate el = Some (coordKey lat lon).
Proof.
  intros Hloc Hname. unfold keyOf, Baseline.candidate.
  rewrite (located_not_falsy el lat lon Hloc).
  destruct Hloc as (-> & -> & _). unfold Baseline.resolveName.
  assert (H : truthyStr (jsOr (jsOr (tag el t_name_en) (tag el t_name))
                           (tag el t_ref)) = true).
  { rewrite !truthyStr_jsOr. unfold hasName in Hname.
    destruct (truthyStr (tag el t_name)), (truthyStr (tag el t_name_en));
      auto. }
  rewrite H. apply truthyStr_nonempty in H as (raw & -> & _). reflexivity.
Qed.

Section Buckets.

Variables Math_sin Math_cos Math_sqrt : Q -> Q.
Variable Math_atan2 : Q -> Q -> Q.
Variable Math_PI : Q.
Variable localeCompare : string -> string -> comparison.

Local Abbreviation candidateE :=
  (Extended.candidate Math_sin Math_cos Math_sqrt Math_atan2 Math_PI).
Local Abbreviation stationsOfE :=
  (Extended.stationsOf Math_sin Math_cos Math_sqrt Math_atan2 Math_PI).
Local Abbreviation stationOutputE :=
  (Extended.stationOutput Math_sin Math_cos Math_sqrt Math_atan2 Math_PI
     localeCompare).
Local Abbreviation stationOutputB := (Baseline.stationOutput localeCompare).

(** The extended variant drops a station building that is far from
    every town received; any other feature gets past that filter. *)
Definition pastBuildingFilter (towns : list Extended.Town) (el : Element)
  (lat lon : Q) : Prop :=
  tag el t_building <> Some "train_station"%string \/
  towns = [] \/
  Extended.nearTown Math_sin Math_cos Math_sqrt Math_atan2 Math_PI
    towns lat lon = true.

(** In the extended variant a feature with a position and a name that
    gets past the building filter is a candidate, under the key of its
    position. *)
Lemma extended_candidate_of towns el lat lon :
  located el lat lon -> hasName el = true ->
  pastBuildingFilter towns el lat lon ->
  keyOf (candidateE towns) el = Some (coordKey lat lon).
Proof.
  intros Hloc Hname Hpast. unfold keyOf, Extended.candidate.
  rewrite (located_not_falsy el lat lon Hloc).
  destruct Hloc as (-> & -> & _).
  assert (Hfilter :
            match tag el t_building with
            | Some b => String.eqb b "train_station"
            | None => false
            end
            && (0 <? length towns)%nat
            && negb (Extended.nearTown Math_sin Math_cos Math_sqrt Math_atan2
                       Math_PI towns lat lon) = false).
  { destruct Hpast as [Hb | [-> | ->]].
    - destruct (tag el t_building) as [b |]; [| reflexivity].
      destruct (String.eqb_spec b "train_station"); [congruence | reflexivity].
    - cbn [length]. change (0 <? 0)%nat with false.
      now rewrite andb_false_r.
    - cbn [negb]. apply andb_false_r. }
  rewrite Hfilter. unfold Extended.resolveName.
  assert (H : truthyStr (jsOr (jsOr (tag el t_name) (tag el t_name_en))
                           (tag el t_ref)) = true).
  { rewrite !truthyStr_jsOr. exact Hname. }
  rewrite H. apply truthyStr_nonempty in H as (raw & -> & _). reflexivity.
Qed.

(** C7.  The station map of either variant never holds two stations
    under one coordinate key, and the collector returns one station per
    key.  Two features with a position and a name of their own (and, in
    the extended variant, past the building filter), whose latitudes
    agree in sign and in magnitude rounded to four decimals and whose
    longitudes do as well, leave exactly one station under their key
    whatever the other elements are, and alone they give exactly one
    station. *)
Theorem one_station_per_bucket (towns : list Extended.Town)
  (els : list Element) (el1 el2 : Element) (lat1 lon1 lat2 lon2 : Q) :
  In el1 els -> In el2 els ->
  located el1 lat1 lon1 -> located el2 lat2 lon2 ->
  hasName el1 = true -> hasName el2 = true ->
  fixedCode lat1 = fixedCode lat2 -> fixedCode lon1 = fixedCode lon2 ->
  (pastBuildingFilter towns el1 lat1 lon1 ->
   pastBuildingFilter towns el2 lat2 lon2 ->
   stationsAt (coordKey lat1 lon1) (stationsOfE towns els) = 1%nat /\
   length (stationOutputE towns [el1; el2]) = 1%nat) /\
  (stationsAt (coordKey lat1 lon1) (Baseline.stationsOf els) = 1%nat /\
   length (stationOutputB [el1; el2]) = 1%nat) /\
  (forall towns0 els0,
     List.NoDup (mapKeys (stationsOfE towns0 els0)) /\
     length (stationOutputE towns0 els0) =
       length (mapKeys (stationsOfE towns0 els0)) /\
     List.NoDup (mapKeys (Baseline.stationsOf els0)) /\
     length (stationOutputB els0) = length (mapKeys (Baseline.stationsOf els0))).
Proof.
  intros Hin1 Hin2 Hloc1 Hloc2 Hname1 Hname2 Hlat Hlon.
  assert (Hkey : coordKey lat2 lon2 = coordKey lat1 lon1)
    by (apply coordKey_inj; split; congruence).
  assert (HndE : forall towns0 els0,
            List.NoDup (mapKeys (stationsOfE towns0 els0))).
  { intros. rewrite extended_stationsOf. apply runOf_NoDup. constructor. }
  assert (HndB : forall els0, List.NoDup (mapKeys (Baseline.stationsOf els0))).
  { intros. rewrite baseline_stationsOf. apply runOf_NoDup. constructor. }
  assert (HlenE : forall towns0 els0,
            length (stationOutputE towns0 els0) =
            length (mapKeys (stationsOfE towns0 els0))).
  { intros. unfold Extended.stationOutput, Extended.sortStations.
    now rewrite sortBy_length, mapValues_length. }
  assert (HlenB : forall els0,
            length (stationOutputB els0) =
            length (mapKeys (Baseline.stationsOf els0))).
  { intros. unfold Baseline.stationOutput, Baseline.sortStations.
    now rewrite sortBy_length, mapValues_length. }
  split; [| split].
  - intros Hpast1 Hpast2.
    pose proof (extended_candidate_of towns el1 lat1 lon1 Hloc1 Hname1 Hpast1)
      as H1.
    pose proof (extended_candidate_of towns el2 lat2 lon2 Hloc2 Hname2 Hpast2)
      as H2.
    rewrite Hkey in H2. split.
    + apply stationsAt_one; [apply HndE |].
      rewrite extended_stationsOf. eapply runOf_adds_key; eauto.
    + rewrite HlenE, extended_stationsOf.
      now rewrite (runOf_pair_keys _ _ _ el1 el2 _ H1 H2).
  - pose proof (baseline_candidate_of el1 lat1 lon1 Hloc1 Hname1) as H1.
    pose proof (baseline_candidate_of el2 lat2 lon2 Hloc2 Hname2) as H2.
    rewrite Hkey in H2. split.
    + apply stationsAt_one; [apply HndB |].
      rewrite baseline_stationsOf. eapply runOf_adds_key; eauto.
    + rewrite HlenB, baseline_stationsOf.
      now rewrite (runOf_pair_keys _ _ _ el1 el2 _ H1 H2).
  - intros towns0 els0. auto.
Qed.

End Buckets.

Lemma one_station_per_bucket_witness :
  let el1 := namedNode 1 (4100001 # 100000) 29 "Depot" in
  let el2 := namedNode 2 (4100002 # 100000) 29 "Depot Station" in
  length
    (Extended.stationOutput sampleMath sampleMath sampleMath sampleAtan2 0
       String.compare [] [el1; el2]) = 1%nat /\
  length (Baseline.stationOutput String.compare [el1; el2]) = 1%nat.
Proof.
  intros el1 el2.
  destruct (one_station_per_bucket sampleMath sampleMath sampleMath
              sampleAtan2 0 String.compare [] [el1; el2] el1 el2
              (4100001 # 100000) 29 (4100002 # 100000) 29)
    as (HE & HB & _).
  - now left.
  - right. now left.
  - repeat split; discriminate.
  - repeat split; discriminate.
  - reflexivity.
  - reflexivity.
  - reflexivity.
  - reflexivity.
  - split; [apply HE; right; left; reflexivity | apply HB].
Defined.

(** Against C7 as stated.  Two features on either side of the equator,
    0.00002 degrees apart: the latitudes of both round to 0.0000, the
    keys are [0.0000,29.0000] and [-0.0000,29.0000], and both variants
    return two stations. *)
Lemma two_stations_in_one_bucket :
  let el1 := namedNode 1 (1 # 100000) 29 "Depot" in
  let el2 := namedNode 2 (- (1 # 100000)) 29 "Halt" in
  Math_round ((1 # 100000) * 10000) = Math_round (- (1 # 100000) * 10000) /\
  coordKey (1 # 100000) 29 = "0.0000,29.0000"%string /\
  coordKey (- (1 # 100000)) 29 = "-0.0000,29.0000"%string /\
  length
    (Extended.stationOutput sampleMath sampleMath sampleMath sampleAtan2 0
       String.compare [] [el1; el2]) = 2%nat /\
  length (Baseline.stationOutput String.compare [el1; el2]) = 2%nat.
Proof. repeat split. Qed.

(** ** Railway collector: from the country to the segments *)







(** ** Railway collector: repeated elements *)

(** Elements whose ids are all seen leave the collection as it is. *)
Lemma collectElements_seen (els : list Element) (st : Collected) :
  (forall el, In el els -> el_id el ∈ seenIds st) ->
  collectElements st els = st.
Proof.
  unfold collectElements. induction els as [| el els IH]; intros H; cbn;
    [reflexivity |].
  rewrite (collectElement_seen st el) by (apply H; now left).
  apply IH. intros x Hx. apply H. now right.
Qed.

Lemma collectElements_ids_seen (els : list Element) : forall st el,
  In el els -> el_id el ∈ seenIds (collectElements st els).
Proof.
  unfold collectElements.
  induction els as [| x els IH]; intros st el Hin; [destruct Hin |].
  cbn. destruct Hin as [-> | Hin]; [| now apply IH].
  assert (Hkeep : forall l st0 id,
            id ∈ seenIds st0 -> id ∈ seenIds (fold_left collectElement l st0)).
  { induction l as [| y l IHl]; intros st0 id Hid; cbn; [exact Hid |].
    apply IHl. destruct (collectElement_cases st0 y) as (_ & Hsub & _).
    now apply Hsub. }
  apply Hkeep. destruct (collectElement_cases st el) as (_ & _ & _ & H).
  exact H.
Qed.

(** X27.  In either variant, when every tile is answered at once,
    elements whose ids came earlier in the run, in the same tile or in
    an earlier one, add nothing, whatever their geometry: the segments
    returned are those of the elements before them. *)
Theorem repeated_elements_add_nothing (tiles : list BBox)
  (batches : list (list Element)) (w : World) (l1 l2 : list Element) :
  length batches = length tiles -> answers w batches ->
  concat batches = l1 ++ l2 ->
  (forall el, In el l2 -> exists el', In el' l1 /\ el_id el' = el_id el) ->
  segmentsOf (Extended.collectRailways tiles w) =
    Some (allWays (collectElements (mkCollected ∅ []) l1)) /\
  segmentsOf (Baseline.collectRailways tiles w) =
    Some (allWays (collectElements (mkCollected ∅ []) l1)).
Proof.
  intros Hlen Hans Hcat Hrep.
  destruct (collectRailways_batches tiles batches w Hlen Hans) as [E1 E2].
  rewrite E1, E2, Hcat, collectElements_app.
  assert (E : collectElements (collectElements (mkCollected ∅ []) l1) l2 =
              collectElements (mkCollected ∅ []) l1).
  { apply collectElements_seen. intros el Hin.
    destruct (Hrep el Hin) as (el' & Hin' & <-).
    now apply collectElements_ids_seen. }
  rewrite E. split; reflexivity.
Qed.

Lemma repeated_elements_add_nothing_witness :
  segmentsOf
    (Extended.collectRailways [mkBBox 0 0 5 5; mkBBox 5 0 10 5] sampleWayWorld)
  = Some [segmentOf sampleWay [mkPoint 1 2; mkPoint 3 4]] /\
  segmentsOf
    (Baseline.collectRailways [mkBBox 0 0 5 5; mkBBox 5 0 10 5] sampleWayWorld)
  = Some [segmentOf sampleWay [mkPoint 1 2; mkPoint 3 4]].
Proof.
  apply (repeated_elements_add_nothing [mkBBox 0 0 5 5; mkBBox 5 0 10 5]
           [[sampleWay]; [sampleWay]] sampleWayWorld [sampleWay] [sampleWay]).
  - reflexivity.
  - intros k Hk. destruct k as [| [| k]]; [reflexivity | reflexivity |].
    cbn in Hk. lia.
  - reflexivity.
  - intros el [<- | []]. exists sampleWay. split; [now left | reflexivity].
Defined.
